(** * GpuHashTable: a linear-probing hash table filled and read by parallel kernels

    Shallow embedding of the [GpuHashTable] class and of its three kernels.

    - [uint32] values are integers in [Z] with the wrap-around written out.
    - The table is an array of [TableEntry], a [list] read with [!!] and
      updated with [<[ _ := _ ]>].
    - Single precision arithmetic of the load-factor test is modelled
      exactly, on integers (a finite float is a fraction [n / d] whose
      value is representable).
    - A kernel launch is a pool of threads over a shared memory; one thread
      performs one memory access per step, and a launch is executed along a
      schedule (the list of the thread indices that step, in order).
      [cudaDeviceSynchronize] returns when every thread has returned. *)

From Stdlib Require Import ZArith Lia Bool.
From stdpp Require Import base numbers list option gmap.

Local Open Scope Z_scope.

(** ** Machine integers *)

Definition uint32_max : Z := 4294967296.

Definition wrap32 (x : Z) : Z := x mod uint32_max.

Definition is_uint32 (x : Z) : Prop := 0 <= x < uint32_max.

(** Modelled from the spec: [KEY_INVALID] is defined in a header that is not
    part of the sources at hand ([test_map.hpp]); the spec gives the reserved
    key as the all-bits-one 32-bit value. *)
Definition KEY_INVALID : Z := 4294967295.

(** ** Hash function *)

Definition hashFunc (key : Z) : Z :=
  let hash := wrap32 key in
  let hash := wrap32 (Z.lxor hash (uint32_max - 1) + wrap32 (Z.shiftl hash 15)) in
  let hash := Z.lxor hash (Z.shiftr hash 12) in
  let hash := wrap32 (hash + wrap32 (Z.shiftl hash 2)) in
  let hash := Z.lxor hash (Z.shiftr hash 4) in
  let hash := wrap32 (wrap32 (hash + wrap32 (Z.shiftl hash 3)) + wrap32 (Z.shiftl hash 11)) in
  let hash := Z.lxor hash (Z.shiftr hash 16) in
  hash.

(** ** Single precision floats, as far as the load factor needs them

    Only non-negative values occur.  A finite value is kept as the fraction
    [n / d] it denotes ([0 < d]; the fraction need not be reduced); division
    by zero gives an infinity or a NaN as in IEEE 754. *)

Inductive float32 : Type :=
  | FFin (n d : Z)
  | FInf
  | FNaN.

(** [n / d] rounded to the nearest integer, ties to even ([0 < d]). *)
Definition round_half_even (n d : Z) : Z :=
  let q := n / d in
  let r := n mod d in
  if 2 * r <? d then q
  else if d <? 2 * r then q + 1
  else if Z.even q then q else q + 1.

(** The exponent [p] with [2^p <= n / d < 2^(p+1)], for [0 < n] and [0 < d]. *)
Definition floor_log2_ratio (n d : Z) : Z :=
  let l := Z.log2 n - Z.log2 d in
  if 0 <=? l
  then (if d * 2 ^ l <=? n then l else l - 1)
  else (if d <=? n * 2 ^ (- l) then l else l - 1).

(** The positive rational [n / d] rounded to 24 significant bits, to nearest
    and ties to even: the result is [m * 2^e] with [m] the rounded
    significand.  (The exponent range of binary32 is never left by the
    quotients of two 32-bit integers, so it is not modelled.) *)
Definition round_to_float32 (n d : Z) : float32 :=
  let e := floor_log2_ratio n d - 23 in
  if 0 <=? e then FFin (round_half_even n (d * 2 ^ e) * 2 ^ e) 1
  else FFin (round_half_even (n * 2 ^ (- e)) d) (2 ^ (- e)).

(** [(float) x] for [x : uint32]. *)
Definition float_of_uint32 (x : Z) : float32 :=
  if x =? 0 then FFin 0 1 else round_to_float32 x 1.

Definition float32_div (a b : float32) : float32 :=
  match a, b with
  | FFin na da, FFin nb db =>
      if nb =? 0 then (if na =? 0 then FNaN else FInf)
      else if na =? 0 then FFin 0 1
      else round_to_float32 (na * db) (da * nb)
  | FNaN, _ | _, FNaN => FNaN
  | FInf, FInf => FNaN
  | FInf, FFin _ _ => FInf
  | FFin _ _, FInf => FFin 0 1
  end.

(** [a > b] on floats; any comparison with a NaN is false. *)
Definition float32_gt (a b : float32) : bool :=
  match a, b with
  | FFin na da, FFin nb db => nb * da <? na * db
  | FInf, FFin _ _ => true
  | _, _ => false
  end.

(** [(int) f]: truncation; outside of the range of [int] the conversion is
    undefined. *)
Definition int_of_float32 (f : float32) : option Z :=
  match f with
  | FFin n d => if n / d <? 2147483648 then Some (n / d) else None
  | _ => None
  end.

(** [0.5f] and [0.8f]: the latter is [0x3F4CCCCD], that is
    [13421773 / 2^24], the binary32 nearest to 8/10; it lies slightly above
    8/10. *)
Definition MIN_LOAD_FACTOR : float32 := FFin 1 2.
Definition MAX_LOAD_FACTOR : float32 := FFin 13421773 16777216.

Definition loadFactor (used_buckets capacity : Z) : float32 :=
  float32_div (float_of_uint32 used_buckets) (float_of_uint32 capacity).

(** ** Launch shape *)

(** [estimateBlockSize]: [maxThreadsPerBlock] is what the device reports. *)
Definition estimateBlockSize (maxThreadsPerBlock nItems : Z) : Z * Z :=
  let nThreads := maxThreadsPerBlock in
  let nBlocks := nItems / nThreads + (if nItems mod nThreads =? 0 then 0 else 1) in
  (nBlocks, nThreads).

(** ** Kernel launches

    A launch [kernel<<<nBlocks, nThreads>>>] starts [nBlocks * nThreads]
    threads, thread [idx] being the one with
    [blockIdx.x * blockDim.x + threadIdx.x = idx].  [thread idx l m] is one
    step of thread [idx] from its local state [l] on the memory [m]. *)

Section Launch.
Context {M L : Type}.
Variable thread : nat -> L -> M -> M * L.
Variable returned : L -> bool.

Definition step (st : M * list L) (idx : nat) : M * list L :=
  match st.2 !! idx with
  | Some l => let '(m, l') := thread idx l st.1 in (m, <[idx := l']> st.2)
  | None => st
  end.

Definition run (sched : list nat) (st : M * list L) : M * list L :=
  foldl step st sched.

(** [cudaDeviceSynchronize]: the memory, once every thread has returned. *)
Definition synchronize (st : M * list L) : option M :=
  if forallb returned st.2 then Some st.1 else None.
End Launch.

Definition grid (nBlocks nThreads : Z) : list nat :=
  seq 0 (Z.to_nat (nBlocks * nThreads)).

(** ** The table *)

Record TableEntry : Type := { key : Z; value : Z }.

(** [cudaMemset(table, KEY_INVALID, n * sizeof(struct TableEntry))] writes the
    low byte of [KEY_INVALID] to every byte. *)
Definition memset_word (c : Z) : Z :=
  let b := c mod 256 in
  b + 256 * b + 65536 * b + 16777216 * b.

Definition cudaMemset_table (c : Z) (n : Z) : list TableEntry :=
  replicate (Z.to_nat n) {| key := memset_word c; value := memset_word c |}.

(** [atomicCAS(&table[h].key, compare, val)]: the table afterwards and the old
    key; nothing when [h] is outside of the table. *)
Definition atomicCAS_key (table : list TableEntry) (h : Z) (compare val : Z)
  : option (list TableEntry * Z) :=
  match table !! Z.to_nat h with
  | Some e =>
      Some (if key e =? compare
            then <[Z.to_nat h := {| key := val; value := value e |}]> table
            else table, key e)
  | None => None
  end.

(** [table[h].value = v] *)
Definition store_value (table : list TableEntry) (h : Z) (v : Z) : list TableEntry :=
  alter (fun e => {| key := key e; value := v |}) (Z.to_nat h) table.

(** ** kernelInsert *)

Inductive insert_pc : Type :=
  | IProbe (generated_hash : Z)   (* at the [atomicCAS] *)
  | ICount (generated_hash : Z)   (* at the [atomicAdd] *)
  | IStore (generated_hash : Z)   (* at the store of the value *)
  | IReturn.

Definition insert_returned (l : insert_pc) : bool :=
  match l with IReturn => true | _ => false end.

Definition kernelInsert_entry (capacity : Z) (device_keys : list Z) (numKeys : Z)
    (idx : nat) : insert_pc :=
  if numKeys <=? Z.of_nat idx then IReturn
  else IProbe (hashFunc (device_keys !!! idx) mod capacity).

(** The memory of the kernel is the table and [*count_updated_keys]. *)
Definition kernelInsert_thread (capacity : Z) (device_keys device_values : list Z)
    (idx : nat) (l : insert_pc) (m : list TableEntry * Z)
  : (list TableEntry * Z) * insert_pc :=
  let k := device_keys !!! idx in
  match l with
  | IProbe generated_hash =>
      match atomicCAS_key m.1 generated_hash KEY_INVALID k with
      | Some (table, old_key) =>
          if (old_key =? KEY_INVALID) || (old_key =? k)
          then ((table, m.2),
                if old_key =? k then ICount generated_hash else IStore generated_hash)
          else
            let generated_hash := wrap32 (generated_hash + 1) mod capacity in
            ((table, m.2),
             if generated_hash =? hashFunc k mod capacity then IReturn
             else IProbe generated_hash)
      | None => (m, l)
      end
  | ICount generated_hash => ((m.1, wrap32 (m.2 + 1)), IStore generated_hash)
  | IStore generated_hash =>
      ((store_value m.1 generated_hash (device_values !!! idx), m.2), IReturn)
  | IReturn => (m, IReturn)
  end.

Definition kernelInsert (sched : list nat) (nBlocks nThreads : Z)
    (table : list TableEntry) (capacity : Z) (device_keys device_values : list Z)
    (numKeys : Z) (count_updated_keys : Z) : option (list TableEntry * Z) :=
  synchronize insert_returned
    (run (kernelInsert_thread capacity device_keys device_values) sched
       ((table, count_updated_keys),
        map (kernelInsert_entry capacity device_keys numKeys) (grid nBlocks nThreads))).

(** ** kernelReshape *)

Inductive reshape_pc : Type :=
  | RProbe (generated_hash : Z)
  | RStore (generated_hash : Z)
  | RReturn.

Definition reshape_returned (l : reshape_pc) : bool :=
  match l with RReturn => true | _ => false end.

Definition old_entry (old_table : list TableEntry) (idx : nat) : TableEntry :=
  default {| key := 0; value := 0 |} (old_table !! idx).

Definition kernelReshape_entry (old_table : list TableEntry) (old_capacity new_capacity : Z)
    (idx : nat) : reshape_pc :=
  if (old_capacity <=? Z.of_nat idx) || (key (old_entry old_table idx) =? KEY_INVALID)
  then RReturn
  else RProbe (hashFunc (key (old_entry old_table idx)) mod new_capacity).

(** The old table is only read; the memory of the kernel is the new table. *)
Definition kernelReshape_thread (old_table : list TableEntry) (new_capacity : Z)
    (idx : nat) (l : reshape_pc) (new_table : list TableEntry)
  : list TableEntry * reshape_pc :=
  let k := key (old_entry old_table idx) in
  match l with
  | RProbe generated_hash =>
      match atomicCAS_key new_table generated_hash KEY_INVALID k with
      | Some (new_table', old_key) =>
          if old_key =? KEY_INVALID then (new_table', RStore generated_hash)
          else
            let generated_hash := wrap32 (generated_hash + 1) mod new_capacity in
            (new_table',
             if generated_hash =? hashFunc k mod new_capacity then RReturn
             else RProbe generated_hash)
      | None => (new_table, l)
      end
  | RStore generated_hash =>
      (store_value new_table generated_hash (value (old_entry old_table idx)), RReturn)
  | RReturn => (new_table, RReturn)
  end.

Definition kernelReshape (sched : list nat) (nBlocks nThreads : Z)
    (old_table : list TableEntry) (old_capacity : Z)
    (new_table : list TableEntry) (new_capacity : Z) : option (list TableEntry) :=
  synchronize reshape_returned
    (run (kernelReshape_thread old_table new_capacity) sched
       (new_table,
        map (kernelReshape_entry old_table old_capacity new_capacity)
          (grid nBlocks nThreads))).

(** ** kernelGet *)

Inductive get_pc : Type :=
  | GProbe (generated_hash : Z)
  | GReturn.

Definition get_returned (l : get_pc) : bool :=
  match l with GReturn => true | _ => false end.

Definition kernelGet_entry (capacity : Z) (device_keys : list Z) (numKeys : Z)
    (idx : nat) : get_pc :=
  if numKeys <=? Z.of_nat idx then GReturn
  else GProbe (hashFunc (device_keys !!! idx) mod capacity).

(** The memory of the kernel is the table and [device_values]. *)
Definition kernelGet_thread (capacity : Z) (device_keys : list Z)
    (idx : nat) (l : get_pc) (m : list TableEntry * list Z)
  : (list TableEntry * list Z) * get_pc :=
  match l with
  | GProbe generated_hash =>
      match m.1 !! Z.to_nat generated_hash with
      | Some e =>
          if device_keys !!! idx =? key e
          then ((m.1, <[idx := value e]> m.2), GReturn)
          else (m, GProbe (wrap32 (generated_hash + 1) mod capacity))
      | None => (m, l)
      end
  | GReturn => (m, GReturn)
  end.

Definition kernelGet (sched : list nat) (nBlocks nThreads : Z)
    (table : list TableEntry) (capacity : Z) (device_keys device_values : list Z)
    (numKeys : Z) : option (list TableEntry * list Z) :=
  synchronize get_returned
    (run (kernelGet_thread capacity device_keys) sched
       ((table, device_values),
        map (kernelGet_entry capacity device_keys numKeys) (grid nBlocks nThreads))).

(** ** The class *)

Record GpuHashTable : Type := {
  table : list TableEntry;
  used_buckets : Z;
  capacity : Z
}.

Section Device.
(** [prop.maxThreadsPerBlock] of device 0. *)
Variable maxThreadsPerBlock : Z.

(** The constructor. *)
Definition GpuHashTable_new (size : Z) : GpuHashTable :=
  {| table := cudaMemset_table KEY_INVALID size;
     capacity := size;
     used_buckets := 0 |}.

(** [reshape]: nothing is returned while the kernel has not finished; a
    negative size cannot be allocated. *)
Definition reshape (sched : list nat) (this : GpuHashTable) (numBucketsReshape : Z)
  : option GpuHashTable :=
  if numBucketsReshape <? 0 then None else
  let old_table := table this in
  let old_capacity := capacity this in
  let new_table := cudaMemset_table KEY_INVALID numBucketsReshape in
  let new_capacity := numBucketsReshape in
  let '(nBlocks, nThreads) := estimateBlockSize maxThreadsPerBlock old_capacity in
  match kernelReshape sched nBlocks nThreads old_table old_capacity
          new_table new_capacity with
  | Some new_table' =>
      Some {| table := new_table';
              capacity := new_capacity;
              used_buckets := used_buckets this |}
  | None => None
  end.

(** [insertBatch]: [scheds] are the schedules of the reshape kernel and of
    the insert kernel. *)
Definition insertBatch (scheds : list nat * list nat) (this : GpuHashTable)
    (keys values : list Z) (numKeys : Z) : option (GpuHashTable * bool) :=
  if numKeys =? 0 then Some (this, false) else
  let lf := loadFactor (wrap32 (used_buckets this + numKeys)) (capacity this) in
  let resized :=
    if float32_gt lf MAX_LOAD_FACTOR
    then
      match int_of_float32
              (float32_div (float_of_uint32 (wrap32 (used_buckets this + numKeys)))
                 MIN_LOAD_FACTOR) with
      | Some c => reshape scheds.1 this c
      | None => None
      end
    else Some this in
  match resized with
  | Some this =>
      let device_keys := take (Z.to_nat numKeys) keys in
      let device_values := take (Z.to_nat numKeys) values in
      let count_updated_keys := 0 in
      let '(nBlocks, nThreads) := estimateBlockSize maxThreadsPerBlock numKeys in
      match kernelInsert scheds.2 nBlocks nThreads (table this) (capacity this)
              device_keys device_values numKeys count_updated_keys with
      | Some (table', count_updated_keys) =>
          Some ({| table := table';
                   capacity := capacity this;
                   used_buckets :=
                     wrap32 (used_buckets this + wrap32 (numKeys - count_updated_keys)) |},
                true)
      | None => None
      end
  | None => None
  end.

(** [getBatch]: the object afterwards and the returned pointer ([None] is
    [NULL], otherwise the [numKeys] values of [host_values]). *)
Definition getBatch (sched : list nat) (this : GpuHashTable)
    (keys : list Z) (numKeys : Z) : option (GpuHashTable * option (list Z)) :=
  if numKeys =? 0 then Some (this, None) else
  let device_keys := take (Z.to_nat numKeys) keys in
  let device_values := replicate (Z.to_nat numKeys) 0 in
  let '(nBlocks, nThreads) := estimateBlockSize maxThreadsPerBlock numKeys in
  match kernelGet sched nBlocks nThreads (table this) (capacity this)
          device_keys device_values numKeys with
  | Some (table', host_values) =>
      Some ({| table := table';
               capacity := capacity this;
               used_buckets := used_buckets this |},
            Some host_values)
  | None => None
  end.
End Device.

(** ** Notions used to state the properties *)

(** The keys of the occupied slots, in slot order, and their number. *)
Definition live_keys (table : list TableEntry) : list Z :=
  filter (fun k => k <> KEY_INVALID) (key <$> table).

Definition live (table : list TableEntry) : Z :=
  Z.of_nat (length (live_keys table)).

(** Some slot holds the pair [(k, v)]. *)
Definition stored (table : list TableEntry) (k v : Z) : Prop :=
  exists h : nat, table !! h = Some {| key := k; value := v |}.

(** The keys of all the slots, in slot order. *)
Definition keys_of (table : list TableEntry) : list Z := key <$> table.

(** The position of the slot [h] in the probe sequence of the key [k]. *)
Definition offset (capacity k h : Z) : Z :=
  (h - hashFunc k mod capacity) mod capacity.

(** A table in which look-ups and insertions work: every live key occurs
    once, and no empty slot lies between the home bucket of a live key and
    the slot that holds it. *)
Record table_ok (capacity : Z) (table : list TableEntry) : Prop := {
  ok_length : Z.of_nat (length table) = capacity;
  ok_distinct : forall j1 j2 k,
    keys_of table !! j1 = Some k -> keys_of table !! j2 = Some k ->
    k <> KEY_INVALID -> j1 = j2;
  ok_path : forall j k j' k',
    keys_of table !! j = Some k -> k <> KEY_INVALID ->
    keys_of table !! j' = Some k' ->
    offset capacity k (Z.of_nat j') < offset capacity k (Z.of_nat j) ->
    k' <> KEY_INVALID
}.

(** The invariant of the class between two calls. *)
Record wf (this : GpuHashTable) : Prop := {
  wf_capacity : 0 < capacity this < 2147483648;
  wf_table : table_ok (capacity this) (table this);
  wf_used : used_buckets this = live (table this)
}.

(** The value of [(float) x]; it is an integer. *)
Definition uint32_as_float (x : Z) : Z :=
  match float_of_uint32 x with
  | FFin n d => n / d
  | _ => 0
  end.

(** The probing loop that [kernelInsert] and [kernelReshape] have in common,
    used to reason about both: thread [idx] carries the pair
    [(keyof idx, valof idx)], and with [update] it also accepts a slot that
    already holds its key. *)
Definition claim_thread (update : bool) (capacity : Z) (keyof valof : nat -> Z)
    (idx : nat) (l : insert_pc) (m : list TableEntry * Z)
  : (list TableEntry * Z) * insert_pc :=
  let k := keyof idx in
  match l with
  | IProbe h =>
      match atomicCAS_key m.1 h KEY_INVALID k with
      | Some (table, old_key) =>
          if (old_key =? KEY_INVALID) || (update && (old_key =? k))
          then ((table, m.2), if update && (old_key =? k) then ICount h else IStore h)
          else
            let h' := wrap32 (h + 1) mod capacity in
            ((table, m.2), if h' =? hashFunc k mod capacity then IReturn else IProbe h')
      | None => (m, l)
      end
  | ICount h => ((m.1, wrap32 (m.2 + 1)), IStore h)
  | IStore h => ((store_value m.1 h (valof idx), m.2), IReturn)
  | IReturn => (m, IReturn)
  end.

Definition claim_entry (capacity : Z) (keyof : nat -> Z) (active : nat -> bool)
    (idx : nat) : insert_pc :=
  if active idx then IProbe (hashFunc (keyof idx) mod capacity) else IReturn.

Definition reshape_pc_view (l : reshape_pc) : insert_pc :=
  match l with
  | RProbe h => IProbe h
  | RStore h => IStore h
  | RReturn => IReturn
  end.

(** Sum of a per-thread quantity over a pool whose first thread is [i]. *)
Fixpoint pool_sum {L : Type} (w : nat -> L -> nat) (i : nat) (pool : list L) : nat :=
  match pool with
  | [] => 0%nat
  | l :: pool => (w i l + pool_sum w (S i) pool)%nat
  end.

(** Threads that may still increment the counter of updated keys. *)
Definition may_count (l : insert_pc) : nat :=
  match l with
  | IProbe _ | ICount _ => 1%nat
  | _ => 0%nat
  end.

(** A bound on the steps thread [idx] of the probing loop has left. *)
Definition steps_left (capacity : Z) (keyof : nat -> Z) (idx : nat) (l : insert_pc) : nat :=
  match l with
  | IProbe h => Z.to_nat (capacity - offset capacity (keyof idx) h) + 2
  | ICount _ => 2
  | IStore _ => 1
  | IReturn => 0
  end%nat.


Definition pending (pool : list insert_pc) : Z :=
  Z.of_nat (pool_sum (fun _ => may_count) 0 pool).

(** What holds all along a launch of the probing loop, whatever the table
    it starts from ([table0]). *)
Record claim_basic (keyof : nat -> Z) (active : nat -> bool) (table0 : list TableEntry)
    (bound : Z) (st : (list TableEntry * Z) * list insert_pc) : Prop := {
  cb_length : length st.1.1 = length table0;
  cb_active : forall i l, st.2 !! i = Some l -> l <> IReturn -> active i = true;
  cb_keys : forall j k, keys_of table0 !! j = Some k -> k <> KEY_INVALID ->
    keys_of st.1.1 !! j = Some k;
  cb_hold : forall i h,
    st.2 !! i = Some (ICount h) \/ st.2 !! i = Some (IStore h) ->
    forall k, keys_of table0 !! Z.to_nat h = Some k -> k = KEY_INVALID \/ k = keyof i;
  cb_frame : forall j e, table0 !! j = Some e -> key e <> KEY_INVALID ->
    (forall i, active i = true -> keyof i <> key e) -> st.1.1 !! j = Some e;
  cb_origin : forall j k, keys_of st.1.1 !! j = Some k ->
    k = KEY_INVALID \/ keys_of table0 !! j = Some k \/
    exists i, active i = true /\ keyof i = k;
  cb_count : 0 <= st.1.2 /\ st.1.2 + pending st.2 <= bound
}.

(** What holds all along a launch of the probing loop that starts from a
    table with room for every thread. *)
Record claim_inv (update : bool) (capacity : Z) (keyof valof : nat -> Z)
    (active : nat -> bool) (balance : Z)
    (st : (list TableEntry * Z) * list insert_pc) : Prop := {
  ci_table : table_ok capacity st.1.1;
  ci_active : forall i l, st.2 !! i = Some l -> l <> IReturn -> active i = true;
  ci_probe : forall i h, st.2 !! i = Some (IProbe h) ->
    0 <= h < capacity /\
    forall j k, keys_of st.1.1 !! j = Some k ->
      offset capacity (keyof i) (Z.of_nat j) < offset capacity (keyof i) h ->
      k <> KEY_INVALID /\ k <> keyof i;
  ci_fresh : update = false -> forall i h, st.2 !! i = Some (IProbe h) ->
    forall j, keys_of st.1.1 !! j <> Some (keyof i);
  ci_hold : forall i h,
    st.2 !! i = Some (ICount h) \/ st.2 !! i = Some (IStore h) ->
    0 <= h /\ keys_of st.1.1 !! Z.to_nat h = Some (keyof i);
  ci_nocount : update = false -> forall i h, st.2 !! i <> Some (ICount h);
  ci_account : 0 <= st.1.2 /\ live st.1.1 + st.1.2 + pending st.2 = balance;
  ci_done : forall i, active i = true -> st.2 !! i = Some IReturn ->
    exists j e i', st.1.1 !! j = Some e /\ key e = keyof i /\
      active i' = true /\ keyof i' = keyof i /\ value e = valof i'
}.

(** What the probing loop needs to go on: probes stay inside of the table. *)
Definition claim_bounds (capacity : Z) (st : (list TableEntry * Z) * list insert_pc) : Prop :=
  Z.of_nat (length st.1.1) = capacity /\
  forall i h, st.2 !! i = Some (IProbe h) -> 0 <= h < capacity.

(** The pair carried by a thread of [kernelInsert] and of [kernelReshape], and
    the threads that enter the loop. *)
Definition insert_keyof (device_keys : list Z) (idx : nat) : Z := device_keys !!! idx.
Definition insert_valof (device_values : list Z) (idx : nat) : Z := device_values !!! idx.
Definition insert_active (numKeys : Z) (idx : nat) : bool := Z.of_nat idx <? numKeys.

Definition reshape_keyof (old_table : list TableEntry) (idx : nat) : Z :=
  key (old_entry old_table idx).
Definition reshape_valof (old_table : list TableEntry) (idx : nat) : Z :=
  value (old_entry old_table idx).
Definition reshape_active (old_table : list TableEntry) (old_capacity : Z) (idx : nat) : bool :=
  negb ((old_capacity <=? Z.of_nat idx) || (key (old_entry old_table idx) =? KEY_INVALID)).

(** The slot in which a look-up of [k] ends. *)
Definition slot_of (table : list TableEntry) (k : Z) : Z :=
  match list_find (fun e => key e = k) table with
  | Some (j, _) => Z.of_nat j
  | None => 0
  end.

(** A bound on the steps thread [idx] of [kernelGet] has left when the key it
    looks for is in the slot [target]. *)
Definition get_steps_left (capacity : Z) (target : nat -> Z) (idx : nat) (l : get_pc) : nat :=
  match l with
  | GProbe h => (Z.to_nat ((target idx - h) mod capacity) + 1)%nat
  | GReturn => 0%nat
  end.

(** What holds all along a launch of [kernelGet] on the table [table0]. *)
Record get_inv (capacity : Z) (device_keys : list Z) (numKeys : Z)
    (table0 : list TableEntry) (len : nat)
    (st : (list TableEntry * list Z) * list get_pc) : Prop := {
  gi_table : st.1.1 = table0;
  gi_length : length st.1.2 = len;
  gi_active : forall i l, st.2 !! i = Some l -> l <> GReturn -> Z.of_nat i < numKeys;
  gi_probe : forall i h, st.2 !! i = Some (GProbe h) -> 0 <= h < capacity;
  gi_done : forall i, Z.of_nat i < numKeys -> st.2 !! i = Some GReturn ->
    exists v, st.1.2 !! i = Some v /\ stored table0 (device_keys !!! i) v
}.

(** ** Sequences of calls *)

(** A call of [insertBatch]: the schedules of its two kernels, the keys and
    the values ([numKeys] is the number of keys). *)
Definition batch : Type := (list nat * list nat) * (list Z * list Z).

Definition batch_keys (b : batch) : list Z := b.2.1.
Definition batch_values (b : batch) : list Z := b.2.2.

Fixpoint insertBatches (maxThreadsPerBlock : Z) (bs : list batch) (this : GpuHashTable)
  : option GpuHashTable :=
  match bs with
  | [] => Some this
  | b :: bs =>
      match insertBatch maxThreadsPerBlock b.1 this (batch_keys b) (batch_values b)
              (Z.of_nat (length (batch_keys b))) with
      | Some (this, _) => insertBatches maxThreadsPerBlock bs this
      | None => None
      end
  end.

(** The batches a caller may pass: as many values as keys, and never the
    reserved key. *)
Definition batch_ok (b : batch) : Prop :=
  length (batch_values b) = length (batch_keys b) /\
  Forall (fun k => k <> KEY_INVALID) (batch_keys b).

(** The number of pairs passed in [bs]. *)
Definition batches_size (bs : list batch) : Z :=
  Z.of_nat (length (concat (map batch_keys bs))).

(** [k] is a key of some batch of [bs]. *)
Definition inserted (bs : list batch) (k : Z) : Prop :=
  Exists (fun b => k ∈ batch_keys b) bs.

(** [v] is a value passed for [k] in the last batch of [bs] that has [k]. *)
Definition written_last (bs : list batch) (k v : Z) : Prop :=
  exists bs1 b bs2 i,
    bs = bs1 ++ b :: bs2 /\
    batch_keys b !! i = Some k /\ batch_values b !! i = Some v /\
    Forall (fun b' => k ∉ batch_keys b') bs2.

(** What a sequence of calls of [insertBatch] on a new table keeps. *)
Record history_inv (bs : list batch) (this : GpuHashTable) : Prop := {
  hi_wf : wf this;
  hi_used : used_buckets this <= batches_size bs;
  hi_stored : forall k v, k <> KEY_INVALID -> stored (table this) k v -> written_last bs k v;
  hi_inserted : forall k, inserted bs k -> k ∈ live_keys (table this)
}.

(** The state in which a launch of [kernelGet] starts. *)
Definition kernelGet_start (nBlocks nThreads : Z) (table : list TableEntry) (capacity : Z)
    (device_keys device_values : list Z) (numKeys : Z)
  : (list TableEntry * list Z) * list get_pc :=
  ((table, device_values),
   map (kernelGet_entry capacity device_keys numKeys) (grid nBlocks nThreads)).

(** ** Schedules *)

(** A schedule that lets each of the first [threads] threads of a launch
    take at least [bound] steps. *)
Definition fair (bound : nat) (threads : Z) (sched : list nat) : Prop :=
  forall idx, Z.of_nat idx < threads -> (bound <= count_occ Nat.eq_dec sched idx)%nat.

(** ** Sequences of calls, and the map they build *)

(** A call that changes the object: [insertBatch] (with the schedules of its
    two kernels; [numKeys] is the number of keys) or [reshape]. *)
Inductive call : Type :=
  | CallInsert (scheds : list nat * list nat) (keys values : list Z)
  | CallReshape (sched : list nat) (numBucketsReshape : Z).

Definition do_call (maxThreadsPerBlock : Z) (this : GpuHashTable) (c : call)
  : option GpuHashTable :=
  match c with
  | CallInsert scheds keys values =>
      fst <$> insertBatch maxThreadsPerBlock scheds this keys values (Z.of_nat (length keys))
  | CallReshape sched numBucketsReshape =>
      reshape maxThreadsPerBlock sched this numBucketsReshape
  end.

Fixpoint do_calls (maxThreadsPerBlock : Z) (cs : list call) (this : GpuHashTable)
  : option GpuHashTable :=
  match cs with
  | [] => Some this
  | c :: cs =>
      match do_call maxThreadsPerBlock this c with
      | Some this => do_calls maxThreadsPerBlock cs this
      | None => None
      end
  end.

(** What the calls do to a finite map from keys to values: a batch
    overrides the map with its pairs, and a resize leaves it as it is. *)
Definition map_call (m : gmap Z Z) (c : call) : gmap Z Z :=
  match c with
  | CallInsert _ keys values => list_to_map (zip keys values) ∪ m
  | CallReshape _ _ => m
  end.

Definition map_calls (cs : list call) (m : gmap Z Z) : gmap Z Z := foldl map_call m cs.

(** The calls a caller may make when the object holds the map [m]: batches
    of distinct keys other than the reserved one, with as many values, and
    resizes with room for the keys (at most 10^9 keys in all, so that no
    32-bit counter wraps). *)
Definition call_ok (m : gmap Z Z) (c : call) : Prop :=
  match c with
  | CallInsert _ keys values =>
      keys <> [] /\ NoDup keys /\ Forall (fun k => k <> KEY_INVALID) keys /\
      length values = length keys /\
      Z.of_nat (size m) + Z.of_nat (length keys) <= 1000000000
  | CallReshape _ numBucketsReshape =>
      Z.of_nat (size m) <= numBucketsReshape /\ 0 < numBucketsReshape < 2147483648
  end.

Fixpoint calls_ok (m : gmap Z Z) (cs : list call) : Prop :=
  match cs with
  | [] => True
  | c :: cs => call_ok m c /\ calls_ok (map_call m c) cs
  end.

(** The object holds the map [m]: it is well formed, and its slots hold
    exactly the pairs of [m]. *)
Record refines (this : GpuHashTable) (m : gmap Z Z) : Prop := {
  rf_wf : wf this;
  rf_content : forall k v, k <> KEY_INVALID ->
    (stored (table this) k v <-> m !! k = Some v);
  rf_valid : m !! KEY_INVALID = None
}.


(** * Arithmetic of the load-factor test *)

Lemma wrap32_small x : 0 <= x < uint32_max -> wrap32 x = x.
Proof. intros H. unfold wrap32. apply Z.mod_small. exact H. Qed.

Lemma wrap32_range x : 0 <= wrap32 x < uint32_max.
Proof. unfold wrap32, uint32_max. apply Z.mod_pos_bound. lia. Qed.

Lemma round_half_even_spec n d :
  0 < d ->
  2 * n - d <= 2 * d * round_half_even n d <= 2 * n + d.
Proof.
  intros Hd. unfold round_half_even.
  pose proof (Z.div_mod n d ltac:(lia)) as Hdm.
  pose proof (Z.mod_pos_bound n d Hd) as Hr.
  destruct (2 * (n mod d) <? d) eqn:H1; [apply Z.ltb_lt in H1; nia|].
  apply Z.ltb_ge in H1.
  destruct (d <? 2 * (n mod d)) eqn:H2; [apply Z.ltb_lt in H2; nia|].
  apply Z.ltb_ge in H2.
  destruct (Z.even (n / d)); nia.
Qed.

Lemma round_half_even_exact k d : 0 < d -> round_half_even (k * d) d = k.
Proof.
  intros Hd. unfold round_half_even.
  rewrite Z.mod_mul by lia. rewrite Z.div_mul by lia.
  destruct (2 * 0 <? d) eqn:H; [reflexivity|]. apply Z.ltb_ge in H. lia.
Qed.

(** Rounding passes an odd integer [M] exactly when the fraction reaches the
    midpoint above it: the tie goes to the even neighbour [M + 1]. *)
Lemma round_half_even_gt_odd n d M :
  0 < d -> Z.odd M = true ->
  (M < round_half_even n d <-> (2 * M + 1) * d <= 2 * n).
Proof.
  intros Hd HM. unfold round_half_even.
  pose proof (Z.div_mod n d ltac:(lia)) as Hdm.
  pose proof (Z.mod_pos_bound n d Hd) as Hr.
  set (q := n / d) in *. set (r := n mod d) in *.
  destruct (2 * r <? d) eqn:H1.
  { apply Z.ltb_lt in H1. split; intros; nia. }
  apply Z.ltb_ge in H1.
  destruct (d <? 2 * r) eqn:H2.
  { apply Z.ltb_lt in H2. split; intros; nia. }
  apply Z.ltb_ge in H2.
  assert (Hr2 : 2 * r = d) by lia.
  destruct (Z.even q) eqn:Hq.
  - assert (q <> M).
    { intros ->. rewrite <- Z.negb_odd in Hq. rewrite HM in Hq. discriminate. }
    split; intros; nia.
  - split; intros; nia.
Qed.

Lemma pow2_pos e : 0 <= e -> 0 < 2 ^ e.
Proof. intros. apply Z.pow_pos_nonneg; lia. Qed.

Lemma pow2_succ e : 0 <= e -> 2 ^ (e + 1) = 2 * 2 ^ e.
Proof. intros. rewrite Z.pow_add_r by lia. lia. Qed.

Lemma pow2_le_mono a b : 0 <= a <= b -> 2 ^ a <= 2 ^ b.
Proof. intros. apply Z.pow_le_mono_r; lia. Qed.

Lemma floor_log2_ratio_spec n d :
  0 < n -> 0 < d ->
  let p := floor_log2_ratio n d in
  (0 <= p /\ d * 2 ^ p <= n < d * 2 ^ (p + 1)) \/
  (p < 0 /\ d <= n * 2 ^ (- p) /\ n * 2 ^ (- p) < 2 * d).
Proof.
  intros Hn Hd. unfold floor_log2_ratio.
  pose proof (Z.log2_spec n Hn) as [Hn1 Hn2].
  pose proof (Z.log2_spec d Hd) as [Hd1 Hd2].
  pose proof (Z.log2_nonneg n) as Ha. pose proof (Z.log2_nonneg d) as Hb.
  set (a := Z.log2 n) in *. set (b := Z.log2 d) in *.
  replace (Z.succ a) with (a + 1) in Hn2 by lia.
  replace (Z.succ b) with (b + 1) in Hd2 by lia.
  rewrite pow2_succ in Hn2, Hd2 by lia.
  pose proof (pow2_pos a Ha) as HA. pose proof (pow2_pos b Hb) as HB.
  destruct (0 <=? a - b) eqn:Hl.
  - apply Z.leb_le in Hl.
    assert (Hab : 2 ^ a = 2 ^ (a - b) * 2 ^ b).
    { rewrite <- Z.pow_add_r by lia. f_equal. lia. }
    pose proof (pow2_pos (a - b) Hl) as HL.
    set (L := 2 ^ (a - b)) in *.
    destruct (d * L <=? n) eqn:Ht.
    + apply Z.leb_le in Ht. left. split; [lia|].
      rewrite pow2_succ by lia. fold L. split; [lia|]. nia.
    + apply Z.leb_gt in Ht.
      destruct (Z.eq_dec (a - b) 0) as [E|E].
      * right. split; [lia|].
        replace (- (a - b - 1)) with 1 by lia. change (2 ^ 1) with 2.
        assert (L = 1) by (subst L; rewrite E; reflexivity). nia.
      * left. split; [lia|].
        replace (a - b - 1 + 1) with (a - b) by lia. fold L.
        assert (HL' : L = 2 * 2 ^ (a - b - 1)).
        { subst L. rewrite <- pow2_succ by lia. f_equal. lia. }
        pose proof (pow2_pos (a - b - 1) ltac:(lia)).
        split; [nia|lia].
  - apply Z.leb_gt in Hl.
    assert (Hab : 2 ^ b = 2 ^ (- (a - b)) * 2 ^ a).
    { rewrite <- Z.pow_add_r by lia. f_equal. lia. }
    pose proof (pow2_pos (- (a - b)) ltac:(lia)) as HL.
    set (L := 2 ^ (- (a - b))) in *.
    destruct (d <=? n * L) eqn:Ht.
    + apply Z.leb_le in Ht. right. split; [lia|]. fold L. split; [lia|]. nia.
    + apply Z.leb_gt in Ht. right. split; [lia|].
      replace (- (a - b - 1)) with (- (a - b) + 1) by lia.
      rewrite pow2_succ by lia. fold L. split; nia.
Qed.

(** The single precision quotient exceeds [0.8f] exactly when the exact
    quotient reaches the midpoint between [0.8f] and the next float,
    [26843547 / 2^25]. *)
Lemma round_to_float32_gt_max n d :
  0 < n -> 0 < d ->
  (float32_gt (round_to_float32 n d) MAX_LOAD_FACTOR = true
   <-> 26843547 * d <= 33554432 * n).
Proof.
  intros Hn Hd. unfold round_to_float32.
  pose proof (floor_log2_ratio_spec n d Hn Hd) as Hp. cbv zeta in Hp.
  set (p := floor_log2_ratio n d) in *.
  destruct (0 <=? p - 23) eqn:He.
  - apply Z.leb_le in He. destruct Hp as [[_ [Hp _]]|[Hp _]]; [|lia].
    assert (H2p : 2 ^ p = 8388608 * 2 ^ (p - 23)).
    { change 8388608 with (2 ^ 23). rewrite <- Z.pow_add_r by lia. f_equal. lia. }
    pose proof (pow2_pos (p - 23) He) as HE.
    set (E := 2 ^ (p - 23)) in *.
    pose proof (round_half_even_spec n (d * E) ltac:(nia)) as [Hm _].
    set (m := round_half_even n (d * E)) in *.
    assert (8388608 <= m) by nia.
    unfold float32_gt, MAX_LOAD_FACTOR. rewrite Z.ltb_lt. split; intros; nia.
  - apply Z.leb_gt in He.
    pose proof (pow2_pos (- (p - 23)) ltac:(lia)) as HE.
    pose proof (round_half_even_spec (n * 2 ^ (- (p - 23))) d Hd) as [Hm1 Hm2].
    unfold float32_gt, MAX_LOAD_FACTOR. rewrite Z.ltb_lt.
    destruct Hp as [[Hp0 [Hp _]]|[Hp0 [Hp1 Hp2]]].
    + assert (H23 : 8388608 = 2 ^ p * 2 ^ (- (p - 23))).
      { change 8388608 with (2 ^ 23). rewrite <- Z.pow_add_r by lia. f_equal. lia. }
      pose proof (pow2_pos p Hp0) as HP.
      set (E := 2 ^ (- (p - 23))) in *. set (P := 2 ^ p) in *.
      set (m := round_half_even (n * E) d) in *.
      assert (d * 8388608 <= n * E) by nia.
      assert (8388608 <= m) by nia.
      assert (E <= 8388608) by nia.
      split; intros; nia.
    + destruct (Z.eq_dec p (-1)) as [->|Hne].
      * change (- (-1 - 23)) with 24 in *. change (- -1) with 1 in *.
        change (2 ^ 24) with 16777216 in *. change (2 ^ 1) with 2 in *.
        pose proof (round_half_even_gt_odd (n * 16777216) d 13421773 Hd eq_refl) as Hodd.
        set (m := round_half_even (n * 16777216) d) in *.
        split; intros H.
        -- assert (Hm : 13421773 < m) by lia. apply Hodd in Hm. lia.
        -- assert (13421773 < m) by (apply Hodd; lia). lia.
      * assert (HE2 : 2 ^ (- (p - 23)) = 8388608 * 2 ^ (- p)).
        { change 8388608 with (2 ^ 23). rewrite <- Z.pow_add_r by lia. f_equal. lia. }
        assert (HP4 : 2 ^ (- p) = 4 * 2 ^ (- p - 2)).
        { change 4 with (2 ^ 2). rewrite <- Z.pow_add_r by lia. f_equal. lia. }
        pose proof (pow2_pos (- p - 2) ltac:(lia)) as HQ.
        set (E := 2 ^ (- (p - 23))) in *. set (P := 2 ^ (- p)) in *.
        set (Q := 2 ^ (- p - 2)) in *.
        set (m := round_half_even (n * E) d) in *.
        assert (m <= 16777216) by nia.
        split; intros; nia.
Qed.

(** An integer [k] is rounded to an integer within [k / 2^24] of it. *)
Lemma round_to_float32_int k D :
  0 < k -> 0 < D ->
  exists N' D' v, round_to_float32 (k * D) D = FFin N' D' /\ 0 < D' /\ N' = v * D' /\
    16777216 * (v - k) <= k /\ 16777216 * (k - v) <= k.
Proof.
  intros Hk HD. unfold round_to_float32.
  pose proof (floor_log2_ratio_spec (k * D) D ltac:(nia) HD) as Hp. cbv zeta in Hp.
  set (p := floor_log2_ratio (k * D) D) in *.
  destruct Hp as [[Hp0 [Hp1 Hp2]]|[Hp0 [_ Hp2]]].
  2:{ exfalso. assert (2 ^ (- p) = 2 * 2 ^ (- p - 1)) as HP.
      { rewrite <- pow2_succ by lia. f_equal. lia. }
      pose proof (pow2_pos (- p - 1) ltac:(lia)) as HQ.
      rewrite HP in Hp2. set (Q := 2 ^ (- p - 1)) in *.
      assert (Hlt : D * (k * Q) < D * 1) by lia.
      apply Z.mul_lt_mono_pos_l in Hlt; [nia|lia]. }
  destruct (0 <=? p - 23) eqn:He.
  - apply Z.leb_le in He.
    assert (H2p : 2 ^ p = 8388608 * 2 ^ (p - 23)).
    { change 8388608 with (2 ^ 23). rewrite <- Z.pow_add_r by lia. f_equal. lia. }
    pose proof (pow2_pos (p - 23) He) as HE.
    set (E := 2 ^ (p - 23)) in *.
    pose proof (round_half_even_spec (k * D) (D * E) ltac:(nia)) as [Hm1 Hm2].
    set (m := round_half_even (k * D) (D * E)) in *.
    assert (8388608 * E <= k) by nia.
    assert (2 * k - E <= 2 * (E * m) <= 2 * k + E).
    { split; apply (Z.mul_le_mono_pos_l _ _ D HD); lia. }
    exists (m * E), 1, (m * E). repeat split; lia.
  - apply Z.leb_gt in He.
    pose proof (pow2_pos (- (p - 23)) ltac:(lia)) as HE.
    set (E := 2 ^ (- (p - 23))) in *.
    replace (k * D * E) with (k * E * D) by lia.
    rewrite round_half_even_exact by lia.
    exists (k * E), E, k. repeat split; lia.
Qed.

(** Integers with at most 24 significant bits are not changed by rounding. *)
Lemma round_to_float32_exact m j D :
  0 < m < 16777216 -> 0 <= j -> 0 < D ->
  exists N' D', round_to_float32 (m * 2 ^ j * D) D = FFin N' D' /\ 0 < D' /\
    N' = m * 2 ^ j * D'.
Proof.
  intros Hm Hj HD. unfold round_to_float32.
  pose proof (pow2_pos j Hj) as HJ.
  pose proof (floor_log2_ratio_spec (m * 2 ^ j * D) D ltac:(nia) HD) as Hp.
  cbv zeta in Hp.
  set (p := floor_log2_ratio (m * 2 ^ j * D) D) in *.
  destruct Hp as [[Hp0 [Hp1 Hp2]]|[Hp0 [_ Hp2]]].
  2:{ exfalso. assert (2 ^ (- p) = 2 * 2 ^ (- p - 1)) as HP.
      { rewrite <- pow2_succ by lia. f_equal. lia. }
      pose proof (pow2_pos (- p - 1) ltac:(lia)) as HQ.
      rewrite HP in Hp2. set (Q := 2 ^ (- p - 1)) in *.
      assert (Hlt : D * (m * 2 ^ j * Q) < D * 1) by lia.
      apply Z.mul_lt_mono_pos_l in Hlt; [nia|lia]. }
  destruct (0 <=? p - 23) eqn:He.
  - apply Z.leb_le in He.
    assert (Hje : p - 23 <= j).
    { destruct (Z.le_gt_cases (p - 23) j) as [|Hlt]; [assumption|exfalso].
      assert (H2p : 2 ^ p = 16777216 * 2 ^ j * 2 ^ (p - 24 - j)).
      { change 16777216 with (2 ^ 24). rewrite <- !Z.pow_add_r by lia. f_equal. lia. }
      pose proof (pow2_pos (p - 24 - j) ltac:(lia)). nia. }
    assert (H2j : 2 ^ j = 2 ^ (j - (p - 23)) * 2 ^ (p - 23)).
    { rewrite <- Z.pow_add_r by lia. f_equal. lia. }
    pose proof (pow2_pos (p - 23) He) as HE.
    rewrite H2j.
    set (E := 2 ^ (p - 23)) in *. set (F := 2 ^ (j - (p - 23))) in *.
    replace (m * (F * E) * D) with (m * F * (D * E)) by lia.
    rewrite round_half_even_exact by nia.
    exists (m * F * E), 1. repeat split; lia.
  - apply Z.leb_gt in He.
    pose proof (pow2_pos (- (p - 23)) ltac:(lia)) as HE.
    set (E := 2 ^ (- (p - 23))) in *.
    replace (m * 2 ^ j * D * E) with (m * 2 ^ j * E * D) by lia.
    rewrite round_half_even_exact by lia.
    exists (m * 2 ^ j * E), E. repeat split; lia.
Qed.

Lemma float_of_uint32_value x :
  0 < x ->
  exists N D, float_of_uint32 x = FFin N D /\ 0 < D /\ N = uint32_as_float x * D /\
    16777216 * (uint32_as_float x - x) <= x /\ 16777216 * (x - uint32_as_float x) <= x.
Proof.
  intros Hx. unfold uint32_as_float, float_of_uint32.
  destruct (x =? 0) eqn:E; [apply Z.eqb_eq in E; lia|].
  destruct (round_to_float32_int x 1 Hx ltac:(lia)) as (N' & D' & v & Hr & HD & HN & H1 & H2).
  rewrite Z.mul_1_r in Hr. rewrite Hr. exists N', D'.
  subst N'. rewrite Z.div_mul by lia. repeat split; lia.
Qed.

Lemma uint32_as_float_small x : 0 <= x < 16777216 -> uint32_as_float x = x.
Proof.
  intros Hx. destruct (Z.eq_dec x 0) as [->|Hne]; [reflexivity|].
  unfold uint32_as_float, float_of_uint32.
  destruct (x =? 0) eqn:E; [apply Z.eqb_eq in E; lia|].
  destruct (round_to_float32_exact x 0 1 ltac:(lia) ltac:(lia) ltac:(lia))
    as (N' & D' & Hr & HD & HN).
  change (2 ^ 0) with 1 in *. rewrite !Z.mul_1_r in Hr. rewrite Hr.
  subst N'. rewrite Z.mul_1_r. apply Z.div_mul. lia.
Qed.

(** The test of [insertBatch]: the table is resized exactly when the
    quotient of the two converted integers reaches [26843547 / 2^25]. *)
Lemma loadFactor_gt_max a b :
  0 < a -> 0 < b ->
  (float32_gt (loadFactor a b) MAX_LOAD_FACTOR = true
   <-> 26843547 * uint32_as_float b <= 33554432 * uint32_as_float a).
Proof.
  intros Ha Hb. unfold loadFactor.
  destruct (float_of_uint32_value a Ha) as (Na & Da & Hfa & HDa & HNa & Ha1 & Ha2).
  destruct (float_of_uint32_value b Hb) as (Nb & Db & Hfb & HDb & HNb & Hb1 & Hb2).
  rewrite Hfa, Hfb. unfold float32_div.
  set (fa := uint32_as_float a) in *. set (fb := uint32_as_float b) in *.
  assert (0 < fa) by lia. assert (0 < fb) by lia.
  destruct (Nb =? 0) eqn:E1; [apply Z.eqb_eq in E1; nia|].
  destruct (Na =? 0) eqn:E2; [apply Z.eqb_eq in E2; nia|].
  rewrite round_to_float32_gt_max by nia.
  subst Na Nb. split; intros; nia.
Qed.

Lemma loadFactor_gt_max_zero a :
  0 < a -> float32_gt (loadFactor a 0) MAX_LOAD_FACTOR = true.
Proof.
  intros Ha. unfold loadFactor.
  destruct (float_of_uint32_value a Ha) as (Na & Da & Hfa & HDa & HNa & Ha1 & Ha2).
  rewrite Hfa. change (float_of_uint32 0) with (FFin 0 1). cbn.
  destruct (Na =? 0) eqn:E2; [apply Z.eqb_eq in E2; nia|]. reflexivity.
Qed.

(** Without a resize the batch fits, also beyond the integers that single
    precision represents exactly. *)
Lemma no_resize_room a b :
  0 < a -> 0 < b ->
  float32_gt (loadFactor a b) MAX_LOAD_FACTOR = false ->
  4194304 * (5 * a - 4 * b) < 5 * b.
Proof.
  intros Ha Hb Hgt.
  destruct (float_of_uint32_value a Ha) as (Na & Da & Hfa & HDa & HNa & Ha1 & Ha2).
  destruct (float_of_uint32_value b Hb) as (Nb & Db & Hfb & HDb & HNb & Hb1 & Hb2).
  assert (H : ~ 26843547 * uint32_as_float b <= 33554432 * uint32_as_float a).
  { intros H. apply loadFactor_gt_max in H; [congruence|lia|lia]. }
  lia.
Qed.

(** The capacity asked for by [insertBatch]. *)
Lemma new_capacity_spec a :
  0 < a <= 1000000000 ->
  exists c,
    int_of_float32 (float32_div (float_of_uint32 a) MIN_LOAD_FACTOR) = Some c /\
    a < c < 2147483648 /\ 4194304 * (c - 2 * a) <= a /\ 4194304 * (2 * a - c) <= a /\
    (a < 16777216 -> c = 2 * a).
Proof.
  intros Ha.
  destruct (float_of_uint32_value a ltac:(lia)) as (Na & Da & Hfa & HDa & HNa & Ha1 & Ha2).
  rewrite Hfa. unfold float32_div, MIN_LOAD_FACTOR.
  set (fa := uint32_as_float a) in *.
  assert (0 < fa) by lia.
  change (1 =? 0) with false. cbv iota.
  destruct (Na =? 0) eqn:E2; [apply Z.eqb_eq in E2; nia|].
  subst Na. rewrite Z.mul_1_r.
  replace (fa * Da * 2) with (2 * fa * Da) by lia.
  destruct (Z_lt_le_dec a 16777216) as [Hs|Hs].
  - assert (fa = a) by (apply uint32_as_float_small; lia). subst fa.
    destruct (round_to_float32_exact a 1 Da ltac:(lia) ltac:(lia) HDa)
      as (N' & D' & Hr & HD' & HN').
    change (2 ^ 1) with 2 in *.
    replace (2 * uint32_as_float a * Da) with (a * 2 * Da) by lia.
    rewrite Hr. subst N'. unfold int_of_float32. rewrite Z.div_mul by lia.
    destruct (a * 2 <? 2147483648) eqn:E; [|apply Z.ltb_ge in E; lia].
    exists (a * 2). repeat split; lia.
  - destruct (round_to_float32_int (2 * fa) Da ltac:(lia) HDa)
      as (N' & D' & v & Hr & HD' & HN' & H1 & H2).
    rewrite Hr. subst N'. unfold int_of_float32. rewrite Z.div_mul by lia.
    destruct (v <? 2147483648) eqn:E; [|apply Z.ltb_ge in E; lia].
    exists v. repeat split; lia.
Qed.

(** The test fails below the band of the rounding around 8/10. *)
Lemma loadFactor_le_max a b :
  0 < a -> 0 < b -> 4194304 * (4 * b - 5 * a) >= 5 * b ->
  float32_gt (loadFactor a b) MAX_LOAD_FACTOR = false.
Proof.
  intros Ha Hb Hlow.
  destruct (float32_gt (loadFactor a b) MAX_LOAD_FACTOR) eqn:Hgt; [|reflexivity].
  exfalso. apply loadFactor_gt_max in Hgt; [|exact Ha|exact Hb].
  destruct (float_of_uint32_value a Ha) as (Na & Da & _ & _ & _ & Ha1 & _).
  destruct (float_of_uint32_value b Hb) as (Nb & Db & _ & _ & _ & _ & Hb2).
  lia.
Qed.


(** * Executions of a launch *)

Lemma pool_sum_insert {L : Type} (w : nat -> L -> nat) (pool : list L) :
  forall i0 i l l',
    pool !! i = Some l ->
    (pool_sum w i0 (<[i := l']> pool) + w (i0 + i)%nat l
     = pool_sum w i0 pool + w (i0 + i)%nat l')%nat.
Proof.
  induction pool as [|x pool IH]; intros i0 i l l' Hl; [discriminate|].
  destruct i as [|i].
  - cbn in *. inversion Hl; subst. rewrite Nat.add_0_r. lia.
  - change (<[S i:=l']> (x :: pool)) with (x :: <[i:=l']> pool).
    cbn [pool_sum]. specialize (IH (S i0) i l l' Hl).
    replace (i0 + S i)%nat with (S i0 + i)%nat by lia. lia.
Qed.

Lemma pool_sum_zero {L : Type} (w : nat -> L -> nat) (pool : list L) :
  forall i0, pool_sum w i0 pool = 0%nat ->
  forall i l, pool !! i = Some l -> w (i0 + i)%nat l = 0%nat.
Proof.
  induction pool as [|x pool IH]; intros i0 Ht i l Hl; [discriminate|].
  cbn in Ht. destruct i as [|i]; cbn in Hl.
  - inversion Hl; subst. rewrite Nat.add_0_r. lia.
  - replace (i0 + S i)%nat with (S i0 + i)%nat by lia. apply IH; [lia|assumption].
Qed.

Section LaunchFacts.
Context {M L : Type}.
Variable thread : nat -> L -> M -> M * L.
Variable returned : L -> bool.

Lemma step_some m pool idx l :
  pool !! idx = Some l ->
  step thread (m, pool) idx = ((thread idx l m).1, <[idx := (thread idx l m).2]> pool).
Proof. intros H. unfold step. cbn. rewrite H. destruct (thread idx l m). reflexivity. Qed.

Lemma step_none m pool idx :
  pool !! idx = None -> step thread (m, pool) idx = (m, pool).
Proof. intros H. unfold step. cbn. rewrite H. reflexivity. Qed.

Lemma run_cons idx sched st :
  run thread (idx :: sched) st = run thread sched (step thread st idx).
Proof. reflexivity. Qed.

Lemma run_app s1 s2 st :
  run thread (s1 ++ s2) st = run thread s2 (run thread s1 st).
Proof. unfold run. apply foldl_app. Qed.

(** A property kept by every step holds all along every schedule. *)
Lemma run_invariant (Inv : M * list L -> Prop) :
  (forall st idx, Inv st -> Inv (step thread st idx)) ->
  forall sched st, Inv st -> Inv (run thread sched st).
Proof.
  intros Hstep sched. induction sched as [|idx sched IH]; intros st Hst; [exact Hst|].
  rewrite run_cons. apply IH, Hstep, Hst.
Qed.

Lemma step_pool_length st idx : length (step thread st idx).2 = length st.2.
Proof.
  unfold step. destruct (st.2 !! idx); [|reflexivity].
  destruct (thread idx l st.1). cbn. apply length_insert.
Qed.

Lemma run_pool_length sched st : length (run thread sched st).2 = length st.2.
Proof.
  revert st. induction sched as [|idx sched IH]; intros st; [reflexivity|].
  rewrite run_cons, IH. apply step_pool_length.
Qed.

(** Threads that have returned do nothing. *)
Lemma run_all_returned sched m pool :
  (forall idx l m, returned l = true -> thread idx l m = (m, l)) ->
  (forall idx l, pool !! idx = Some l -> returned l = true) ->
  run thread sched (m, pool) = (m, pool).
Proof.
  intros Hret Hall. induction sched as [|idx sched IH]; [reflexivity|].
  rewrite run_cons. destruct (pool !! idx) as [l|] eqn:Hl.
  - rewrite (step_some _ _ _ _ Hl), (Hret idx l m (Hall idx l Hl)). cbn.
    rewrite list_insert_id by exact Hl. exact IH.
  - rewrite step_none by exact Hl. exact IH.
Qed.

Lemma synchronize_some (st : M * list L) (m : M) :
  synchronize returned st = Some m <->
  m = st.1 /\ forall idx l, st.2 !! idx = Some l -> returned l = true.
Proof.
  unfold synchronize. destruct (forallb returned st.2) eqn:E.
  - rewrite forallb_forall in E. split.
    + intros [= <-]. split; [reflexivity|]. intros idx l Hl. apply E.
      apply list_elem_of_In. eapply list_elem_of_lookup_2, Hl.
    + intros [-> _]. reflexivity.
  - split; [discriminate|]. intros [_ H]. exfalso.
    assert (forallb returned st.2 = true); [|congruence].
    apply forallb_forall. intros l Hl. apply list_elem_of_In in Hl.
    apply list_elem_of_lookup_1 in Hl as [idx Hl]. eapply H, Hl.
Qed.

(** When every step of a running thread brings it closer to its return,
    some schedule lets all the threads return. *)
Lemma run_complete (Inv : M * list L -> Prop) (left : nat -> L -> nat) :
  (forall st idx, Inv st -> Inv (step thread st idx)) ->
  (forall idx l, returned l = false -> left idx l <> 0%nat) ->
  (forall m pool idx l, Inv (m, pool) -> pool !! idx = Some l ->
     returned l = false -> (left idx (thread idx l m).2 < left idx l)%nat) ->
  forall st, Inv st ->
    exists sched m, synchronize returned (run thread sched st) = Some m.
Proof.
  intros Hinv Hpos Hdec st.
  remember (pool_sum left 0 st.2) as n eqn:Hn.
  revert st Hn. induction n as [n IH] using lt_wf_ind. intros [m pool] Hn HI.
  cbn in Hn.
  destruct (forallb returned pool) eqn:E.
  - exists [], m. cbn. unfold synchronize. cbn. rewrite E. reflexivity.
  - assert (exists idx l, pool !! idx = Some l /\ returned l = false) as (idx & l & Hl & Hr).
    { clear -E. induction pool as [|x pool IH]; [discriminate|]. cbn in E.
      destruct (returned x) eqn:Ex.
      - cbn in E. destruct (IH E) as (idx & l & Hl & Hr). exists (S idx), l. auto.
      - exists 0%nat, x. auto. }
    pose proof (Hdec m pool idx l HI Hl Hr) as Hlt.
    pose proof (pool_sum_insert left pool 0 idx l (thread idx l m).2 Hl) as Ht.
    cbn in Ht.
    destruct (IH (pool_sum left 0 (<[idx := (thread idx l m).2]> pool)) ltac:(lia)
                (step thread (m, pool) idx)) as (sched & m' & Hs).
    + rewrite (step_some _ _ _ _ Hl). reflexivity.
    + apply Hinv, HI.
    + exists (idx :: sched), m'. rewrite run_cons. exact Hs.
Qed.
(** A thread whose steps bring it closer to its return does return when it
    is scheduled often enough, whatever the other threads do. *)
Lemma run_thread_complete (Inv : M * list L -> Prop) (left : L -> nat) idx :
  (forall st i, Inv st -> Inv (step thread st i)) ->
  (forall m pool l, Inv (m, pool) -> pool !! idx = Some l ->
     returned l = false -> (left (thread idx l m).2 < left l)%nat) ->
  forall st, Inv st -> is_Some (st.2 !! idx) ->
    exists n l, (run thread (replicate n idx) st).2 !! idx = Some l /\ returned l = true.
Proof.
  intros Hinv Hdec st HI [l Hl].
  remember (left l) as k eqn:Hk.
  revert st l HI Hl Hk. induction k as [k IH] using lt_wf_ind.
  intros [m pool] l HI Hl Hk. cbn [snd] in Hl.
  destruct (returned l) eqn:Hr.
  - exists 0%nat, l. auto.
  - pose proof (Hdec m pool l HI Hl Hr) as Hlt.
    destruct (IH (left (thread idx l m).2) ltac:(lia) (step thread (m, pool) idx)
                (thread idx l m).2) as (n & l' & Hn & Hr').
    + apply Hinv, HI.
    + rewrite (step_some _ _ _ _ Hl). cbn [snd].
      apply list_lookup_insert_eq. eapply lookup_lt_Some, Hl.
    + reflexivity.
    + exists (S n), l'. cbn [replicate]. rewrite run_cons. auto.
Qed.
End LaunchFacts.

(** * Arrays of slots *)

Lemma live_keys_app (t1 t2 : list TableEntry) :
  live_keys (t1 ++ t2) = live_keys t1 ++ live_keys t2.
Proof. unfold live_keys. rewrite fmap_app, list.filter_app. reflexivity. Qed.

Lemma live_keys_cons e (t : list TableEntry) :
  live_keys (e :: t) =
  if decide (key e <> KEY_INVALID) then key e :: live_keys t else live_keys t.
Proof. unfold live_keys. cbn. unfold filter at 1. cbn. reflexivity. Qed.

Lemma list_split_at {A} (l : list A) i x :
  l !! i = Some x -> l = take i l ++ x :: drop (S i) l.
Proof. intros H. symmetry. apply take_drop_middle, H. Qed.

Lemma live_insert (t : list TableEntry) i e e' :
  t !! i = Some e ->
  live (<[i := e']> t) =
  live t - (if decide (key e <> KEY_INVALID) then 1 else 0)
         + (if decide (key e' <> KEY_INVALID) then 1 else 0).
Proof.
  intros H. unfold live.
  rewrite insert_take_drop by (eapply lookup_lt_Some, H).
  rewrite (list_split_at t i e H) at 3.
  rewrite !live_keys_app, !live_keys_cons, !length_app.
  repeat case_decide; cbn [length]; lia.
Qed.

Lemma live_insert_same_key (t : list TableEntry) i e e' :
  t !! i = Some e -> key e' = key e -> live_keys (<[i := e']> t) = live_keys t.
Proof.
  intros H Hk.
  rewrite insert_take_drop by (eapply lookup_lt_Some, H).
  rewrite (list_split_at t i e H) at 3.
  rewrite !live_keys_app, !live_keys_cons, Hk. reflexivity.
Qed.

Lemma store_value_lookup t h v i :
  store_value t h v !! i =
  if decide (i = Z.to_nat h)
  then (fun e => {| key := key e; value := v |}) <$> t !! i
  else t !! i.
Proof.
  unfold store_value. rewrite list_lookup_alter.
  repeat case_decide; subst; try congruence.
Qed.

Lemma store_value_length t h v : length (store_value t h v) = length t.
Proof. unfold store_value. apply length_alter. Qed.

Lemma store_value_live_keys t h v : live_keys (store_value t h v) = live_keys t.
Proof.
  unfold store_value.
  destruct (t !! Z.to_nat h) as [e|] eqn:E.
  - assert (alter (fun e => {| key := key e; value := v |}) (Z.to_nat h) t
            = <[Z.to_nat h := {| key := key e; value := v |}]> t) as ->.
    { apply list_eq. intros i. destruct (decide (i = Z.to_nat h)) as [->|Hne].
      - rewrite list_lookup_alter_eq, E. cbn.
        rewrite list_lookup_insert_eq; [reflexivity|eapply lookup_lt_Some, E].
      - rewrite list_lookup_alter_ne, list_lookup_insert_ne by congruence. reflexivity. }
    eapply live_insert_same_key; [exact E|reflexivity].
  - f_equal. apply list_eq. intros i. destruct (decide (i = Z.to_nat h)) as [->|Hne].
    + rewrite list_lookup_alter_eq, E. reflexivity.
    + rewrite list_lookup_alter_ne by congruence. reflexivity.
Qed.

Lemma live_keys_elem t k :
  k ∈ live_keys t <-> k <> KEY_INVALID /\ exists i e, t !! i = Some e /\ key e = k.
Proof.
  unfold live_keys. rewrite list_elem_of_filter, list_elem_of_fmap. split.
  - intros [Hk (e & -> & He)]. split; [exact Hk|].
    apply list_elem_of_lookup_1 in He as [i Hi]. eauto.
  - intros [Hk (i & e & Hi & <-)]. split; [exact Hk|].
    exists e. split; [reflexivity|]. eapply list_elem_of_lookup_2, Hi.
Qed.

Lemma live_all_occupied (t : list TableEntry) :
  (forall i e, t !! i = Some e -> key e <> KEY_INVALID) ->
  live t = Z.of_nat (length t).
Proof.
  intros H. unfold live. f_equal.
  induction t as [|e t IH]; [reflexivity|].
  rewrite live_keys_cons. rewrite decide_True by (apply (H 0%nat e); reflexivity).
  cbn. f_equal. apply IH. intros i e' Hi. apply (H (S i) e'). exact Hi.
Qed.

Lemma live_le_length (t : list TableEntry) : 0 <= live t <= Z.of_nat (length t).
Proof.
  unfold live, live_keys. split; [lia|].
  apply inj_le. etransitivity; [apply length_filter|]. rewrite length_fmap. lia.
Qed.

Lemma live_memset n : live (cudaMemset_table KEY_INVALID n) = 0.
Proof.
  unfold cudaMemset_table, live.
  change (memset_word KEY_INVALID) with KEY_INVALID.
  induction (Z.to_nat n) as [|k IH]; [reflexivity|].
  cbn [replicate]. rewrite live_keys_cons. rewrite decide_False; [exact IH|].
  cbn. intros H. apply H. reflexivity.
Qed.

Lemma memset_lookup n i e :
  cudaMemset_table KEY_INVALID n !! i = Some e ->
  e = {| key := KEY_INVALID; value := KEY_INVALID |}.
Proof.
  unfold cudaMemset_table. intros H. apply lookup_replicate in H as [-> _]. reflexivity.
Qed.

Lemma memset_length n : 0 <= n -> Z.of_nat (length (cudaMemset_table KEY_INVALID n)) = n.
Proof. intros. unfold cudaMemset_table. rewrite length_replicate. lia. Qed.


(** * Probe sequences *)

Lemma mod_cases x c :
  0 < c -> - c <= x < 2 * c ->
  (x < 0 -> x mod c = x + c) /\ (0 <= x < c -> x mod c = x) /\
  (c <= x -> x mod c = x - c).
Proof.
  intros Hc Hx. repeat split; intros H.
  - symmetry. apply (Z.mod_unique_pos x c (-1)); lia.
  - apply Z.mod_small. lia.
  - symmetry. apply (Z.mod_unique_pos x c 1); lia.
Qed.

Ltac mod_cases_of x c :=
  let H1 := fresh "Hm" in let H2 := fresh "Hm" in let H3 := fresh "Hm" in
  destruct (mod_cases x c) as (H1 & H2 & H3); [lia|lia|].

Section Offsets.
Variables (capacity k : Z).
Hypothesis capacity_pos : 0 < capacity.

Let home := hashFunc k mod capacity.

Lemma home_range : 0 <= home < capacity.
Proof. apply Z.mod_pos_bound. exact capacity_pos. Qed.

Lemma offset_range h : 0 <= offset capacity k h < capacity.
Proof. apply Z.mod_pos_bound. exact capacity_pos. Qed.

Lemma offset_home : offset capacity k home = 0.
Proof. unfold offset. fold home. rewrite Z.sub_diag. apply Z.mod_0_l. lia. Qed.

Lemma offset_inj h h' :
  0 <= h < capacity -> 0 <= h' < capacity ->
  offset capacity k h = offset capacity k h' -> h = h'.
Proof.
  pose proof home_range. unfold offset. fold home. intros Hh Hh' E.
  mod_cases_of (h - home) capacity. mod_cases_of (h' - home) capacity. lia.
Qed.

Lemma next_range h : 0 <= h < capacity -> 0 <= (h + 1) mod capacity < capacity.
Proof. intros. apply Z.mod_pos_bound. exact capacity_pos. Qed.

Lemma offset_next h :
  0 <= h < capacity -> (h + 1) mod capacity <> home ->
  offset capacity k ((h + 1) mod capacity) = offset capacity k h + 1.
Proof.
  pose proof home_range. unfold offset. fold home. intros Hh Hne.
  mod_cases_of (h + 1) capacity.
  mod_cases_of (h - home) capacity.
  mod_cases_of ((h + 1) mod capacity - home) capacity. lia.
Qed.

Lemma offset_last h :
  0 <= h < capacity -> (h + 1) mod capacity = home ->
  offset capacity k h = capacity - 1.
Proof.
  pose proof home_range. unfold offset. fold home. intros Hh He.
  mod_cases_of (h + 1) capacity.
  mod_cases_of (h - home) capacity. lia.
Qed.
End Offsets.

(** * One step of the probing loop *)

Lemma keys_of_lookup t j k :
  keys_of t !! j = Some k <-> exists e, t !! j = Some e /\ key e = k.
Proof.
  unfold keys_of. rewrite list_lookup_fmap. destruct (t !! j) as [e|]; cbn.
  - split; [intros [= <-]; eauto|intros (e' & [= <-] & <-); reflexivity].
  - split; [discriminate|intros (e' & [=] & _)].
Qed.

Lemma keys_of_length t : length (keys_of t) = length t.
Proof. apply length_fmap. Qed.

Lemma keys_of_store_value t h v : keys_of (store_value t h v) = keys_of t.
Proof.
  apply list_eq. intros j. unfold keys_of.
  rewrite !list_lookup_fmap, store_value_lookup.
  case_decide; [|reflexivity]. destruct (t !! j); reflexivity.
Qed.

Lemma keys_of_insert t j e :
  keys_of (<[j := e]> t) = <[j := key e]> (keys_of t).
Proof. unfold keys_of. apply list_fmap_insert. Qed.

Lemma live_keys_of t : live_keys t = filter (fun k => k <> KEY_INVALID) (keys_of t).
Proof. reflexivity. Qed.

Lemma pool_insert_lookup {L} (pool : list L) idx l l' i x :
  pool !! idx = Some l ->
  <[idx := l']> pool !! i = Some x ->
  (i = idx /\ x = l') \/ (i <> idx /\ pool !! i = Some x).
Proof.
  intros Hl Hx. destruct (decide (idx = i)) as [->|Hne].
  - rewrite list_lookup_insert_eq in Hx by (eapply lookup_lt_Some, Hl).
    left. split; congruence.
  - rewrite list_lookup_insert_ne in Hx by exact Hne. right. split; congruence.
Qed.

Lemma pending_insert pool idx l l' :
  pool !! idx = Some l ->
  pending (<[idx := l']> pool) = pending pool - Z.of_nat (may_count l) + Z.of_nat (may_count l').
Proof.
  intros H. unfold pending.
  pose proof (pool_sum_insert (fun _ => may_count) pool 0 idx l l' H). lia.
Qed.

Lemma pending_nonneg pool : 0 <= pending pool.
Proof. unfold pending. lia. Qed.

Section Step.
Variables (update : bool) (capacity : Z) (keyof valof : nat -> Z).

(** The outcomes of one step of thread [idx]. *)
Lemma claim_thread_cases idx l t cnt :
  let r := claim_thread update capacity keyof valof idx l (t, cnt) in
  match l with
  | IProbe h =>
      (t !! Z.to_nat h = None /\ r = ((t, cnt), IProbe h)) \/
      exists e, t !! Z.to_nat h = Some e /\
        ((key e = KEY_INVALID /\
          r = ((<[Z.to_nat h := {| key := keyof idx; value := value e |}]> t, cnt),
               if update && (KEY_INVALID =? keyof idx) then ICount h else IStore h)) \/
         (key e <> KEY_INVALID /\ update = true /\ key e = keyof idx /\
          r = ((t, cnt), ICount h)) \/
         (key e <> KEY_INVALID /\ (update = true -> key e <> keyof idx) /\
          r = ((t, cnt),
               if wrap32 (h + 1) mod capacity =? hashFunc (keyof idx) mod capacity
               then IReturn else IProbe (wrap32 (h + 1) mod capacity))))
  | ICount h => r = ((t, wrap32 (cnt + 1)), IStore h)
  | IStore h => r = ((store_value t h (valof idx), cnt), IReturn)
  | IReturn => r = ((t, cnt), IReturn)
  end.
Proof.
  destruct l as [h|h|h|]; cbn; try reflexivity.
  unfold atomicCAS_key. destruct (t !! Z.to_nat h) as [e|] eqn:E; [right|left; auto].
  exists e. split; [reflexivity|].
  destruct (key e =? KEY_INVALID) eqn:E1.
  - apply Z.eqb_eq in E1. left. split; [exact E1|]. cbn. rewrite E1. reflexivity.
  - apply Z.eqb_neq in E1. right. cbn.
    destruct update; cbn.
    + destruct (key e =? keyof idx) eqn:E2.
      * apply Z.eqb_eq in E2. left. auto.
      * apply Z.eqb_neq in E2. right. auto.
    + right. split; [exact E1|]. split; [discriminate|reflexivity].
Qed.
End Step.

(** * What every launch of the probing loop keeps *)

Section Basic.
Variables (update : bool) (capacity : Z) (keyof valof : nat -> Z).
Variables (active : nat -> bool) (table0 : list TableEntry) (bound : Z).
Hypothesis bound_small : bound < uint32_max.

Let thread := claim_thread update capacity keyof valof.
Let Basic := claim_basic keyof active table0 bound.

Lemma pending_lookup pool idx l :
  pool !! idx = Some l -> Z.of_nat (may_count l) <= pending pool.
Proof.
  intros H. pose proof (pending_insert pool idx l IReturn H) as E.
  pose proof (pending_nonneg (<[idx := IReturn]> pool)). cbn in E. lia.
Qed.

Lemma claim_basic_update t cnt pool idx l t' cnt' l' :
  Basic ((t, cnt), pool) ->
  pool !! idx = Some l ->
  length t' = length t ->
  (l = IReturn -> l' = IReturn) ->
  (forall j k, keys_of t !! j = Some k -> k <> KEY_INVALID -> keys_of t' !! j = Some k) ->
  (forall h, l' = ICount h \/ l' = IStore h ->
     forall k, keys_of table0 !! Z.to_nat h = Some k -> k = KEY_INVALID \/ k = keyof idx) ->
  (forall j e, table0 !! j = Some e -> key e <> KEY_INVALID ->
     (forall i, active i = true -> keyof i <> key e) ->
     t !! j = Some e -> t' !! j = Some e) ->
  (forall j k, keys_of t' !! j = Some k ->
     keys_of t !! j = Some k \/ exists i, active i = true /\ keyof i = k) ->
  (cnt <= cnt' /\ cnt' + Z.of_nat (may_count l') <= cnt + Z.of_nat (may_count l)) ->
  Basic ((t', cnt'), <[idx := l']> pool).
Proof.
  intros [Hlen Hact Hkeys Hhold Hframe Horig Hcnt] Hl Hlen' Hret Hmono Hh' Hfr Hor Hc.
  cbn [fst snd] in *. split; cbn [fst snd].
  - congruence.
  - intros i x Hx Hne.
    destruct (pool_insert_lookup _ _ _ _ _ _ Hl Hx) as [[-> ->]|[_ Hi]].
    + apply (Hact idx l Hl). intros ->. apply Hne, Hret. reflexivity.
    + eapply Hact; eassumption.
  - intros j k Hj Hk. apply Hmono; [|exact Hk]. apply Hkeys; assumption.
  - intros i h Hi k Hk.
    destruct Hi as [Hi|Hi];
      destruct (pool_insert_lookup _ _ _ _ _ _ Hl Hi) as [[-> E]|[_ Hi']].
    + eapply Hh'; [left; symmetry; exact E|exact Hk].
    + eapply Hhold; [left; exact Hi'|exact Hk].
    + eapply Hh'; [right; symmetry; exact E|exact Hk].
    + eapply Hhold; [right; exact Hi'|exact Hk].
  - intros j e Hj Hk Hno. apply (Hfr j e Hj Hk Hno). apply Hframe; assumption.
  - intros j k Hj. destruct (Hor j k Hj) as [Hj'|Hnew]; [|auto].
    apply Horig, Hj'.
  - rewrite (pending_insert _ _ _ _ Hl). lia.
Qed.

Lemma claim_basic_step st idx : Basic st -> Basic (step thread st idx).
Proof.
  destruct st as [[t cnt] pool]. intros HB.
  destruct (pool !! idx) as [l|] eqn:Hl; [|rewrite step_none; assumption].
  rewrite (step_some _ _ _ _ _ Hl).
  pose proof (claim_thread_cases update capacity keyof valof idx l t cnt) as Hc.
  cbv zeta in Hc. fold thread in Hc.
  pose proof HB as [Hlen Hact Hkeys Hhold Hframe Horig Hcnt]. cbn [fst snd] in *.
  destruct l as [h|h|h|].
  - (* atomicCAS *)
    assert (Hactive : active idx = true) by (eapply Hact; [exact Hl|discriminate]).
    destruct Hc as [[_ ->]|(e & He & [[Hk ->]|[(Hk & _ & Hk' & ->)|(Hk & _ & ->)]])]; cbn [fst snd].
    + rewrite list_insert_id by exact Hl. exact HB.
    + (* the slot is claimed *)
      assert (Hke : keys_of t !! Z.to_nat h = Some KEY_INVALID).
      { apply keys_of_lookup. eauto. }
      eapply claim_basic_update; try eassumption.
      * apply length_insert.
      * discriminate.
      * intros j k Hj Hkk. rewrite keys_of_insert.
        destruct (decide (Z.to_nat h = j)) as [<-|Hne]; [congruence|].
        rewrite list_lookup_insert_ne by exact Hne. exact Hj.
      * intros h' Hh' k Hk0.
        assert (h' = h) as -> by (destruct (update && _), Hh'; congruence).
        destruct (decide (k = KEY_INVALID)) as [|Hne]; [auto|].
        pose proof (Hkeys _ _ Hk0 Hne). congruence.
      * intros j e0 Hj Hk0 _ Hj'.
        destruct (decide (Z.to_nat h = j)) as [<-|Hne]; [congruence|].
        rewrite list_lookup_insert_ne by exact Hne. exact Hj'.
      * intros j k. rewrite keys_of_insert.
        destruct (decide (Z.to_nat h = j)) as [<-|Hne].
        -- rewrite list_lookup_insert_eq
             by (rewrite keys_of_length; eapply lookup_lt_Some, He).
           intros [= <-]. right. eauto.
        -- rewrite list_lookup_insert_ne by exact Hne. auto.
      * destruct (update && _); cbn; lia.
    + (* the slot holds the key of the thread *)
      eapply claim_basic_update; try eassumption; auto; try discriminate.
      * intros h' Hh' k Hk0.
        assert (h' = h) as -> by (destruct Hh'; congruence).
        destruct (decide (k = KEY_INVALID)) as [|Hne]; [auto|].
        pose proof (Hkeys _ _ Hk0 Hne) as Hk1.
        apply keys_of_lookup in Hk1 as (e' & He' & <-). right. congruence.
      * cbn. lia.
    + (* the slot holds another key *)
      eapply claim_basic_update; try eassumption; auto; try discriminate.
      * intros h' Hh'. destruct (_ =? _), Hh'; discriminate.
      * destruct (_ =? _); cbn; lia.
  - (* atomicAdd *)
    rewrite Hc. cbn [fst snd].
    pose proof (pending_lookup _ _ _ Hl) as Hp. cbn in Hp.
    rewrite wrap32_small by lia.
    eapply claim_basic_update; try eassumption; auto; try discriminate.
    + intros h' Hh'. assert (h' = h) as -> by (destruct Hh'; congruence).
      eapply Hhold. left. exact Hl.
    + cbn. lia.
  - (* store of the value *)
    rewrite Hc. cbn [fst snd].
    eapply claim_basic_update; try eassumption; auto; try discriminate.
    + apply store_value_length.
    + intros j k. rewrite keys_of_store_value. auto.
    + intros h' [?|?]; discriminate.
    + intros j e0 Hj Hk0 Hno Hj'. rewrite store_value_lookup.
      case_decide as E; [|exact Hj']. subst j. exfalso.
      assert (Hk1 : keys_of table0 !! Z.to_nat h = Some (key e0)).
      { apply keys_of_lookup. eauto. }
      destruct (Hhold idx h (or_intror Hl) _ Hk1) as [|Hk2]; [contradiction|].
      apply (Hno idx); [|congruence].
      eapply Hact; [exact Hl|discriminate].
    + intros j k. rewrite keys_of_store_value. auto.
    + cbn. lia.
  - rewrite Hc. cbn [fst snd]. rewrite list_insert_id by exact Hl. exact HB.
Qed.

Lemma claim_basic_run sched st : Basic st -> Basic (run thread sched st).
Proof. apply run_invariant. intros. apply claim_basic_step. assumption. Qed.
End Basic.

Lemma claim_basic_init capacity keyof active table0 cnt0 threads :
  0 <= cnt0 ->
  let pool := map (claim_entry capacity keyof active) threads in
  (forall i idx, threads !! i = Some idx -> i = idx) ->
  claim_basic keyof active table0 (cnt0 + pending pool) ((table0, cnt0), pool).
Proof.
  intros Hc pool Hthreads. split; cbn [fst snd]; auto; try lia.
  - intros i l Hl Hne. subst pool. rewrite list_lookup_fmap in Hl.
    destruct (threads !! i) as [idx|] eqn:E; [|discriminate]. cbn in Hl.
    apply Hthreads in E as <-. unfold claim_entry in Hl.
    destruct (active i); [reflexivity|]. congruence.
  - intros i h Hi. exfalso. subst pool.
    destruct Hi as [Hi|Hi]; rewrite list_lookup_fmap in Hi;
      destruct (threads !! i); cbn in Hi; try discriminate;
      unfold claim_entry in Hi; destruct (active _); discriminate.
Qed.

(** * What a launch keeps when the table has room for every thread *)

Lemma table_ok_same_keys capacity t t' :
  keys_of t' = keys_of t -> table_ok capacity t -> table_ok capacity t'.
Proof.
  intros E [Hlen Hd Hp]. split.
  - rewrite <- keys_of_length, E, keys_of_length. exact Hlen.
  - rewrite E. exact Hd.
  - rewrite E. exact Hp.
Qed.

Lemma table_ok_index capacity t j k :
  table_ok capacity t -> keys_of t !! j = Some k -> 0 <= Z.of_nat j < capacity.
Proof.
  intros [Hlen _ _] Hj. apply lookup_lt_Some in Hj. rewrite keys_of_length in Hj. lia.
Qed.

Section Room.
Variables (update : bool) (capacity : Z) (keyof valof : nat -> Z).
Variables (active : nat -> bool) (balance : Z).
Hypothesis capacity_range : 0 < capacity < uint32_max.
Hypothesis keys_valid : forall i, active i = true -> keyof i <> KEY_INVALID.
Hypothesis keys_distinct : update = false ->
  forall i i', active i = true -> active i' = true -> keyof i = keyof i' -> i = i'.
Hypothesis room : balance <= capacity.

Let thread := claim_thread update capacity keyof valof.
Let Inv := claim_inv update capacity keyof valof active balance.

Lemma claim_inv_update t cnt pool idx l t' cnt' l' :
  Inv ((t, cnt), pool) ->
  pool !! idx = Some l ->
  table_ok capacity t' ->
  (l = IReturn -> l' = IReturn) ->
  (forall j k, keys_of t !! j = Some k -> k <> KEY_INVALID -> keys_of t' !! j = Some k) ->
  (forall j k, keys_of t' !! j = Some k ->
     keys_of t !! j = Some k \/
     (keys_of t !! j = Some KEY_INVALID /\ k = keyof idx /\ exists h, l = IProbe h)) ->
  (forall h, l' = IProbe h ->
     0 <= h < capacity /\
     (forall j k, keys_of t' !! j = Some k ->
        offset capacity (keyof idx) (Z.of_nat j) < offset capacity (keyof idx) h ->
        k <> KEY_INVALID /\ k <> keyof idx) /\
     (update = false -> forall j, keys_of t' !! j <> Some (keyof idx))) ->
  (forall h, l' = ICount h \/ l' = IStore h ->
     0 <= h /\ keys_of t' !! Z.to_nat h = Some (keyof idx)) ->
  (update = false -> forall h, l' <> ICount h) ->
  (0 <= cnt' /\
   live t' + cnt' + Z.of_nat (may_count l') = live t + cnt + Z.of_nat (may_count l)) ->
  (forall j e, t !! j = Some e -> key e <> KEY_INVALID ->
     exists e', t' !! j = Some e' /\ key e' = key e /\
       (value e' = value e \/
        exists i', active i' = true /\ keyof i' = key e /\ value e' = valof i')) ->
  (l' = IReturn -> l <> IReturn ->
     exists j e, t' !! j = Some e /\ key e = keyof idx /\ value e = valof idx) ->
  Inv ((t', cnt'), <[idx := l']> pool).
Proof.
  intros [Htab Hact Hprobe Hfresh Hhold Hnoc Hacc Hdone] Hl Htab' Hret Hmono Hchg
    Hp' Hh' Hn' Ha' Hval Hself.
  cbn [fst snd] in *.
  assert (Hidx : l <> IReturn -> active idx = true) by (apply (Hact idx l Hl)).
  split; cbn [fst snd].
  - exact Htab'.
  - intros i x Hx Hne.
    destruct (pool_insert_lookup _ _ _ _ _ _ Hl Hx) as [[-> ->]|[_ Hi]].
    + apply Hidx. intros ->. apply Hne, Hret. reflexivity.
    + eapply Hact; eassumption.
  - intros i h Hi.
    destruct (pool_insert_lookup _ _ _ _ _ _ Hl Hi) as [[-> E]|[Hne Hi']].
    + destruct (Hp' h (eq_sym E)) as (? & ? & ?). auto.
    + destruct (Hprobe i h Hi') as [Hr Hpath]. split; [exact Hr|].
      intros j k Hj Hoff.
      destruct (Hchg j k Hj) as [Hj'|(Hj' & _ & _)]; [eauto|].
      destruct (Hpath j _ Hj' Hoff) as [Hk _]. congruence.
  - intros Hu i h Hi j Hj.
    destruct (pool_insert_lookup _ _ _ _ _ _ Hl Hi) as [[-> E]|[Hne Hi']].
    + destruct (Hp' h (eq_sym E)) as (_ & _ & Hf). exact (Hf Hu j Hj).
    + destruct (Hchg j _ Hj) as [Hj'|(_ & Hk & h' & ->)].
      * exact (Hfresh Hu i h Hi' j Hj').
      * apply Hne. apply (keys_distinct Hu i idx);
          [eapply Hact; [exact Hi'|discriminate]|apply Hidx; discriminate|congruence].
  - intros i h Hi.
    assert ((i = idx /\ (l' = ICount h \/ l' = IStore h)) \/
            (i <> idx /\ (pool !! i = Some (ICount h) \/ pool !! i = Some (IStore h))))
      as [[-> E]|[Hne Hi']].
    { destruct Hi as [Hi|Hi];
        destruct (pool_insert_lookup _ _ _ _ _ _ Hl Hi) as [[-> E]|[Hne Hi']]; auto. }
    + apply Hh', E.
    + destruct (Hhold i h Hi') as [Hh Hk]. split; [exact Hh|].
      apply Hmono; [exact Hk|]. apply keys_valid.
      destruct Hi' as [Hi'|Hi']; (eapply Hact; [exact Hi'|discriminate]).
  - intros Hu i h Hi.
    destruct (pool_insert_lookup _ _ _ _ _ _ Hl Hi) as [[-> E]|[Hne Hi']].
    + exact (Hn' Hu h (eq_sym E)).
    + exact (Hnoc Hu i h Hi').
  - rewrite (pending_insert _ _ _ _ Hl). lia.
  - assert (Hkeep : forall i, active i = true ->
      (exists j e i', t !! j = Some e /\ key e = keyof i /\
         active i' = true /\ keyof i' = keyof i /\ value e = valof i') ->
      exists j e i', t' !! j = Some e /\ key e = keyof i /\
         active i' = true /\ keyof i' = keyof i /\ value e = valof i').
    { intros i Hai (j & e & i' & Hj & Hk & Hai' & Hk' & Hv).
      destruct (Hval j e Hj) as (e' & Hj' & Hke & Hve).
      { rewrite Hk. apply keys_valid, Hai. }
      destruct Hve as [Hve|(i2 & Ha2 & Hk2 & Hv2)].
      - exists j, e', i'. repeat split; congruence.
      - exists j, e', i2. repeat split; congruence. }
    intros i Hai Hi.
    destruct (pool_insert_lookup _ _ _ _ _ _ Hl Hi) as [[-> E]|[Hne Hi']].
    + assert (l = IReturn \/ l <> IReturn) as [->|Hlr]
        by (destruct l; auto; right; discriminate).
      * apply Hkeep; [exact Hai|]. apply Hdone; assumption.
      * destruct (Hself (eq_sym E) Hlr) as (j & e & Hj & Hk & Hv).
        exists j, e, idx. auto.
    + apply Hkeep; [exact Hai|]. apply Hdone; assumption.
Qed.

Lemma claim_inv_full t cnt pool idx h e :
  Inv ((t, cnt), pool) ->
  pool !! idx = Some (IProbe h) ->
  t !! Z.to_nat h = Some e -> key e <> KEY_INVALID ->
  (h + 1) mod capacity = hashFunc (keyof idx) mod capacity ->
  False.
Proof.
  intros [Htab Hact Hprobe Hfresh Hhold Hnoc Hacc Hdone] Hl He Hk Hwrap.
  cbn [fst snd] in *.
  destruct (Hprobe idx h Hl) as [Hh Hpath].
  pose proof (offset_last capacity (keyof idx) ltac:(lia) h Hh Hwrap) as Hoff.
  assert (Hfull : live t = Z.of_nat (length t)).
  { apply live_all_occupied. intros j e' Hj.
    assert (Hkj : keys_of t !! j = Some (key e')) by (apply keys_of_lookup; eauto).
    pose proof (table_ok_index _ _ _ _ Htab Hkj) as Hjr.
    pose proof (offset_range capacity (keyof idx) ltac:(lia) (Z.of_nat j)) as Ho.
    destruct (Z.eq_dec (offset capacity (keyof idx) (Z.of_nat j)) (capacity - 1)) as [E|E].
    - rewrite <- Hoff in E. apply offset_inj in E; [|lia|lia|lia].
      assert (j = Z.to_nat h) as -> by lia. congruence.
    - apply (Hpath j _ Hkj). lia. }
  pose proof (pending_lookup _ _ _ Hl) as Hp. cbn in Hp.
  destruct Htab as [Hlen _ _]. lia.
Qed.

Lemma claim_inv_step st idx : Inv st -> Inv (step thread st idx).
Proof.
  destruct st as [[t cnt] pool]. intros HI.
  destruct (pool !! idx) as [l|] eqn:Hl; [|rewrite step_none; assumption].
  rewrite (step_some _ _ _ _ _ Hl).
  pose proof (claim_thread_cases update capacity keyof valof idx l t cnt) as Hc.
  cbv zeta in Hc. fold thread in Hc.
  pose proof HI as [Htab Hact Hprobe Hfresh Hhold Hnoc Hacc Hdone]. cbn [fst snd] in *.
  assert (Hkeysame : forall j k, keys_of t !! j = Some k ->
    keys_of t !! j = Some k \/
    (keys_of t !! j = Some KEY_INVALID /\ k = keyof idx /\ exists h, l = IProbe h))
    by auto.
  assert (Hvalsame : forall j e, t !! j = Some e -> key e <> KEY_INVALID ->
     exists e', t !! j = Some e' /\ key e' = key e /\
       (value e' = value e \/
        exists i', active i' = true /\ keyof i' = key e /\ value e' = valof i'))
    by eauto.
  destruct l as [h|h|h|].
  - (* atomicCAS *)
    assert (Hactive : active idx = true) by (eapply Hact; [exact Hl|discriminate]).
    pose proof (keys_valid idx Hactive) as Hkv.
    destruct (Hprobe idx h Hl) as [Hh Hpath].
    assert (Hw : wrap32 (h + 1) = h + 1) by (apply wrap32_small; lia).
    rewrite Hw in Hc.
    destruct Hc as [[_ ->]|(e & He & [[Hk ->]|[(Hk & Hu & Hk' & ->)|(Hk & Hu & ->)]])];
      cbn [fst snd].
    + rewrite list_insert_id by exact Hl. exact HI.
    + (* the slot is claimed *)
      assert (Hke : keys_of t !! Z.to_nat h = Some KEY_INVALID).
      { apply keys_of_lookup. eauto. }
      assert (Hlt : (Z.to_nat h < length (keys_of t))%nat).
      { rewrite keys_of_length. eapply lookup_lt_Some, He. }
      replace (update && (KEY_INVALID =? keyof idx)) with false.
      2:{ symmetry. apply andb_false_iff. right. apply Z.eqb_neq. congruence. }
      set (t' := <[Z.to_nat h := {| key := keyof idx; value := value e |}]> t).
      assert (Hk' : forall j k, keys_of t' !! j = Some k ->
        (j = Z.to_nat h /\ k = keyof idx) \/ (j <> Z.to_nat h /\ keys_of t !! j = Some k)).
      { intros j k. subst t'. rewrite keys_of_insert.
        destruct (decide (Z.to_nat h = j)) as [<-|Hne].
        - rewrite list_lookup_insert_eq by exact Hlt. intros [= <-]. auto.
        - rewrite list_lookup_insert_ne by exact Hne. auto. }
      eapply claim_inv_update; try eassumption.
      * (* the table stays well formed *)
        destruct Htab as [Hlen Hdist Hp]. split.
        -- subst t'. rewrite length_insert. exact Hlen.
        -- intros j1 j2 k Hj1 Hj2 Hkk.
           assert (Hone : forall j, keys_of t !! j = Some (keyof idx) -> False).
           { intros j Hj.
             assert (Hjr : 0 <= Z.of_nat j < capacity).
             { apply lookup_lt_Some in Hj. rewrite keys_of_length in Hj. lia. }
             destruct (Z.lt_total (offset capacity (keyof idx) (Z.of_nat j))
                         (offset capacity (keyof idx) h)) as [Ho|[Ho|Ho]].
             - destruct (Hpath j _ Hj Ho). congruence.
             - apply offset_inj in Ho; [|lia|lia|lia].
               assert (j = Z.to_nat h) as -> by lia. congruence.
             - apply (Hp j (keyof idx) (Z.to_nat h) KEY_INVALID Hj Hkv Hke);
                 [|reflexivity].
               rewrite Z2Nat.id by lia. exact Ho. }
           destruct (Hk' _ _ Hj1) as [[-> ->]|[Hn1 Hj1']];
             destruct (Hk' _ _ Hj2) as [[-> Hk2]|[Hn2 Hj2']]; subst; auto.
           ++ exfalso. eapply Hone, Hj2'.
           ++ exfalso. eapply Hone, Hj1'.
           ++ eapply Hdist; eassumption.
        -- intros j k j' k' Hj Hkk Hj' Ho.
           destruct (Hk' _ _ Hj') as [[-> ->]|[Hn' Hj'']]; [exact Hkv|].
           destruct (Hk' _ _ Hj) as [[-> ->]|[Hn Hj0]].
           ++ rewrite Z2Nat.id in Ho by lia. apply (Hpath j' _ Hj'' Ho).
           ++ eapply Hp; eassumption.
      * discriminate.
      * intros j k Hj Hkk. subst t'. rewrite keys_of_insert.
        destruct (decide (Z.to_nat h = j)) as [<-|Hne]; [congruence|].
        rewrite list_lookup_insert_ne by exact Hne. exact Hj.
      * intros j k Hj. destruct (Hk' _ _ Hj) as [[-> ->]|[_ Hj']]; [|auto].
        right. eauto.
      * discriminate.
      * intros h' Hh'. assert (h' = h) as -> by (destruct Hh'; congruence).
        split; [lia|]. subst t'. rewrite keys_of_insert.
        apply list_lookup_insert_eq. exact Hlt.
      * discriminate.
      * split; [lia|]. subst t'. rewrite (live_insert _ _ _ _ He). cbn [key].
        rewrite decide_False by (intros Hn; apply Hn, Hk).
        rewrite decide_True by exact Hkv. cbn. lia.
      * intros j e0 Hj Hk0. subst t'.
        destruct (decide (Z.to_nat h = j)) as [<-|Hne]; [congruence|].
        rewrite list_lookup_insert_ne by exact Hne. eauto.
      * discriminate.
    + (* the slot holds the key of the thread *)
      eapply claim_inv_update; try eassumption; auto; try discriminate.
      * intros h' Hh'. assert (h' = h) as -> by (destruct Hh'; congruence).
        split; [lia|]. apply keys_of_lookup. eauto.
      * congruence.
      * cbn. lia.
    + (* the slot holds another key *)
      destruct ((h + 1) mod capacity =? hashFunc (keyof idx) mod capacity) eqn:E.
      { exfalso. apply Z.eqb_eq in E. eapply claim_inv_full; eauto. }
      apply Z.eqb_neq in E.
      assert (Hne : key e <> keyof idx).
      { destruct update eqn:Eu; [auto|]. intros Hke.
        apply (Hfresh eq_refl idx h Hl (Z.to_nat h)). apply keys_of_lookup. eauto. }
      eapply claim_inv_update; try eassumption; auto; try discriminate.
      * intros h' [= <-]. split; [apply next_range; lia|]. split.
        -- intros j k Hj Ho.
           rewrite (offset_next capacity (keyof idx) ltac:(lia) h Hh E) in Ho.
           destruct (Z.eq_dec (offset capacity (keyof idx) (Z.of_nat j))
                       (offset capacity (keyof idx) h)) as [Eo|Eo].
           ++ pose proof (table_ok_index _ _ _ _ Htab Hj) as Hjr.
              apply offset_inj in Eo; [|lia|lia|lia].
              assert (j = Z.to_nat h) as -> by lia.
              apply keys_of_lookup in Hj as (e' & He' & <-).
              assert (e' = e) as -> by congruence. auto.
           ++ apply (Hpath j k Hj). lia.
        -- intros Hu'. exact (Hfresh Hu' idx h Hl).
      * intros h' [?|?]; discriminate.
      * cbn. lia.
  - (* atomicAdd *)
    rewrite Hc. cbn [fst snd].
    pose proof (pending_lookup _ _ _ Hl) as Hp. cbn in Hp.
    pose proof (live_le_length t).
    rewrite wrap32_small by lia.
    eapply claim_inv_update; try eassumption; auto; try discriminate.
    + intros h' Hh'. assert (h' = h) as -> by (destruct Hh'; congruence).
      apply Hhold. auto.
    + cbn. lia.
  - (* store of the value *)
    rewrite Hc. cbn [fst snd].
    destruct (Hhold idx h (or_intror Hl)) as [Hh Hkh].
    apply keys_of_lookup in Hkh as (e & He & Hke).
    assert (Hactive : active idx = true) by (eapply Hact; [exact Hl|discriminate]).
    eapply claim_inv_update; try eassumption; try discriminate.
    + eapply table_ok_same_keys; [apply keys_of_store_value|exact Htab].
    + intros j k. rewrite keys_of_store_value. auto.
    + intros j k. rewrite keys_of_store_value. auto.
    + intros h' [?|?]; discriminate.
    + unfold live in *. rewrite store_value_live_keys. cbn. lia.
    + intros j e0 Hj Hk0. rewrite store_value_lookup, Hj.
      case_decide as Ej; [|eauto]. subst j.
      eexists. split; [reflexivity|]. cbn. split; [reflexivity|].
      right. exists idx. repeat split; congruence.
    + intros _ _. exists (Z.to_nat h). eexists.
      rewrite store_value_lookup, He. rewrite decide_True by reflexivity.
      split; [reflexivity|]. cbn. auto.
  - rewrite Hc. cbn [fst snd]. rewrite list_insert_id by exact Hl. exact HI.
Qed.

Lemma claim_inv_run sched st : Inv st -> Inv (run thread sched st).
Proof. apply run_invariant. intros. apply claim_inv_step. assumption. Qed.
End Room.

(** * The start and the end of a launch *)

Lemma claim_pool_lookup capacity keyof active n i l :
  map (claim_entry capacity keyof active) (seq 0 n) !! i = Some l ->
  (i < n)%nat /\ l = claim_entry capacity keyof active i.
Proof.
  intros H. change (map ?f ?l) with (f <$> l) in H.
  rewrite list_lookup_fmap in H.
  destruct (seq 0 n !! i) as [x|] eqn:E; [|discriminate].
  apply lookup_seq in E as [-> Hi]. cbn in H. split; [exact Hi|congruence].
Qed.

Lemma claim_inv_init update capacity keyof valof active table0 cnt0 n :
  0 < capacity ->
  0 <= cnt0 ->
  table_ok capacity table0 ->
  (update = false -> forall i, active i = true ->
     forall j, keys_of table0 !! j <> Some (keyof i)) ->
  let pool := map (claim_entry capacity keyof active) (seq 0 n) in
  claim_inv update capacity keyof valof active (live table0 + cnt0 + pending pool)
    ((table0, cnt0), pool).
Proof.
  intros Hcap Hc Htab Hfresh pool. split; cbn [fst snd]; auto.
  - intros i l Hl Hne. apply claim_pool_lookup in Hl as [_ ->].
    unfold claim_entry in Hne. destruct (active i); [reflexivity|congruence].
  - intros i h Hl. apply claim_pool_lookup in Hl as [_ Hl].
    unfold claim_entry in Hl. destruct (active i); [|discriminate].
    injection Hl as ->. split; [apply Z.mod_pos_bound; lia|].
    intros j k _ Ho. rewrite offset_home in Ho by lia.
    pose proof (offset_range capacity (keyof i) Hcap (Z.of_nat j)). lia.
  - intros Hu i h Hl. apply claim_pool_lookup in Hl as [_ Hl].
    unfold claim_entry in Hl. destruct (active i) eqn:Ha; [|discriminate].
    apply Hfresh; assumption.
  - intros i h [Hl|Hl]; apply claim_pool_lookup in Hl as [_ Hl];
      unfold claim_entry in Hl; destruct (active i); discriminate.
  - intros _ i h Hl. apply claim_pool_lookup in Hl as [_ Hl].
    unfold claim_entry in Hl. destruct (active i); discriminate.
  - intros i Ha Hl. apply claim_pool_lookup in Hl as [_ Hl].
    unfold claim_entry in Hl. rewrite Ha in Hl. discriminate.
Qed.

Lemma pending_returned pool :
  (forall i l, pool !! i = Some l -> insert_returned l = true) -> pending pool = 0.
Proof.
  intros H. unfold pending. generalize 0%nat as i0.
  induction pool as [|l pool IH]; intros i0; [reflexivity|].
  cbn [pool_sum]. rewrite Nat2Z.inj_add, IH.
  - pose proof (H 0%nat l eq_refl). destruct l; try discriminate. reflexivity.
  - intros i x Hx. apply (H (S i)). exact Hx.
Qed.

(** The threads of the probing loop all return along some schedule. *)
Section Termination.
Variables (update : bool) (capacity : Z) (keyof valof : nat -> Z).
Hypothesis capacity_range : 0 < capacity < uint32_max.

Let thread := claim_thread update capacity keyof valof.

Lemma claim_bounds_step st idx :
  claim_bounds capacity st -> claim_bounds capacity (step thread st idx).
Proof.
  destruct st as [[t cnt] pool]. intros HB.
  destruct (pool !! idx) as [l|] eqn:Hl; [|rewrite step_none; assumption].
  rewrite (step_some _ _ _ _ _ Hl).
  pose proof (claim_thread_cases update capacity keyof valof idx l t cnt) as Hc.
  cbv zeta in Hc. fold thread in Hc.
  destruct HB as [Hlen Hb]. cbn [fst snd] in *.
  assert (Hkeep : forall t' cnt' l',
    Z.of_nat (length t') = capacity ->
    (forall h, l' = IProbe h -> 0 <= h < capacity) ->
    claim_bounds capacity ((t', cnt'), <[idx := l']> pool)).
  { intros t' cnt' l' Hlen' Hl'. split; cbn [fst snd]; [exact Hlen'|].
    intros i h Hi.
    destruct (pool_insert_lookup _ _ _ _ _ _ Hl Hi) as [[-> E]|[_ Hi']]; eauto. }
  destruct l as [h|h|h|]; try (rewrite Hc; cbn [fst snd]; apply Hkeep;
    [rewrite ?store_value_length; exact Hlen|discriminate]).
  destruct Hc as [[_ ->]|(e & He & [[Hk ->]|[(Hk & Hu & Hk' & ->)|(Hk & Hu & ->)]])];
    cbn [fst snd]; apply Hkeep; try exact Hlen.
  - intros h' [= <-]. eauto.
  - rewrite length_insert. exact Hlen.
  - destruct (_ && _); discriminate.
  - discriminate.
  - destruct (_ =? _); [discriminate|]. intros h' [= <-].
    apply Z.mod_pos_bound. lia.
Qed.

Lemma claim_steps_left m pool idx l :
  claim_bounds capacity (m, pool) -> pool !! idx = Some l ->
  insert_returned l = false ->
  (steps_left capacity keyof idx (thread idx l m).2 < steps_left capacity keyof idx l)%nat.
Proof.
  destruct m as [t cnt]. intros [Hlen Hb] Hl Hr. cbn [fst snd] in *.
  pose proof (claim_thread_cases update capacity keyof valof idx l t cnt) as Hc.
  cbv zeta in Hc. fold thread in Hc.
  destruct l as [h|h|h|]; try discriminate; try (rewrite Hc; cbn; lia).
  pose proof (Hb idx h Hl) as Hh.
  pose proof (offset_range capacity (keyof idx) ltac:(lia) h) as Ho.
  destruct Hc as [[Hn _]|(e & He & [[Hk ->]|[(Hk & Hu & Hk' & ->)|(Hk & Hu & ->)]])];
    cbn [snd].
  - exfalso. apply lookup_ge_None in Hn. lia.
  - destruct (_ && _); cbn; lia.
  - cbn. lia.
  - rewrite wrap32_small by (unfold uint32_max in *; lia).
    destruct (_ =? _) eqn:E; [cbn; lia|]. apply Z.eqb_neq in E.
    cbn [steps_left]. rewrite (offset_next capacity (keyof idx) ltac:(lia) h Hh E). lia.
Qed.

Lemma claim_terminates st :
  claim_bounds capacity st ->
  exists sched m, synchronize insert_returned (run thread sched st) = Some m.
Proof.
  apply (run_complete thread insert_returned (claim_bounds capacity)
           (steps_left capacity keyof)).
  - intros. apply claim_bounds_step. assumption.
  - intros idx l Hr. destruct l; try discriminate; cbn; lia.
  - intros. eapply claim_steps_left; eassumption.
Qed.
End Termination.

Lemma claim_bounds_init capacity keyof active table0 cnt0 n :
  0 < capacity -> Z.of_nat (length table0) = capacity ->
  claim_bounds capacity
    ((table0, cnt0), map (claim_entry capacity keyof active) (seq 0 n)).
Proof.
  intros Hcap Hlen. split; cbn [fst snd]; [exact Hlen|].
  intros i h Hl. apply claim_pool_lookup in Hl as [_ Hl].
  unfold claim_entry in Hl. destruct (active i); [|discriminate].
  injection Hl as ->. apply Z.mod_pos_bound. lia.
Qed.


(** * The kernels as instances of the probing loop *)

Lemma run_ext {M L} (f g : nat -> L -> M -> M * L) :
  (forall idx l m, f idx l m = g idx l m) ->
  forall sched st, run f sched st = run g sched st.
Proof.
  intros H sched. induction sched as [|idx sched IH]; intros st; [reflexivity|].
  rewrite !run_cons, IH. f_equal. unfold step.
  destruct (st.2 !! idx); [|reflexivity]. rewrite H. reflexivity.
Qed.

Lemma kernelInsert_thread_claim capacity device_keys device_values idx l m :
  kernelInsert_thread capacity device_keys device_values idx l m =
  claim_thread true capacity (insert_keyof device_keys) (insert_valof device_values) idx l m.
Proof. reflexivity. Qed.

Lemma kernelInsert_entry_claim capacity device_keys numKeys idx :
  kernelInsert_entry capacity device_keys numKeys idx =
  claim_entry capacity (insert_keyof device_keys) (insert_active numKeys) idx.
Proof.
  unfold kernelInsert_entry, claim_entry, insert_active.
  destruct (numKeys <=? Z.of_nat idx) eqn:E1, (Z.of_nat idx <? numKeys) eqn:E2;
    try reflexivity; lia.
Qed.

Lemma kernelReshape_thread_claim old_table capacity idx l t c :
  claim_thread false capacity (reshape_keyof old_table) (reshape_valof old_table) idx
    (reshape_pc_view l) (t, c) =
  (((kernelReshape_thread old_table capacity idx l t).1, c),
   reshape_pc_view (kernelReshape_thread old_table capacity idx l t).2).
Proof.
  destruct l as [h|h|]; cbn; try reflexivity.
  unfold reshape_keyof.
  destruct (atomicCAS_key t h KEY_INVALID (key (old_entry old_table idx))) as [[t' old]|];
    [|reflexivity].
  rewrite orb_false_r. destruct (old =? KEY_INVALID); [reflexivity|].
  cbn. destruct (_ =? _); reflexivity.
Qed.

Lemma kernelReshape_entry_claim old_table old_capacity capacity idx :
  reshape_pc_view (kernelReshape_entry old_table old_capacity capacity idx) =
  claim_entry capacity (reshape_keyof old_table) (reshape_active old_table old_capacity) idx.
Proof.
  unfold kernelReshape_entry, claim_entry, reshape_active, reshape_keyof.
  destruct (_ || _); reflexivity.
Qed.

Lemma kernelReshape_run_claim old_table capacity sched t pool c :
  run (claim_thread false capacity (reshape_keyof old_table) (reshape_valof old_table))
    sched ((t, c), reshape_pc_view <$> pool) =
  (((run (kernelReshape_thread old_table capacity) sched (t, pool)).1, c),
   reshape_pc_view <$> (run (kernelReshape_thread old_table capacity) sched (t, pool)).2).
Proof.
  revert t pool. induction sched as [|idx sched IH]; intros t pool; [reflexivity|].
  rewrite !run_cons.
  destruct (pool !! idx) as [l|] eqn:Hl.
  - rewrite (step_some _ _ _ _ _ Hl).
    assert (Hl' : (reshape_pc_view <$> pool) !! idx = Some (reshape_pc_view l)).
    { rewrite list_lookup_fmap, Hl. reflexivity. }
    rewrite (step_some _ _ _ _ _ Hl'), kernelReshape_thread_claim. cbn [fst snd].
    rewrite <- list_fmap_insert. apply IH.
  - rewrite (step_none (kernelReshape_thread old_table capacity) _ _ _ Hl).
    rewrite step_none by (rewrite list_lookup_fmap, Hl; reflexivity).
    apply IH.
Qed.

Lemma reshape_returned_view pool :
  forallb insert_returned (reshape_pc_view <$> pool) = forallb reshape_returned pool.
Proof.
  induction pool as [|l pool IH]; [reflexivity|]. cbn. rewrite IH.
  destruct l; reflexivity.
Qed.

(** A launch of [kernelReshape] is a launch of the probing loop. *)
Lemma kernelReshape_claim sched nBlocks nThreads old_table old_capacity new_table capacity r :
  kernelReshape sched nBlocks nThreads old_table old_capacity new_table capacity = Some r <->
  synchronize insert_returned
    (run (claim_thread false capacity (reshape_keyof old_table) (reshape_valof old_table))
       sched
       ((new_table, 0),
        map (claim_entry capacity (reshape_keyof old_table)
               (reshape_active old_table old_capacity)) (grid nBlocks nThreads)))
  = Some (r, 0).
Proof.
  unfold kernelReshape.
  assert (map (claim_entry capacity (reshape_keyof old_table)
                 (reshape_active old_table old_capacity)) (grid nBlocks nThreads)
          = reshape_pc_view <$>
              map (kernelReshape_entry old_table old_capacity capacity)
                (grid nBlocks nThreads)) as ->.
  { change (map ?f ?l) with (f <$> l). rewrite <- list_fmap_compose.
    apply list_fmap_ext. intros i x _. cbn. symmetry. apply kernelReshape_entry_claim. }
  rewrite kernelReshape_run_claim. unfold synchronize. cbn [fst snd].
  rewrite reshape_returned_view.
  destruct (forallb reshape_returned _); split; intros H; try discriminate; congruence.
Qed.

(** A launch of [kernelInsert] is a launch of the probing loop. *)
Lemma kernelInsert_claim sched nBlocks nThreads t capacity device_keys device_values
    numKeys cnt0 :
  kernelInsert sched nBlocks nThreads t capacity device_keys device_values numKeys cnt0 =
  synchronize insert_returned
    (run (claim_thread true capacity (insert_keyof device_keys) (insert_valof device_values))
       sched
       ((t, cnt0),
        map (claim_entry capacity (insert_keyof device_keys) (insert_active numKeys))
          (grid nBlocks nThreads))).
Proof.
  unfold kernelInsert. f_equal. f_equal. f_equal.
  apply map_ext. intros idx. apply kernelInsert_entry_claim.
Qed.

(** * The launch shape covers the items *)

Lemma estimateBlockSize_covers maxThreadsPerBlock nItems :
  0 < maxThreadsPerBlock -> 0 <= nItems ->
  let '(nBlocks, nThreads) := estimateBlockSize maxThreadsPerBlock nItems in
  nItems <= nBlocks * nThreads.
Proof.
  intros Hm Hn. unfold estimateBlockSize.
  pose proof (Z.div_mod nItems maxThreadsPerBlock ltac:(lia)) as Hdm.
  pose proof (Z.mod_pos_bound nItems maxThreadsPerBlock Hm) as Hr.
  destruct (_ =? 0) eqn:E; [apply Z.eqb_eq in E|]; nia.
Qed.

Lemma pool_sum_const {L} (w : L -> nat) (pool : list L) i :
  pool_sum (fun _ => w) i pool = pool_sum (fun _ => w) 0 pool.
Proof.
  revert i. induction pool as [|l pool IH]; intros i; [reflexivity|].
  cbn. rewrite (IH (S i)), (IH 1%nat). reflexivity.
Qed.

Lemma pending_cons l pool : pending (l :: pool) = Z.of_nat (may_count l) + pending pool.
Proof. unfold pending. cbn [pool_sum]. rewrite pool_sum_const. lia. Qed.

Lemma pending_app p1 p2 : pending (p1 ++ p2) = pending p1 + pending p2.
Proof.
  induction p1 as [|l p1 IH]; [unfold pending; cbn; lia|].
  cbn [app]. rewrite !pending_cons, IH. lia.
Qed.

Lemma pending_inactive capacity keyof active s n :
  (forall i, (s <= i)%nat -> active i = false) ->
  pending (map (claim_entry capacity keyof active) (seq s n)) = 0.
Proof.
  intros H. revert s H. induction n as [|n IH]; intros s H; [reflexivity|].
  cbn [seq map]. rewrite pending_cons, IH by (intros; apply H; lia).
  unfold claim_entry. rewrite H by lia. reflexivity.
Qed.

Lemma pending_all_active capacity keyof active s n :
  (forall i, (s <= i < s + n)%nat -> active i = true) ->
  pending (map (claim_entry capacity keyof active) (seq s n)) = Z.of_nat n.
Proof.
  revert s. induction n as [|n IH]; intros s H; [reflexivity|].
  cbn [seq map]. rewrite pending_cons, IH by (intros; apply H; lia).
  unfold claim_entry. rewrite H by lia. cbn. lia.
Qed.

Lemma pending_insert_pool capacity device_keys numKeys nBlocks nThreads :
  0 <= numKeys <= nBlocks * nThreads ->
  pending (map (claim_entry capacity (insert_keyof device_keys) (insert_active numKeys))
             (grid nBlocks nThreads)) = numKeys.
Proof.
  intros Hn. unfold grid.
  replace (Z.to_nat (nBlocks * nThreads))
    with (Z.to_nat numKeys + (Z.to_nat (nBlocks * nThreads) - Z.to_nat numKeys))%nat by lia.
  rewrite seq_app, map_app, pending_app.
  rewrite pending_all_active, (pending_inactive _ _ _ (0 + Z.to_nat numKeys)).
  - lia.
  - intros i Hi. unfold insert_active. apply Z.ltb_ge. lia.
  - intros i Hi. unfold insert_active. apply Z.ltb_lt. lia.
Qed.

Lemma pending_reshape_pool capacity old_table old_capacity nBlocks nThreads :
  Z.of_nat (length old_table) = old_capacity ->
  old_capacity <= nBlocks * nThreads ->
  pending (map (claim_entry capacity (reshape_keyof old_table)
                  (reshape_active old_table old_capacity))
             (grid nBlocks nThreads)) = live old_table.
Proof.
  intros Hlen Hn. unfold grid.
  replace (Z.to_nat (nBlocks * nThreads))
    with (length old_table + (Z.to_nat (nBlocks * nThreads) - length old_table))%nat by lia.
  rewrite seq_app, map_app, pending_app.
  rewrite (pending_inactive _ _ _ (0 + length old_table)).
  2:{ intros i Hi. unfold reshape_active.
      replace (old_capacity <=? Z.of_nat i) with true by (symmetry; apply Z.leb_le; lia).
      reflexivity. }
  rewrite Z.add_0_r. subst old_capacity. clear Hn.
  induction old_table as [|e t IH] using rev_ind; [reflexivity|].
  rewrite length_app. cbn [length]. rewrite Nat.add_1_r, seq_S, map_app, pending_app.
  assert (map (claim_entry capacity (reshape_keyof (t ++ [e]))
                 (reshape_active (t ++ [e]) (Z.of_nat (S (length t))))) (seq 0 (length t))
          = map (claim_entry capacity (reshape_keyof t)
                   (reshape_active t (Z.of_nat (length t)))) (seq 0 (length t))) as ->.
  { apply map_ext_in. intros i Hi. apply in_seq in Hi.
    unfold claim_entry, reshape_active, reshape_keyof, old_entry.
    rewrite lookup_app_l by lia.
    replace (Z.of_nat (S (length t)) <=? Z.of_nat i) with false
      by (symmetry; apply Z.leb_gt; lia).
    replace (Z.of_nat (length t) <=? Z.of_nat i) with false
      by (symmetry; apply Z.leb_gt; lia).
    reflexivity. }
  rewrite IH. unfold live. rewrite live_keys_app, length_app, live_keys_cons.
  cbn [map]. rewrite pending_cons. unfold claim_entry, reshape_active, reshape_keyof, old_entry.
  rewrite list_lookup_middle by reflexivity. cbn [default].
  replace (Z.of_nat (S (length t)) <=? Z.of_nat (0 + length t)) with false
    by (symmetry; apply Z.leb_gt; lia).
  cbn [orb]. unfold id. case_decide as Hk.
  - apply Z.eqb_neq in Hk. rewrite Hk. cbn. unfold pending. cbn. lia.
  - assert ((key e =? KEY_INVALID) = true) as -> by (apply Z.eqb_eq; tauto).
    cbn. unfold pending. cbn. lia.
Qed.

Lemma grid_lookup nBlocks nThreads i idx : grid nBlocks nThreads !! i = Some idx -> i = idx.
Proof. unfold grid. intros H. apply lookup_seq in H as [-> _]. reflexivity. Qed.

Lemma claim_pool_length capacity keyof active nBlocks nThreads :
  length (map (claim_entry capacity keyof active) (grid nBlocks nThreads))
  = Z.to_nat (nBlocks * nThreads).
Proof. unfold grid. rewrite length_map, length_seq. reflexivity. Qed.

(** * kernelInsert *)

Section KernelInsert.
Variables (sched : list nat) (nBlocks nThreads : Z).
Variables (t : list TableEntry) (capacity : Z) (device_keys device_values : list Z).
Variables (numKeys : Z) (t' : list TableEntry) (cnt' : Z).
Hypothesis numKeys_range : 0 <= numKeys < uint32_max.
Hypothesis covered : numKeys <= nBlocks * nThreads.
Hypothesis result :
  kernelInsert sched nBlocks nThreads t capacity device_keys device_values numKeys 0
  = Some (t', cnt').

(** What [kernelInsert] does on any table. *)
Lemma kernelInsert_always :
  length t' = length t /\ 0 <= cnt' <= numKeys /\
  (forall j e, t !! j = Some e -> key e <> KEY_INVALID ->
     (forall i, Z.of_nat i < numKeys -> device_keys !!! i <> key e) ->
     t' !! j = Some e) /\
  (forall j k, keys_of t !! j = Some k -> k <> KEY_INVALID -> keys_of t' !! j = Some k) /\
  (forall j k, keys_of t' !! j = Some k ->
     k = KEY_INVALID \/ keys_of t !! j = Some k \/
     exists i, Z.of_nat i < numKeys /\ device_keys !!! i = k).
Proof.
  rewrite kernelInsert_claim in result.
  apply synchronize_some in result as [Hm Hret].
  set (pool0 := map (claim_entry capacity (insert_keyof device_keys) (insert_active numKeys))
                  (grid nBlocks nThreads)) in *.
  pose proof (claim_basic_init capacity (insert_keyof device_keys) (insert_active numKeys)
                t 0 (grid nBlocks nThreads) ltac:(lia) (grid_lookup _ _)) as Hinit.
  cbv zeta in Hinit. fold pool0 in Hinit.
  assert (Hpend : pending pool0 = numKeys) by (apply pending_insert_pool; lia).
  rewrite Hpend in Hinit.
  eapply (claim_basic_run true capacity (insert_keyof device_keys)
            (insert_valof device_values)) in Hinit; [|lia].
  destruct Hinit as [Hlen Hact Hkeys Hhold Hframe Horig Hcnt].
  rewrite <- Hm in *. cbn [fst snd] in *.
  pose proof (pending_nonneg
    (run (claim_thread true capacity (insert_keyof device_keys)
            (insert_valof device_values)) sched (t, 0, pool0)).2).
  repeat split; try lia; try assumption.
  - intros j e Hj Hk Hno. apply Hframe; [exact Hj|exact Hk|].
    intros i Hi. apply Hno. unfold insert_active in Hi. apply Z.ltb_lt in Hi. exact Hi.
  - intros j k Hj. destruct (Horig j k Hj) as [?|[?|(i & Hi & Hk)]]; auto.
    right. right. exists i. unfold insert_active in Hi. apply Z.ltb_lt in Hi. auto.
Qed.

(** What [kernelInsert] does on a well-formed table with room for the
    batch. *)
Lemma kernelInsert_room :
  0 < capacity < uint32_max ->
  table_ok capacity t ->
  (forall i, Z.of_nat i < numKeys -> device_keys !!! i <> KEY_INVALID) ->
  live t + numKeys <= capacity ->
  table_ok capacity t' /\ 0 <= cnt' /\ live t' + cnt' = live t + numKeys /\
  forall i, Z.of_nat i < numKeys ->
    exists j e i', t' !! j = Some e /\ key e = device_keys !!! i /\
      Z.of_nat i' < numKeys /\ device_keys !!! i' = device_keys !!! i /\
      value e = device_values !!! i'.
Proof.
  intros Hcap Htab Hvalid Hroom.
  rewrite kernelInsert_claim in result.
  apply synchronize_some in result as [Hm Hret].
  set (pool0 := map (claim_entry capacity (insert_keyof device_keys) (insert_active numKeys))
                  (grid nBlocks nThreads)) in *.
  pose proof (claim_inv_init true capacity (insert_keyof device_keys)
                (insert_valof device_values) (insert_active numKeys)
                t 0 (Z.to_nat (nBlocks * nThreads)) ltac:(lia) ltac:(lia) Htab
                ltac:(discriminate)) as Hinit.
  cbv zeta in Hinit. fold (grid nBlocks nThreads) in Hinit. fold pool0 in Hinit.
  assert (Hpend : pending pool0 = numKeys) by (apply pending_insert_pool; lia).
  rewrite Hpend in Hinit.
  eapply (claim_inv_run true capacity (insert_keyof device_keys)
            (insert_valof device_values) (insert_active numKeys)) in Hinit.
  - destruct Hinit as [Htab' Hact Hprobe Hfresh Hhold Hnoc Hacc Hdone].
    rewrite <- Hm in *. cbn [fst snd] in *.
    rewrite pending_returned in Hacc by exact Hret.
    split; [exact Htab'|]. split; [lia|]. split; [lia|].
    intros i Hi.
    destruct (lookup_lt_is_Some_2
                (run (claim_thread true capacity (insert_keyof device_keys)
                        (insert_valof device_values)) sched (t, 0, pool0)).2 i) as [l Hl].
    { rewrite run_pool_length. cbn [snd]. subst pool0. rewrite claim_pool_length. lia. }
    pose proof (Hret i l Hl) as Hr. destruct l; try discriminate.
    destruct (Hdone i) as (j & e & i' & Hj & Hk & Ha' & Hk' & Hv); [|exact Hl|].
    { unfold insert_active. apply Z.ltb_lt. exact Hi. }
    exists j, e, i'. unfold insert_active in Ha'. apply Z.ltb_lt in Ha'. auto.
  - exact Hcap.
  - intros i Hi. apply Hvalid. unfold insert_active in Hi. apply Z.ltb_lt in Hi. exact Hi.
  - discriminate.
  - lia.
Qed.
End KernelInsert.

Lemma kernelInsert_terminates nBlocks nThreads t capacity device_keys device_values numKeys :
  0 < capacity < uint32_max -> Z.of_nat (length t) = capacity ->
  exists sched r,
    kernelInsert sched nBlocks nThreads t capacity device_keys device_values numKeys 0
    = Some r.
Proof.
  intros Hcap Hlen.
  destruct (claim_terminates true capacity (insert_keyof device_keys)
              (insert_valof device_values) Hcap
              ((t, 0), map (claim_entry capacity (insert_keyof device_keys)
                              (insert_active numKeys)) (grid nBlocks nThreads)))
    as (sched & m & Hs).
  { apply claim_bounds_init; [lia|exact Hlen]. }
  exists sched, m. rewrite kernelInsert_claim. exact Hs.
Qed.

(** * kernelReshape *)

Lemma table_ok_memset c : 0 <= c -> table_ok c (cudaMemset_table KEY_INVALID c).
Proof.
  intros Hc. split.
  - apply memset_length, Hc.
  - intros j1 j2 k Hj1 _ Hk. apply keys_of_lookup in Hj1 as (e & He & <-).
    apply memset_lookup in He as ->. contradiction.
  - intros j k j' k' Hj Hk. apply keys_of_lookup in Hj as (e & He & <-).
    apply memset_lookup in He as ->. contradiction.
Qed.

Lemma reshape_active_spec old_table old_capacity i :
  Z.of_nat (length old_table) = old_capacity ->
  (reshape_active old_table old_capacity i = true <->
   exists e, old_table !! i = Some e /\ key e <> KEY_INVALID).
Proof.
  intros Hlen. unfold reshape_active, old_entry. rewrite negb_true_iff, orb_false_iff.
  rewrite Z.leb_gt, Z.eqb_neq. split.
  - intros [Hi Hk]. destruct (old_table !! i) as [e|] eqn:E; [eauto|].
    apply lookup_ge_None in E. lia.
  - intros (e & He & Hk). rewrite He. cbn. split; [|exact Hk].
    apply lookup_lt_Some in He. lia.
Qed.

Section KernelReshape.
Variables (sched : list nat) (nBlocks nThreads : Z).
Variables (old_table : list TableEntry) (old_capacity capacity : Z).
Variable t' : list TableEntry.
Hypothesis old_length : Z.of_nat (length old_table) = old_capacity.
Hypothesis covered : old_capacity <= nBlocks * nThreads.
Hypothesis result :
  kernelReshape sched nBlocks nThreads old_table old_capacity
    (cudaMemset_table KEY_INVALID capacity) capacity = Some t'.

(** What [kernelReshape] does when the new table has room for the live
    entries of the old one. *)
Lemma kernelReshape_room :
  0 < capacity < uint32_max ->
  (forall j1 j2 k, keys_of old_table !! j1 = Some k -> keys_of old_table !! j2 = Some k ->
     k <> KEY_INVALID -> j1 = j2) ->
  live old_table <= capacity ->
  table_ok capacity t' /\ live t' = live old_table /\
  (forall j e, old_table !! j = Some e -> key e <> KEY_INVALID ->
     stored t' (key e) (value e)) /\
  (forall j k, keys_of t' !! j = Some k -> k <> KEY_INVALID ->
     exists j0, keys_of old_table !! j0 = Some k).
Proof.
  intros Hcap Hdist Hroom.
  apply kernelReshape_claim in result.
  apply synchronize_some in result as [Hm Hret].
  set (keyof := reshape_keyof old_table) in *.
  set (valof := reshape_valof old_table) in *.
  set (active := reshape_active old_table old_capacity) in *.
  set (pool0 := map (claim_entry capacity keyof active) (grid nBlocks nThreads)) in *.
  set (t0 := cudaMemset_table KEY_INVALID capacity) in *.
  assert (Hactive : forall i, active i = true ->
            exists e, old_table !! i = Some e /\ key e <> KEY_INVALID /\
                      keyof i = key e /\ valof i = value e).
  { intros i Hi. apply reshape_active_spec in Hi as (e & He & Hk); [|exact old_length].
    exists e. subst keyof valof. unfold reshape_keyof, reshape_valof, old_entry.
    rewrite He. auto. }
  assert (Hpend : pending pool0 = live old_table)
    by (apply pending_reshape_pool; assumption).
  pose proof (claim_inv_init false capacity keyof valof active t0 0
                (Z.to_nat (nBlocks * nThreads)) ltac:(lia) ltac:(lia)
                (table_ok_memset capacity ltac:(lia))) as Hinit.
  cbv zeta in Hinit. fold (grid nBlocks nThreads) in Hinit. fold pool0 in Hinit.
  rewrite Hpend in Hinit. unfold t0 in Hinit at 2. rewrite live_memset in Hinit.
  fold t0 in Hinit.
  assert (Hinv : claim_inv false capacity keyof valof active (0 + 0 + live old_table)
                   (run (claim_thread false capacity keyof valof) sched (t0, 0, pool0))).
  { apply claim_inv_run.
    - exact Hcap.
    - intros i Hi. destruct (Hactive i Hi) as (e & _ & Hk & -> & _). exact Hk.
    - intros _ i i' Hi Hi' Hk.
      destruct (Hactive i Hi) as (e & He & Hke & Hk1 & _).
      destruct (Hactive i' Hi') as (e' & He' & _ & Hk2 & _).
      apply (Hdist i i' (key e)); [| |exact Hke].
      + apply keys_of_lookup. eauto.
      + apply keys_of_lookup. exists e'. split; [exact He'|congruence].
    - lia.
    - apply Hinit. intros _ i Hi j Hj.
      apply keys_of_lookup in Hj as (e & He & Hk).
      apply memset_lookup in He as ->. cbn in Hk.
      destruct (Hactive i Hi) as (e & _ & Hke & Hk1 & _). congruence. }
  pose proof (claim_basic_init capacity keyof active t0 0 (grid nBlocks nThreads)
                ltac:(lia) (grid_lookup _ _)) as Hb.
  cbv zeta in Hb. fold pool0 in Hb.
  eapply (claim_basic_run false capacity keyof valof) in Hb.
  2:{ rewrite Hpend. pose proof (live_le_length old_table). lia. }
  destruct Hinv as [Htab' Hact Hprobe Hfresh Hhold Hnoc Hacc Hdone].
  destruct Hb as [_ _ _ _ _ Horig _].
  rewrite <- Hm in *. cbn [fst snd] in *.
  rewrite pending_returned in Hacc by exact Hret.
  split; [exact Htab'|]. split; [lia|]. split.
  - intros j e Hj Hk.
    assert (Ha : active j = true).
    { apply reshape_active_spec; [exact old_length|eauto]. }
    destruct (lookup_lt_is_Some_2
                (run (claim_thread false capacity keyof valof) sched (t0, 0, pool0)).2 j)
      as [l Hl].
    { rewrite run_pool_length. cbn [snd]. subst pool0. rewrite claim_pool_length.
      apply lookup_lt_Some in Hj. lia. }
    pose proof (Hret j l Hl) as Hr. destruct l; try discriminate.
    destruct (Hdone j Ha Hl) as (j' & e' & i' & Hj' & Hk' & Ha' & Hki & Hv).
    destruct (Hactive j Ha) as (e0 & He0 & _ & Hk0 & Hv0).
    assert (e0 = e) as -> by congruence.
    assert (i' = j) as ->.
    { destruct (Hactive i' Ha') as (e1 & He1 & Hke1 & Hk1 & _).
      apply (Hdist i' j (key e)); [| |exact Hk].
      - apply keys_of_lookup. exists e1. split; [exact He1|congruence].
      - apply keys_of_lookup. eauto. }
    exists j'. rewrite Hj'. f_equal. destruct e'. cbn in *. f_equal; congruence.
  - intros j k Hj Hk.
    destruct (Horig j k Hj) as [?|[Hj0|(i & Hi & Hki)]]; [contradiction| |].
    + apply keys_of_lookup in Hj0 as (e & He & Hke).
      apply memset_lookup in He as ->. cbn in Hke. congruence.
    + destruct (Hactive i Hi) as (e & He & _ & Hk1 & _). exists i.
      apply keys_of_lookup. exists e. split; [exact He|congruence].
Qed.
End KernelReshape.

Lemma kernelReshape_terminates nBlocks nThreads old_table old_capacity capacity :
  0 < capacity < uint32_max ->
  exists sched r,
    kernelReshape sched nBlocks nThreads old_table old_capacity
      (cudaMemset_table KEY_INVALID capacity) capacity = Some r.
Proof.
  intros Hcap.
  destruct (claim_terminates false capacity (reshape_keyof old_table)
              (reshape_valof old_table) Hcap
              ((cudaMemset_table KEY_INVALID capacity, 0),
               map (claim_entry capacity (reshape_keyof old_table)
                      (reshape_active old_table old_capacity)) (grid nBlocks nThreads)))
    as (sched & m & Hs).
  { apply claim_bounds_init; [lia|apply memset_length; lia]. }
  exists sched, m.1. apply kernelReshape_claim. rewrite Hs. f_equal.
  apply synchronize_some in Hs as [-> _].
  assert (map (claim_entry capacity (reshape_keyof old_table)
                 (reshape_active old_table old_capacity)) (grid nBlocks nThreads)
          = reshape_pc_view <$>
              map (kernelReshape_entry old_table old_capacity capacity)
                (grid nBlocks nThreads)) as ->.
  { change (map ?f ?l) with (f <$> l). rewrite <- list_fmap_compose.
    apply list_fmap_ext. intros i x _. cbn. symmetry. apply kernelReshape_entry_claim. }
  rewrite kernelReshape_run_claim. reflexivity.
Qed.

(** With no live entry in the old table no thread enters the loop. *)
Lemma kernelReshape_empty sched nBlocks nThreads old_table old_capacity new_table capacity :
  Z.of_nat (length old_table) = old_capacity ->
  live old_table = 0 ->
  kernelReshape sched nBlocks nThreads old_table old_capacity new_table capacity
  = Some new_table.
Proof.
  intros Hlen Hlive. unfold kernelReshape.
  rewrite run_all_returned with (returned := reshape_returned).
  - unfold synchronize. cbn [fst snd].
    replace (forallb _ _) with true; [reflexivity|]. symmetry.
    apply forallb_forall. intros l Hl. apply in_map_iff in Hl as (i & <- & _).
    unfold kernelReshape_entry.
    destruct (_ || _) eqn:E; [reflexivity|exfalso].
    assert (Ha : reshape_active old_table old_capacity i = true).
    { unfold reshape_active. rewrite E. reflexivity. }
    apply reshape_active_spec in Ha as (e & He & Hk); [|exact Hlen].
    assert (key e ∈ live_keys old_table) as Hin by (apply live_keys_elem; eauto).
    unfold live in Hlive. destruct (live_keys old_table); [|discriminate].
    inversion Hin.
  - intros idx l m Hr. destruct l; try discriminate. reflexivity.
  - intros idx l Hl. change (map ?f ?l) with (f <$> l) in Hl.
    rewrite list_lookup_fmap in Hl.
    destruct (grid nBlocks nThreads !! idx) as [i|]; [|discriminate]. cbn in Hl.
    injection Hl as <-. unfold kernelReshape_entry.
    destruct (_ || _) eqn:E; [reflexivity|exfalso].
    assert (Ha : reshape_active old_table old_capacity i = true).
    { unfold reshape_active. rewrite E. reflexivity. }
    apply reshape_active_spec in Ha as (e & He & Hk); [|exact Hlen].
    assert (key e ∈ live_keys old_table) as Hin by (apply live_keys_elem; eauto).
    unfold live in Hlive. destruct (live_keys old_table); [|discriminate].
    inversion Hin.
Qed.

(** * kernelGet *)

Lemma get_pool_lookup capacity device_keys numKeys nBlocks nThreads i l :
  map (kernelGet_entry capacity device_keys numKeys) (grid nBlocks nThreads) !! i = Some l ->
  l = kernelGet_entry capacity device_keys numKeys i.
Proof.
  intros H. change (map ?f ?l) with (f <$> l) in H.
  rewrite list_lookup_fmap in H.
  destruct (grid nBlocks nThreads !! i) as [x|] eqn:E; [|discriminate].
  apply grid_lookup in E as <-. cbn in H. congruence.
Qed.

Lemma stored_lookup (t : list TableEntry) j e : t !! j = Some e -> stored t (key e) (value e).
Proof. intros H. exists j. rewrite H. destruct e. reflexivity. Qed.

Section KernelGet.
Variables (capacity : Z) (device_keys : list Z) (numKeys : Z).
Variables (table0 : list TableEntry) (len : nat).
Hypothesis capacity_range : 0 < capacity < uint32_max.
Hypothesis table_length : Z.of_nat (length table0) = capacity.
Hypothesis values_length : numKeys <= Z.of_nat len.

Let thread := kernelGet_thread capacity device_keys.
Let Inv := get_inv capacity device_keys numKeys table0 len.

Lemma get_inv_step st idx : Inv st -> Inv (step thread st idx).
Proof.
  destruct st as [[t dv] pool]. intros HI.
  destruct (pool !! idx) as [l|] eqn:Hl; [|rewrite step_none; assumption].
  rewrite (step_some _ _ _ _ _ Hl).
  pose proof HI as [Ht Hlen Hact Hprobe Hdone]. cbn [fst snd] in *. subst t.
  destruct l as [h|]; cbn [thread kernelGet_thread fst snd].
  2:{ rewrite list_insert_id by exact Hl. exact HI. }
  destruct (table0 !! Z.to_nat h) as [e|] eqn:He.
  2:{ cbn [fst snd]. rewrite list_insert_id by exact Hl. exact HI. }
  pose proof (Hprobe idx h Hl) as Hh.
  assert (Hidx : Z.of_nat idx < numKeys) by (eapply Hact; [exact Hl|discriminate]).
  destruct (device_keys !!! idx =? key e) eqn:Ek; cbn [fst snd].
  - apply Z.eqb_eq in Ek. split; cbn [fst snd].
    + reflexivity.
    + rewrite length_insert. exact Hlen.
    + intros i l Hi Hne.
      destruct (pool_insert_lookup _ _ _ _ _ _ Hl Hi) as [[-> ->]|[_ Hi']];
        [congruence|eauto].
    + intros i h' Hi.
      destruct (pool_insert_lookup _ _ _ _ _ _ Hl Hi) as [[-> ?]|[_ Hi']];
        [discriminate|eauto].
    + intros i Hin Hi.
      destruct (pool_insert_lookup _ _ _ _ _ _ Hl Hi) as [[-> _]|[Hne Hi']].
      * exists (value e). split; [apply list_lookup_insert_eq; lia|].
        rewrite Ek. eapply stored_lookup, He.
      * rewrite list_lookup_insert_ne by congruence. apply Hdone; assumption.
  - split; cbn [fst snd]; auto.
    + intros i l Hi Hne.
      destruct (pool_insert_lookup _ _ _ _ _ _ Hl Hi) as [[-> ->]|[_ Hi']]; eauto.
    + intros i h' Hi.
      destruct (pool_insert_lookup _ _ _ _ _ _ Hl Hi) as [[-> E]|[_ Hi']]; [|eauto].
      injection E as ->. apply Z.mod_pos_bound. lia.
    + intros i Hin Hi.
      destruct (pool_insert_lookup _ _ _ _ _ _ Hl Hi) as [[-> ?]|[Hne Hi']];
        [discriminate|]. apply Hdone; assumption.
Qed.

Lemma get_inv_run sched st : Inv st -> Inv (run thread sched st).
Proof. apply run_invariant. intros. apply get_inv_step. assumption. Qed.

Lemma get_inv_init nBlocks nThreads device_values :
  length device_values = len ->
  Inv ((table0, device_values),
       map (kernelGet_entry capacity device_keys numKeys) (grid nBlocks nThreads)).
Proof.
  intros Hlen. split; cbn [fst snd]; auto.
  - intros i l Hl Hne. apply get_pool_lookup in Hl as ->.
    unfold kernelGet_entry in Hne. destruct (numKeys <=? Z.of_nat i) eqn:E;
      [congruence|lia].
  - intros i h Hl. apply get_pool_lookup in Hl. unfold kernelGet_entry in Hl.
    destruct (numKeys <=? Z.of_nat i); [discriminate|]. injection Hl as ->.
    apply Z.mod_pos_bound. lia.
  - intros i Hi Hl. apply get_pool_lookup in Hl. unfold kernelGet_entry in Hl.
    destruct (numKeys <=? Z.of_nat i) eqn:E; [lia|discriminate].
Qed.

(** The thread of a key that no slot holds never returns. *)
Lemma get_absent_step idx st :
  st.1.1 = table0 ->
  (forall j, keys_of table0 !! j <> Some (device_keys !!! idx)) ->
  (exists h, st.2 !! idx = Some (GProbe h)) ->
  (step thread st idx).1.1 = table0 /\ exists h, (step thread st idx).2 !! idx = Some (GProbe h).
Proof.
  destruct st as [[t dv] pool]. cbn [fst snd]. intros -> Habs [h Hl].
  rewrite (step_some _ _ _ _ _ Hl). cbn [thread kernelGet_thread fst snd].
  destruct (table0 !! Z.to_nat h) as [e|] eqn:He; cbn [fst snd].
  - destruct (device_keys !!! idx =? key e) eqn:Ek.
    + exfalso. apply Z.eqb_eq in Ek. apply (Habs (Z.to_nat h)).
      apply keys_of_lookup. eauto.
    + cbn [fst snd]. split; [reflexivity|]. eexists.
      apply list_lookup_insert_eq. eapply lookup_lt_Some, Hl.
  - split; [reflexivity|]. exists h.
    rewrite list_lookup_insert_eq by (eapply lookup_lt_Some, Hl). reflexivity.
Qed.
End KernelGet.

Lemma kernelGet_thread_table capacity device_keys idx l m :
  (kernelGet_thread capacity device_keys idx l m).1.1 = m.1.
Proof.
  destruct l as [h|]; cbn; [|reflexivity].
  destruct (m.1 !! Z.to_nat h); [|reflexivity]. destruct (_ =? _); reflexivity.
Qed.

Lemma kernelGet_start_run sched nBlocks nThreads t capacity device_keys device_values numKeys :
  kernelGet sched nBlocks nThreads t capacity device_keys device_values numKeys =
  synchronize get_returned
    (run (kernelGet_thread capacity device_keys) sched
       (kernelGet_start nBlocks nThreads t capacity device_keys device_values numKeys)).
Proof. reflexivity. Qed.

(** The thread of a key that no slot holds is always probing. *)
Lemma kernelGet_thread_absent sched nBlocks nThreads t capacity device_keys device_values
    numKeys idx :
  Z.of_nat idx < numKeys <= nBlocks * nThreads ->
  (forall j, keys_of t !! j <> Some (device_keys !!! idx)) ->
  exists h,
    (run (kernelGet_thread capacity device_keys) sched
       (kernelGet_start nBlocks nThreads t capacity device_keys device_values numKeys)).2
    !! idx = Some (GProbe h).
Proof.
  intros Hidx Habs.
  set (st0 := kernelGet_start nBlocks nThreads t capacity device_keys device_values numKeys).
  assert (H0 : st0.1.1 = t /\ exists h, st0.2 !! idx = Some (GProbe h)).
  { split; [reflexivity|]. cbn [st0 kernelGet_start snd]. change (map ?f ?l) with (f <$> l).
    rewrite list_lookup_fmap. unfold grid. rewrite lookup_seq_lt by lia. cbn.
    unfold kernelGet_entry. destruct (numKeys <=? Z.of_nat idx) eqn:E; [lia|eauto]. }
  assert (H : (run (kernelGet_thread capacity device_keys) sched st0).1.1 = t /\
              exists h, (run (kernelGet_thread capacity device_keys) sched st0).2 !! idx
                        = Some (GProbe h)).
  { revert H0. generalize st0. clear st0.
    induction sched as [|i sched IH]; intros st H0; [exact H0|].
    rewrite run_cons. apply IH. destruct H0 as [Ht [h Hl]].
    destruct (decide (i = idx)) as [->|Hne].
    - apply get_absent_step; eauto.
    - destruct st as [m pool]. cbn [fst snd] in *.
      destruct (pool !! i) as [l|] eqn:Hi.
      + rewrite (step_some _ _ _ _ _ Hi). cbn [fst snd].
        rewrite kernelGet_thread_table. split; [exact Ht|]. exists h.
        rewrite list_lookup_insert_ne by exact Hne. exact Hl.
      + rewrite step_none by exact Hi. eauto. }
  apply H.
Qed.

Lemma kernelGet_absent sched nBlocks nThreads t capacity device_keys device_values numKeys idx :
  Z.of_nat idx < numKeys <= nBlocks * nThreads ->
  (forall j, keys_of t !! j <> Some (device_keys !!! idx)) ->
  kernelGet sched nBlocks nThreads t capacity device_keys device_values numKeys = None.
Proof.
  intros Hidx Habs. rewrite kernelGet_start_run.
  destruct (kernelGet_thread_absent sched nBlocks nThreads t capacity device_keys
              device_values numKeys idx Hidx Habs) as [h Hl].
  destruct (synchronize get_returned _) as [m|] eqn:E; [|reflexivity].
  apply synchronize_some in E as [_ Hret]. specialize (Hret idx _ Hl). discriminate.
Qed.

Section KernelGetResult.
Variables (sched : list nat) (nBlocks nThreads : Z).
Variables (t : list TableEntry) (capacity : Z) (device_keys device_values : list Z).
Variables (numKeys : Z) (t' : list TableEntry) (out : list Z).
Hypothesis capacity_range : 0 < capacity < uint32_max.
Hypothesis table_length : Z.of_nat (length t) = capacity.
Hypothesis values_length : numKeys <= Z.of_nat (length device_values).
Hypothesis covered : numKeys <= nBlocks * nThreads.
Hypothesis result :
  kernelGet sched nBlocks nThreads t capacity device_keys device_values numKeys
  = Some (t', out).

(** What [kernelGet] returns. *)
Lemma kernelGet_result :
  t' = t /\ length out = length device_values /\
  forall i, Z.of_nat i < numKeys ->
    exists v, out !! i = Some v /\ stored t (device_keys !!! i) v.
Proof.
  unfold kernelGet in result. apply synchronize_some in result as [Hm Hret].
  pose proof (get_inv_init capacity device_keys numKeys t (length device_values)
                capacity_range nBlocks nThreads device_values eq_refl) as Hinit.
  eapply (get_inv_run capacity device_keys numKeys t (length device_values)
            capacity_range) in Hinit; [|exact values_length].
  destruct Hinit as [Ht Hlen Hact Hprobe Hdone].
  rewrite <- Hm in *. cbn [fst snd] in *.
  split; [exact Ht|]. split; [exact Hlen|].
  intros i Hi.
  destruct (lookup_lt_is_Some_2
              (run (kernelGet_thread capacity device_keys) sched
                 (t, device_values,
                  map (kernelGet_entry capacity device_keys numKeys)
                    (grid nBlocks nThreads))).2 i) as [l Hl].
  { rewrite run_pool_length. cbn [snd]. unfold grid. rewrite length_map, length_seq. lia. }
  pose proof (Hret i l Hl) as Hr. destruct l; [discriminate|].
  apply Hdone; assumption.
Qed.
End KernelGetResult.

Lemma slot_of_spec (t : list TableEntry) k :
  (exists j, keys_of t !! j = Some k) ->
  0 <= slot_of t k < Z.of_nat (length t) /\
  exists e, t !! Z.to_nat (slot_of t k) = Some e /\ key e = k.
Proof.
  intros (j & Hj). apply keys_of_lookup in Hj as (e & He & Hk).
  unfold slot_of.
  destruct (list_find_elem_of (fun e => key e = k) t e) as [[j' e'] Hf].
  { eapply list_elem_of_lookup_2, He. }
  { exact Hk. }
  rewrite Hf. apply list_find_Some in Hf as (He' & Hk' & _).
  rewrite Nat2Z.id. split; [|eauto].
  apply lookup_lt_Some in He'. lia.
Qed.

Lemma get_next_distance capacity target h :
  0 < capacity -> 0 <= h < capacity -> 0 <= target < capacity -> h <> target ->
  (target - (h + 1) mod capacity) mod capacity = (target - h) mod capacity - 1.
Proof.
  intros Hc Hh Ht Hne.
  mod_cases_of (h + 1) capacity.
  mod_cases_of (target - h) capacity.
  mod_cases_of (target - (h + 1) mod capacity) capacity. lia.
Qed.

(** [kernelGet] returns along some schedule when every key is in the table. *)
Lemma kernelGet_terminates nBlocks nThreads t capacity device_keys device_values numKeys :
  0 < capacity < uint32_max -> Z.of_nat (length t) = capacity ->
  numKeys <= Z.of_nat (length device_values) ->
  (forall i, Z.of_nat i < numKeys -> exists j, keys_of t !! j = Some (device_keys !!! i)) ->
  exists sched r,
    kernelGet sched nBlocks nThreads t capacity device_keys device_values numKeys = Some r.
Proof.
  intros Hcap Hlen Hdv Hpresent. unfold kernelGet.
  apply (run_complete (kernelGet_thread capacity device_keys) get_returned
           (get_inv capacity device_keys numKeys t (length device_values))
           (get_steps_left capacity (fun i => slot_of t (device_keys !!! i)))).
  - intros. apply get_inv_step; assumption.
  - intros idx l Hr. destruct l; [cbn; lia|discriminate].
  - intros [t1 dv] pool idx l [Ht _ Hact Hprobe _] Hl Hr. cbn [fst snd] in *. subst t1.
    destruct l as [h|]; [|discriminate].
    pose proof (Hprobe idx h Hl) as Hh.
    assert (Hidx : Z.of_nat idx < numKeys) by (eapply Hact; [exact Hl|discriminate]).
    destruct (slot_of_spec t _ (Hpresent idx Hidx)) as (Hs & e0 & He0 & Hk0).
    cbn [kernelGet_thread fst snd].
    destruct (t !! Z.to_nat h) as [e|] eqn:He.
    2:{ apply lookup_ge_None in He. lia. }
    destruct (device_keys !!! idx =? key e) eqn:Ek; cbn [snd get_steps_left]; [lia|].
    apply Z.eqb_neq in Ek.
    rewrite wrap32_small by (unfold uint32_max in *; lia).
    rewrite get_next_distance; try lia.
    + pose proof (Z.mod_pos_bound (slot_of t (device_keys !!! idx) - h) capacity ltac:(lia)).
      assert ((slot_of t (device_keys !!! idx) - h) mod capacity <> 0); [|lia].
      intros Hz. mod_cases_of (slot_of t (device_keys !!! idx) - h) capacity.
      assert (h = slot_of t (device_keys !!! idx)) as -> by lia. congruence.
    + intros ->. congruence.
  - apply get_inv_init; auto.
Qed.

(** The thread of a key that some slot holds returns when it is scheduled
    often enough, and a thread that has returned has copied the value of a
    slot that holds its key. *)
Lemma kernelGet_thread_present nBlocks nThreads t capacity device_keys device_values
    numKeys idx :
  0 < capacity < uint32_max -> Z.of_nat (length t) = capacity ->
  Z.of_nat idx < numKeys <= nBlocks * nThreads ->
  numKeys <= Z.of_nat (length device_values) ->
  (exists j, keys_of t !! j = Some (device_keys !!! idx)) ->
  exists sched,
    (run (kernelGet_thread capacity device_keys) sched
       (kernelGet_start nBlocks nThreads t capacity device_keys device_values numKeys)).2
    !! idx = Some GReturn.
Proof.
  intros Hcap Hlen Hidx Hdv Hpresent.
  destruct (slot_of_spec t _ Hpresent) as (Hs & e0 & He0 & Hk0).
  destruct (run_thread_complete (kernelGet_thread capacity device_keys) get_returned
              (get_inv capacity device_keys numKeys t (length device_values))
              (get_steps_left capacity (fun _ => slot_of t (device_keys !!! idx)) idx) idx)
    with (st := kernelGet_start nBlocks nThreads t capacity device_keys device_values numKeys)
    as (n & l & Hl & Hr).
  - intros. apply get_inv_step; assumption.
  - intros [t1 dv] pool l [Ht _ Hact Hprobe _] Hl Hr. cbn [fst snd] in *. subst t1.
    destruct l as [h|]; [|discriminate].
    pose proof (Hprobe idx h Hl) as Hh.
    cbn [kernelGet_thread fst snd].
    destruct (t !! Z.to_nat h) as [e|] eqn:He.
    2:{ apply lookup_ge_None in He. lia. }
    destruct (device_keys !!! idx =? key e) eqn:Ek; cbn [snd get_steps_left]; [lia|].
    apply Z.eqb_neq in Ek.
    rewrite wrap32_small by (unfold uint32_max in *; lia).
    rewrite get_next_distance; try lia.
    + pose proof (Z.mod_pos_bound (slot_of t (device_keys !!! idx) - h) capacity ltac:(lia)).
      assert ((slot_of t (device_keys !!! idx) - h) mod capacity <> 0); [|lia].
      intros Hz. mod_cases_of (slot_of t (device_keys !!! idx) - h) capacity.
      assert (h = slot_of t (device_keys !!! idx)) as -> by lia. congruence.
    + intros ->. congruence.
  - apply get_inv_init; auto.
  - cbn [kernelGet_start snd]. apply lookup_lt_is_Some_2.
    unfold grid. rewrite length_map, length_seq. lia.
  - exists (replicate n idx). destruct l; [discriminate|exact Hl].
Qed.

Lemma kernelGet_thread_result sched nBlocks nThreads t capacity device_keys device_values
    numKeys idx :
  0 < capacity < uint32_max ->
  Z.of_nat idx < numKeys -> numKeys <= Z.of_nat (length device_values) ->
  let st := run (kernelGet_thread capacity device_keys) sched
              (kernelGet_start nBlocks nThreads t capacity device_keys device_values numKeys) in
  st.2 !! idx = Some GReturn ->
  exists v, st.1.2 !! idx = Some v /\ stored t (device_keys !!! idx) v.
Proof.
  intros Hcap Hidx Hdv st Hl.
  pose proof (get_inv_init capacity device_keys numKeys t (length device_values)
                Hcap nBlocks nThreads device_values eq_refl) as Hinit.
  eapply (get_inv_run capacity device_keys numKeys t (length device_values) Hcap) in Hinit;
    [|exact Hdv].
  destruct Hinit as [_ _ _ _ Hdone]. apply Hdone; [exact Hidx|exact Hl].
Qed.


(** * Well-formed tables *)

Lemma distinct_NoDup (ks : list Z) :
  (forall j1 j2 k, ks !! j1 = Some k -> ks !! j2 = Some k -> k <> KEY_INVALID -> j1 = j2) ->
  NoDup (filter (fun k => k <> KEY_INVALID) ks).
Proof.
  induction ks as [|k0 ks IH]; intros H; [constructor|].
  rewrite filter_cons. case_decide as Hk.
  - constructor.
    + intros Hin. apply list_elem_of_filter in Hin as [_ Hin].
      apply list_elem_of_lookup_1 in Hin as [j Hj].
      specialize (H 0%nat (S j) k0 eq_refl Hj Hk). discriminate.
    + apply IH. intros j1 j2 k H1 H2 Hkk.
      specialize (H (S j1) (S j2) k H1 H2 Hkk). lia.
  - apply IH. intros j1 j2 k H1 H2 Hkk.
    specialize (H (S j1) (S j2) k H1 H2 Hkk). lia.
Qed.

Lemma table_ok_NoDup capacity t : table_ok capacity t -> NoDup (live_keys t).
Proof. intros [_ Hd _]. apply distinct_NoDup. exact Hd. Qed.

Lemma stored_keys_of t k v : stored t k v -> exists j, keys_of t !! j = Some k.
Proof. intros [j Hj]. exists j. apply keys_of_lookup. eexists. split; [exact Hj|reflexivity]. Qed.

Lemma keys_of_stored t j k : keys_of t !! j = Some k -> exists v, stored t k v.
Proof.
  intros Hj. apply keys_of_lookup in Hj as (e & He & <-).
  exists (value e). eapply stored_lookup, He.
Qed.

Lemma stored_unique capacity t k v v' :
  table_ok capacity t -> k <> KEY_INVALID -> stored t k v -> stored t k v' -> v = v'.
Proof.
  intros [_ Hd _] Hk [j Hj] [j' Hj'].
  assert (j = j').
  { apply (Hd j j' k); [| |exact Hk]; apply keys_of_lookup; eexists; split; eauto. }
  subst j'. congruence.
Qed.

Lemma stored_live t k v : k <> KEY_INVALID -> stored t k v -> k ∈ live_keys t.
Proof.
  intros Hk [j Hj]. apply live_keys_elem. split; [exact Hk|]. eauto.
Qed.

Lemma live_stored t k : k ∈ live_keys t -> k <> KEY_INVALID /\ exists v, stored t k v.
Proof.
  intros H. apply live_keys_elem in H as [Hk (i & e & Hi & <-)].
  split; [exact Hk|]. exists (value e). eapply stored_lookup, Hi.
Qed.

Lemma wf_new size :
  0 < size < 2147483648 -> wf (GpuHashTable_new size).
Proof.
  intros Hs. split; cbn.
  - exact Hs.
  - apply table_ok_memset. lia.
  - symmetry. apply live_memset.
Qed.

(** The number of live keys after new keys came in. *)
Lemma live_after (t t' : list TableEntry) (ks : list Z) :
  NoDup (live_keys t) -> NoDup (live_keys t') ->
  (forall k, k ∈ live_keys t' <-> k ∈ live_keys t \/ k ∈ ks) ->
  live t' = live t +
    Z.of_nat (length (list_difference (remove_dups ks) (live_keys t))).
Proof.
  intros Hn Hn' Hiff. unfold live.
  rewrite <- Nat2Z.inj_add. f_equal.
  rewrite Nat.add_comm, <- length_app.
  apply Permutation_length. apply NoDup_Permutation.
  - exact Hn'.
  - apply list.NoDup_app. split; [|split].
    + apply NoDup_list_difference, NoDup_remove_dups.
    + intros k Hk. apply list_elem_of_difference in Hk as [_ Hk]. exact Hk.
    + exact Hn.
  - intros k. rewrite Hiff, elem_of_app, list_elem_of_difference, elem_of_remove_dups.
    destruct (decide (k ∈ live_keys t)); tauto.
Qed.

Lemma elem_of_lookup_total (ks : list Z) k :
  k ∈ ks <-> exists i, Z.of_nat i < Z.of_nat (length ks) /\ ks !!! i = k.
Proof.
  split.
  - intros H. apply list_elem_of_lookup_1 in H as [i Hi]. exists i.
    split; [apply lookup_lt_Some in Hi; lia|]. apply list_lookup_total_correct, Hi.
  - intros (i & Hi & <-). apply list_elem_of_lookup_total_2. lia.
Qed.

(** * reshape *)

Section Api.
Variable maxThreadsPerBlock : Z.
Hypothesis threads_pos : 0 < maxThreadsPerBlock.

Lemma reshape_fields sched this c s' :
  reshape maxThreadsPerBlock sched this c = Some s' ->
  capacity s' = c /\ used_buckets s' = used_buckets this /\ 0 <= c /\
  kernelReshape sched (estimateBlockSize maxThreadsPerBlock (capacity this)).1
    (estimateBlockSize maxThreadsPerBlock (capacity this)).2
    (table this) (capacity this) (cudaMemset_table KEY_INVALID c) c = Some (table s').
Proof.
  unfold reshape. destruct (c <? 0) eqn:Ec; [discriminate|]. apply Z.ltb_ge in Ec.
  destruct (estimateBlockSize maxThreadsPerBlock (capacity this)) as [nB nT] eqn:E.
  cbn [fst snd].
  destruct (kernelReshape _ _ _ _ _ _ _) as [t'|]; [|discriminate].
  intros [= <-]. cbn. auto.
Qed.

Lemma covers_fst_snd nItems :
  0 <= nItems ->
  nItems <= (estimateBlockSize maxThreadsPerBlock nItems).1
            * (estimateBlockSize maxThreadsPerBlock nItems).2.
Proof.
  intros Hn. pose proof (estimateBlockSize_covers maxThreadsPerBlock nItems threads_pos Hn).
  destruct (estimateBlockSize maxThreadsPerBlock nItems). exact H.
Qed.

(** [reshape] into a table with room for the live entries. *)
Lemma reshape_spec sched this c s' :
  Z.of_nat (length (table this)) = capacity this ->
  NoDup (live_keys (table this)) ->
  (forall j1 j2 k, keys_of (table this) !! j1 = Some k ->
     keys_of (table this) !! j2 = Some k -> k <> KEY_INVALID -> j1 = j2) ->
  live (table this) <= c -> 0 < c < uint32_max ->
  reshape maxThreadsPerBlock sched this c = Some s' ->
  capacity s' = c /\ used_buckets s' = used_buckets this /\
  table_ok c (table s') /\ live (table s') = live (table this) /\
  (forall k v, k <> KEY_INVALID -> stored (table this) k v -> stored (table s') k v) /\
  (forall k, k ∈ live_keys (table s') -> k ∈ live_keys (table this)).
Proof.
  intros Hlen _ Hdist Hroom Hc Hr.
  apply reshape_fields in Hr as (Hcap & Hused & _ & Hk).
  pose proof (covers_fst_snd (capacity this) ltac:(lia)) as Hcov.
  destruct (kernelReshape_room _ _ _ _ _ _ _ Hlen Hcov Hk Hc Hdist Hroom)
    as (Htab & Hlive & Hkeep & Horig).
  repeat split; try assumption.
  - apply Htab.
  - apply Htab.
  - apply Htab.
  - intros k v Hkv [j Hj]. apply (Hkeep j _ Hj). exact Hkv.
  - intros k Hkl. apply live_keys_elem in Hkl as [Hkv (j & e & Hj & <-)].
    destruct (Horig j (key e)) as [j0 Hj0]; [apply keys_of_lookup; eauto|exact Hkv|].
    apply keys_of_lookup in Hj0 as (e0 & He0 & Hk0).
    apply live_keys_elem. split; [exact Hkv|]. eauto.
Qed.

Lemma reshape_returns this c :
  Z.of_nat (length (table this)) = capacity this ->
  (0 < c < 2147483648 \/ (c = 0 /\ live (table this) = 0)) ->
  exists sched s', reshape maxThreadsPerBlock sched this c = Some s'.
Proof.
  intros Hlen Hc. unfold reshape.
  destruct (c <? 0) eqn:Ec; [apply Z.ltb_lt in Ec; lia|].
  destruct (estimateBlockSize maxThreadsPerBlock (capacity this)) as [nB nT].
  destruct Hc as [Hc|[-> Hlive]].
  - destruct (kernelReshape_terminates nB nT (table this) (capacity this) c)
      as (sched & r & Hr); [unfold uint32_max; lia|].
    exists sched. rewrite Hr. eauto.
  - exists []. rewrite kernelReshape_empty by assumption. eauto.
Qed.

Lemma reshape_length sched this c s' :
  0 < c < uint32_max ->
  reshape maxThreadsPerBlock sched this c = Some s' ->
  Z.of_nat (length (table s')) = c.
Proof.
  intros Hc Hr. apply reshape_fields in Hr as (_ & _ & _ & Hk).
  apply kernelReshape_claim in Hk. apply synchronize_some in Hk as [Hm _].
  pose proof (claim_bounds_init c (reshape_keyof (table this))
                (reshape_active (table this) (capacity this))
                (cudaMemset_table KEY_INVALID c) 0
                (Z.to_nat ((estimateBlockSize maxThreadsPerBlock (capacity this)).1 *
                           (estimateBlockSize maxThreadsPerBlock (capacity this)).2))
                ltac:(lia) (memset_length c ltac:(lia))) as Hb.
  eapply (run_invariant _ (claim_bounds c)) in Hb.
  - destruct Hb as [Hlen _]. unfold grid in Hm. rewrite <- Hm in Hlen. exact Hlen.
  - intros st idx. apply claim_bounds_step. exact Hc.
Qed.

(** * insertBatch *)

Lemma insertBatch_zero scheds this keys values :
  insertBatch maxThreadsPerBlock scheds this keys values 0 = Some (this, false).
Proof. reflexivity. Qed.

Lemma insertBatch_unfold scheds this keys values numKeys s' b :
  numKeys <> 0 ->
  insertBatch maxThreadsPerBlock scheds this keys values numKeys = Some (s', b) ->
  exists s1 t' cnt',
    ((float32_gt (loadFactor (wrap32 (used_buckets this + numKeys)) (capacity this))
        MAX_LOAD_FACTOR = true /\
      exists c,
        int_of_float32
          (float32_div (float_of_uint32 (wrap32 (used_buckets this + numKeys)))
             MIN_LOAD_FACTOR) = Some c /\
        reshape maxThreadsPerBlock scheds.1 this c = Some s1) \/
     (float32_gt (loadFactor (wrap32 (used_buckets this + numKeys)) (capacity this))
        MAX_LOAD_FACTOR = false /\ s1 = this)) /\
    kernelInsert scheds.2 (estimateBlockSize maxThreadsPerBlock numKeys).1
      (estimateBlockSize maxThreadsPerBlock numKeys).2 (table s1) (capacity s1)
      (take (Z.to_nat numKeys) keys) (take (Z.to_nat numKeys) values) numKeys 0
    = Some (t', cnt') /\
    s' = {| table := t'; capacity := capacity s1;
            used_buckets := wrap32 (used_buckets s1 + wrap32 (numKeys - cnt')) |} /\
    b = true.
Proof.
  intros Hn. unfold insertBatch.
  destruct (numKeys =? 0) eqn:E; [apply Z.eqb_eq in E; contradiction|].
  destruct (estimateBlockSize maxThreadsPerBlock numKeys) as [nB nT]. cbn [fst snd].
  destruct (float32_gt _ MAX_LOAD_FACTOR) eqn:Egt.
  - destruct (int_of_float32 _) as [c|] eqn:Ec; [|discriminate].
    destruct (reshape maxThreadsPerBlock scheds.1 this c) as [s1|] eqn:Er; [|discriminate].
    destruct (kernelInsert _ _ _ _ _ _ _ _ _) as [[t' cnt']|] eqn:Ek; [|discriminate].
    intros [= <- <-]. exists s1, t', cnt'. split; [left; eauto|]. auto.
  - destruct (kernelInsert _ _ _ _ _ _ _ _ _) as [[t' cnt']|] eqn:Ek; [|discriminate].
    intros [= <- <-]. exists this, t', cnt'. split; [right; eauto|]. auto.
Qed.

Lemma take_lookup_total (l : list Z) n i : (i < n)%nat -> take n l !!! i = l !!! i.
Proof.
  intros Hi. rewrite !list_lookup_total_alt, lookup_take_lt by exact Hi. reflexivity.
Qed.

(** The insert kernel on a well-formed table with room for the batch. *)
Lemma insert_kernel_spec sched t capacity keys values numKeys t' cnt' :
  table_ok capacity t -> 0 < capacity < 2147483648 ->
  0 < numKeys -> live t + numKeys <= capacity ->
  (forall i, Z.of_nat i < numKeys -> keys !!! i <> KEY_INVALID) ->
  kernelInsert sched (estimateBlockSize maxThreadsPerBlock numKeys).1
    (estimateBlockSize maxThreadsPerBlock numKeys).2 t capacity
    (take (Z.to_nat numKeys) keys) (take (Z.to_nat numKeys) values) numKeys 0
  = Some (t', cnt') ->
  table_ok capacity t' /\ 0 <= cnt' <= numKeys /\ live t' = live t + numKeys - cnt' /\
  (forall i, Z.of_nat i < numKeys ->
     exists i', Z.of_nat i' < numKeys /\ keys !!! i' = keys !!! i /\
       stored t' (keys !!! i) (values !!! i')) /\
  (forall k v, k <> KEY_INVALID -> stored t k v ->
     (forall i, Z.of_nat i < numKeys -> keys !!! i <> k) -> stored t' k v) /\
  (forall k, k ∈ live_keys t' <->
     k ∈ live_keys t \/ exists i, Z.of_nat i < numKeys /\ keys !!! i = k).
Proof.
  intros Htab Hcap Hn Hroom Hvalid Hk.
  pose proof (covers_fst_snd numKeys ltac:(lia)) as Hcov.
  assert (Hdk : forall i, Z.of_nat i < numKeys ->
            take (Z.to_nat numKeys) keys !!! i = keys !!! i)
    by (intros; apply take_lookup_total; lia).
  assert (Hdv : forall i, Z.of_nat i < numKeys ->
            take (Z.to_nat numKeys) values !!! i = values !!! i)
    by (intros; apply take_lookup_total; lia).
  pose proof (live_le_length t) as Hlive.
  assert (Hnr : 0 <= numKeys < uint32_max) by (unfold uint32_max; lia).
  destruct (kernelInsert_always _ _ _ _ _ _ _ _ _ _ Hnr Hcov Hk)
    as (Hlen & Hcnt & Hframe & Hstable & Horig).
  destruct (kernelInsert_room _ _ _ _ _ _ _ _ _ _ Hnr Hcov Hk)
    as (Htab' & _ & Hacc & Hdone);
    [unfold uint32_max; lia|exact Htab| |exact Hroom|].
  { intros i Hi. rewrite Hdk by exact Hi. apply Hvalid, Hi. }
  split; [exact Htab'|]. split; [exact Hcnt|]. split; [lia|]. split; [|split].
  - intros i Hi. destruct (Hdone i Hi) as (j & e & i' & Hj & Hke & Hi' & Hk' & Hv).
    exists i'. rewrite !Hdk in * by assumption. rewrite Hdv in Hv by assumption.
    split; [exact Hi'|]. split; [exact Hk'|].
    rewrite <- Hke, <- Hv. eapply stored_lookup, Hj.
  - intros k v Hkv [j Hj] Hno. exists j. apply Hframe; [exact Hj|exact Hkv|].
    intros i Hi. rewrite Hdk by exact Hi. cbn. apply Hno, Hi.
  - intros k. rewrite !live_keys_elem. split.
    + intros [Hkv (j & e & Hj & <-)].
      destruct (Horig j (key e)) as [?|[Hj0|(i & Hi & Hki)]];
        [apply keys_of_lookup; eauto|contradiction| |].
      * left. split; [exact Hkv|]. apply keys_of_lookup in Hj0 as (e0 & ? & ?). eauto.
      * right. exists i. rewrite <- Hdk by exact Hi. auto.
    + intros [[Hkv (j & e & Hj & <-)]|(i & Hi & <-)].
      * split; [exact Hkv|]. exists j. apply keys_of_lookup.
        eapply Hstable; [|exact Hkv]. apply keys_of_lookup. eauto.
      * split; [apply Hvalid, Hi|].
        destruct (Hdone i Hi) as (j & e & i' & Hj & Hke & _).
        rewrite Hdk in Hke by exact Hi. eauto.
Qed.

Lemma insertBatch_capacity scheds this keys values numKeys s' b :
  numKeys <> 0 ->
  insertBatch maxThreadsPerBlock scheds this keys values numKeys = Some (s', b) ->
  (float32_gt (loadFactor (wrap32 (used_buckets this + numKeys)) (capacity this))
     MAX_LOAD_FACTOR = true /\
   int_of_float32
     (float32_div (float_of_uint32 (wrap32 (used_buckets this + numKeys)))
        MIN_LOAD_FACTOR) = Some (capacity s')) \/
  (float32_gt (loadFactor (wrap32 (used_buckets this + numKeys)) (capacity this))
     MAX_LOAD_FACTOR = false /\ capacity s' = capacity this).
Proof.
  intros Hn Hr.
  destruct (insertBatch_unfold _ _ _ _ _ _ _ Hn Hr) as (s1 & t' & cnt' & Hs1 & _ & -> & _).
  cbn [capacity].
  destruct Hs1 as [(Hgt & c & Hc & Hre)|(Hgt & ->)]; [left|right; auto].
  apply reshape_fields in Hre as (-> & _). auto.
Qed.

(** What the resize step of [insertBatch] leaves for the insert kernel. *)
Lemma insertBatch_resized scheds this numKeys s1 :
  wf this -> 0 < numKeys -> used_buckets this + numKeys <= 1000000000 ->
  ((float32_gt (loadFactor (wrap32 (used_buckets this + numKeys)) (capacity this))
      MAX_LOAD_FACTOR = true /\
    exists c,
      int_of_float32
        (float32_div (float_of_uint32 (wrap32 (used_buckets this + numKeys)))
           MIN_LOAD_FACTOR) = Some c /\
      reshape maxThreadsPerBlock scheds this c = Some s1) \/
   (float32_gt (loadFactor (wrap32 (used_buckets this + numKeys)) (capacity this))
      MAX_LOAD_FACTOR = false /\ s1 = this)) ->
  table_ok (capacity s1) (table s1) /\ 0 < capacity s1 < 2147483648 /\
  live (table s1) + numKeys <= capacity s1 /\
  used_buckets s1 = used_buckets this /\ live (table s1) = live (table this) /\
  (forall k v, k <> KEY_INVALID -> stored (table this) k v -> stored (table s1) k v) /\
  (forall k, k ∈ live_keys (table s1) <-> k ∈ live_keys (table this)).
Proof.
  intros [Hcap Htab Hused] Hn Hbound Hs1.
  pose proof (live_le_length (table this)) as Hlive.
  assert (Hw : wrap32 (used_buckets this + numKeys) = used_buckets this + numKeys)
    by (apply wrap32_small; unfold uint32_max; lia).
  rewrite Hw in Hs1.
  destruct Hs1 as [(Hgt & c & Hc & Hre)|(Hgt & ->)].
  - destruct (new_capacity_spec (used_buckets this + numKeys) ltac:(lia))
      as (c0 & Hc0 & Hrange & _).
    assert (c0 = c) as -> by congruence.
    assert (Hroom : live (table this) <= c) by lia.
    assert (Hcr : 0 < c < uint32_max) by (unfold uint32_max; lia).
    destruct (reshape_spec _ _ _ _ (ok_length _ _ Htab) (table_ok_NoDup _ _ Htab)
                (ok_distinct _ _ Htab) Hroom Hcr Hre)
      as (Hcap1 & Hused1 & Htab1 & Hlive1 & Hkeep & Horig).
    rewrite Hcap1. repeat split; try lia; try apply Htab1; try assumption.
    + apply Horig.
    + intros Hk. apply live_stored in Hk as [Hkv [v Hv]].
      eapply stored_live; [exact Hkv|]. apply Hkeep; eassumption.
  - pose proof (no_resize_room (used_buckets this + numKeys) (capacity this)
                  ltac:(lia) ltac:(lia) Hgt).
    repeat split; try lia; try apply Htab; auto.
Qed.

(** [insertBatch] on a well-formed table. *)
Lemma insertBatch_spec scheds this keys values numKeys s' b :
  wf this -> 0 < numKeys -> used_buckets this + numKeys <= 1000000000 ->
  (forall i, Z.of_nat i < numKeys -> keys !!! i <> KEY_INVALID) ->
  insertBatch maxThreadsPerBlock scheds this keys values numKeys = Some (s', b) ->
  b = true /\ wf s' /\
  (exists cnt, 0 <= cnt <= numKeys /\
     used_buckets s' = used_buckets this + numKeys - cnt) /\
  (forall i, Z.of_nat i < numKeys ->
     exists i', Z.of_nat i' < numKeys /\ keys !!! i' = keys !!! i /\
       stored (table s') (keys !!! i) (values !!! i')) /\
  (forall k v, k <> KEY_INVALID -> stored (table this) k v ->
     (forall i, Z.of_nat i < numKeys -> keys !!! i <> k) -> stored (table s') k v) /\
  (forall k, k ∈ live_keys (table s') <->
     k ∈ live_keys (table this) \/ exists i, Z.of_nat i < numKeys /\ keys !!! i = k).
Proof.
  intros Hwf Hn Hbound Hvalid Hr.
  assert (Hn0 : numKeys <> 0) by lia.
  destruct (insertBatch_unfold _ _ _ _ _ _ _ Hn0 Hr)
    as (s1 & t' & cnt' & Hs1 & Hk & -> & ->).
  destruct (insertBatch_resized _ _ _ _ Hwf Hn Hbound Hs1)
    as (Htab1 & Hcap1 & Hroom1 & Hused1 & Hlive1 & Hkeep1 & Hlk1).
  destruct (insert_kernel_spec _ _ _ _ _ _ _ _ Htab1 Hcap1 Hn Hroom1 Hvalid Hk)
    as (Htab' & Hcnt & Hlive' & Hbatch & Hframe & Hlk').
  destruct Hwf as [Hcap Htab Hused].
  pose proof (live_le_length (table this)) as Hlive.
  assert (Hu : wrap32 (used_buckets s1 + wrap32 (numKeys - cnt'))
               = used_buckets this + numKeys - cnt').
  { rewrite (wrap32_small (numKeys - cnt')) by (unfold uint32_max; lia).
    rewrite wrap32_small by (unfold uint32_max; lia). lia. }
  cbn [table capacity used_buckets]. rewrite Hu.
  split; [reflexivity|]. split; [|split; [|split; [|split]]].
  - split; cbn [table capacity used_buckets]; [exact Hcap1|exact Htab'|lia].
  - exists cnt'. auto.
  - exact Hbatch.
  - intros k v Hkv Hst Hno. apply Hframe; auto.
  - intros k. rewrite Hlk', Hlk1. reflexivity.
Qed.

(** [insertBatch] returns along some schedules. *)
Lemma insertBatch_returns this keys values numKeys :
  Z.of_nat (length (table this)) = capacity this ->
  0 <= used_buckets this -> 0 < numKeys ->
  used_buckets this + numKeys <= 1000000000 ->
  capacity this < uint32_max ->
  exists scheds s',
    insertBatch maxThreadsPerBlock scheds this keys values numKeys = Some (s', true).
Proof.
  intros Hlen Hused Hn Hbound Hcap. unfold insertBatch.
  destruct (numKeys =? 0) eqn:E; [apply Z.eqb_eq in E; lia|].
  rewrite (wrap32_small (used_buckets this + numKeys)) by (unfold uint32_max; lia).
  destruct (estimateBlockSize maxThreadsPerBlock numKeys) as [nB nT].
  destruct (float32_gt _ MAX_LOAD_FACTOR) eqn:Egt.
  - destruct (new_capacity_spec (used_buckets this + numKeys) ltac:(lia))
      as (c & Hc & Hrange & _).
    rewrite Hc.
    destruct (reshape_returns this c Hlen ltac:(lia)) as (sr & s1 & Hre).
    assert (Hcr : 0 < c < uint32_max) by (unfold uint32_max; lia).
    pose proof (reshape_length _ _ _ _ Hcr Hre) as Hlen1.
    pose proof (reshape_fields _ _ _ _ Hre) as (Hcap1 & _).
    destruct (kernelInsert_terminates nB nT (table s1) (capacity s1)
                (take (Z.to_nat numKeys) keys) (take (Z.to_nat numKeys) values) numKeys)
      as (si & [t' cnt'] & Hk); [unfold uint32_max; lia|lia|].
    exists (sr, si). cbn [fst snd]. rewrite Hre, Hk. eauto.
  - assert (0 < capacity this).
    { destruct (Z.eq_dec (capacity this) 0) as [E0|E0].
      - rewrite E0, loadFactor_gt_max_zero in Egt by lia. discriminate.
      - lia. }
    destruct (kernelInsert_terminates nB nT (table this) (capacity this)
                (take (Z.to_nat numKeys) keys) (take (Z.to_nat numKeys) values) numKeys)
      as (si & [t' cnt'] & Hk); [lia|lia|].
    exists ([], si). cbn [fst snd]. rewrite Hk. eauto.
Qed.

(** * getBatch *)

Lemma getBatch_zero sched this keys :
  getBatch maxThreadsPerBlock sched this keys 0 = Some (this, None).
Proof. reflexivity. Qed.

Lemma getBatch_spec sched this keys numKeys s' r :
  0 < capacity this < uint32_max ->
  Z.of_nat (length (table this)) = capacity this ->
  0 < numKeys ->
  getBatch maxThreadsPerBlock sched this keys numKeys = Some (s', r) ->
  s' = this /\
  exists out, r = Some out /\ Z.of_nat (length out) = numKeys /\
    forall i, Z.of_nat i < numKeys ->
      exists v, out !! i = Some v /\ stored (table this) (keys !!! i) v.
Proof.
  intros Hcap Hlen Hn. unfold getBatch.
  destruct (numKeys =? 0) eqn:E; [apply Z.eqb_eq in E; lia|].
  pose proof (covers_fst_snd numKeys ltac:(lia)) as Hcov.
  destruct (estimateBlockSize maxThreadsPerBlock numKeys) as [nB nT]. cbn [fst snd] in Hcov.
  destruct (kernelGet _ _ _ _ _ _ _ _) as [[t' out]|] eqn:Hk; [|discriminate].
  intros [= <- <-].
  assert (Hdv : numKeys <= Z.of_nat (length (replicate (Z.to_nat numKeys) 0)))
    by (rewrite length_replicate; lia).
  destruct (kernelGet_result _ _ _ _ _ _ _ _ _ _ Hcap Hdv Hcov Hk)
    as (-> & Hlo & Hout).
  split; [destruct this; reflexivity|].
  exists out. split; [reflexivity|]. split.
  - rewrite Hlo, length_replicate. lia.
  - intros i Hi. destruct (Hout i Hi) as (v & Hv & Hst).
    rewrite take_lookup_total in Hst by lia. eauto.
Qed.

Lemma getBatch_returns this keys numKeys :
  0 < capacity this < uint32_max ->
  Z.of_nat (length (table this)) = capacity this ->
  0 < numKeys ->
  (forall i, Z.of_nat i < numKeys ->
     exists j, keys_of (table this) !! j = Some (keys !!! i)) ->
  exists sched r, getBatch maxThreadsPerBlock sched this keys numKeys = Some r.
Proof.
  intros Hcap Hlen Hn Hpresent. unfold getBatch.
  destruct (numKeys =? 0) eqn:E; [apply Z.eqb_eq in E; lia|].
  destruct (estimateBlockSize maxThreadsPerBlock numKeys) as [nB nT].
  destruct (kernelGet_terminates nB nT (table this) (capacity this)
              (take (Z.to_nat numKeys) keys) (replicate (Z.to_nat numKeys) 0) numKeys
              Hcap Hlen) as (sched & [t' out] & Hk).
  - rewrite length_replicate. lia.
  - intros i Hi. rewrite take_lookup_total by lia. apply Hpresent, Hi.
  - exists sched. rewrite Hk. eauto.
Qed.

(** [getBatch] does not return when a key of the batch is in no slot. *)
Lemma getBatch_hangs sched this keys numKeys i :
  Z.of_nat i < numKeys ->
  (forall j, keys_of (table this) !! j <> Some (keys !!! i)) ->
  getBatch maxThreadsPerBlock sched this keys numKeys = None.
Proof.
  intros Hi Habs. unfold getBatch.
  destruct (numKeys =? 0) eqn:E; [apply Z.eqb_eq in E; lia|].
  pose proof (covers_fst_snd numKeys ltac:(lia)) as Hcov.
  destruct (estimateBlockSize maxThreadsPerBlock numKeys) as [nB nT]. cbn [fst snd] in Hcov.
  rewrite (kernelGet_absent _ _ _ _ _ _ _ _ i); [reflexivity|lia|].
  rewrite take_lookup_total by lia. exact Habs.
Qed.

(** [used_buckets] grows by the number of keys of the batch that are
    new. *)
Lemma insertBatch_used scheds this keys values s' b :
  wf this -> keys <> [] ->
  used_buckets this + Z.of_nat (length keys) <= 1000000000 ->
  Forall (fun k => k <> KEY_INVALID) keys ->
  insertBatch maxThreadsPerBlock scheds this keys values (Z.of_nat (length keys))
  = Some (s', b) ->
  used_buckets s' = used_buckets this +
    Z.of_nat (length (list_difference (remove_dups keys) (live_keys (table this)))).
Proof.
  intros Hwf Hne Hbound Hvalid Hr.
  assert (Hn : 0 < Z.of_nat (length keys)) by (destruct keys; [contradiction|cbn; lia]).
  assert (Hv : forall i, Z.of_nat i < Z.of_nat (length keys) -> keys !!! i <> KEY_INVALID).
  { intros i Hi. rewrite list.Forall_forall in Hvalid. apply Hvalid.
    apply list_elem_of_lookup_total_2. lia. }
  destruct (insertBatch_spec _ _ _ _ _ _ _ Hwf Hn Hbound Hv Hr)
    as (_ & Hwf' & _ & _ & _ & Hlk).
  rewrite (wf_used _ Hwf'), (wf_used _ Hwf).
  apply live_after.
  - eapply table_ok_NoDup, wf_table, Hwf.
  - eapply table_ok_NoDup, wf_table, Hwf'.
  - intros k. rewrite Hlk, (elem_of_lookup_total keys). reflexivity.
Qed.
End Api.


(** * Sequences of calls of insertBatch *)

Lemma batches_size_app bs1 bs2 :
  batches_size (bs1 ++ bs2) = batches_size bs1 + batches_size bs2.
Proof. unfold batches_size. rewrite map_app, concat_app, length_app. lia. Qed.

Lemma batches_size_one b : batches_size [b] = Z.of_nat (length (batch_keys b)).
Proof. unfold batches_size. cbn. rewrite app_nil_r. reflexivity. Qed.

Lemma batches_size_nonneg bs : 0 <= batches_size bs.
Proof. unfold batches_size. lia. Qed.

Lemma written_last_later bs b k v :
  written_last bs k v -> k ∉ batch_keys b -> written_last (bs ++ [b]) k v.
Proof.
  intros (bs1 & b0 & bs2 & i & -> & Hk & Hv & Hno) Hnot.
  exists bs1, b0, (bs2 ++ [b]), i. rewrite <- app_assoc. repeat split; auto.
  apply Forall_app. split; [exact Hno|]. constructor; [exact Hnot|constructor].
Qed.

Lemma written_last_here bs b i k v :
  batch_keys b !! i = Some k -> batch_values b !! i = Some v ->
  written_last (bs ++ [b]) k v.
Proof. intros Hk Hv. exists bs, b, [], i. repeat split; auto. Qed.

Lemma inserted_app bs b k :
  inserted (bs ++ [b]) k <-> inserted bs k \/ k ∈ batch_keys b.
Proof.
  unfold inserted. rewrite Exists_app, Exists_cons, Exists_nil. tauto.
Qed.

Lemma history_new size : 0 < size < 2147483648 -> history_inv [] (GpuHashTable_new size).
Proof.
  intros Hs. split.
  - apply wf_new, Hs.
  - cbn. unfold batches_size. cbn. lia.
  - intros k v Hk [j Hj]. cbn in Hj. apply memset_lookup in Hj. congruence.
  - intros k Hk. apply Exists_nil in Hk. contradiction.
Qed.

Section Histories.
Variable maxThreadsPerBlock : Z.
Hypothesis threads_pos : 0 < maxThreadsPerBlock.

Lemma history_step bs b this s' r :
  history_inv bs this -> batch_ok b ->
  batches_size (bs ++ [b]) <= 1000000000 ->
  insertBatch maxThreadsPerBlock b.1 this (batch_keys b) (batch_values b)
    (Z.of_nat (length (batch_keys b))) = Some (s', r) ->
  history_inv (bs ++ [b]) s'.
Proof.
  intros [Hwf Hused Hst Hins] [Hlen Hvalid] Hsize Hr.
  rewrite batches_size_app, batches_size_one in Hsize.
  destruct (batch_keys b) as [|k0 ks] eqn:Eks.
  - (* an empty batch changes nothing *)
    cbn in Hr. injection Hr as <- <-. split.
    + exact Hwf.
    + rewrite batches_size_app, batches_size_one, Eks. cbn. lia.
    + intros k v Hk Hkv. apply written_last_later; [auto|]. rewrite Eks. apply not_elem_of_nil.
    + intros k Hk. apply inserted_app in Hk as [Hk|Hk]; [auto|].
      rewrite Eks in Hk. apply elem_of_nil in Hk. contradiction.
  - rewrite <- Eks in *.
    set (n := Z.of_nat (length (batch_keys b))) in *.
    assert (Hn : 0 < n) by (subst n; rewrite Eks; cbn; lia).
    assert (Hv : forall i, Z.of_nat i < n -> batch_keys b !!! i <> KEY_INVALID).
    { intros i Hi. rewrite list.Forall_forall in Hvalid. apply Hvalid.
      apply list_elem_of_lookup_total_2. lia. }
    pose proof (batches_size_nonneg bs).
    destruct (insertBatch_spec maxThreadsPerBlock threads_pos _ _ _ _ _ _ _ Hwf Hn
                ltac:(lia) Hv Hr)
      as (_ & Hwf' & (cnt & Hcnt & Hu) & Hbatch & Hframe & Hlk).
    split.
    + exact Hwf'.
    + rewrite batches_size_app, batches_size_one. fold n. lia.
    + intros k v Hk Hkv.
      destruct (decide (k ∈ batch_keys b)) as [Hin|Hnot].
      * apply elem_of_lookup_total in Hin as (i & Hi & Hki).
        destruct (Hbatch i Hi) as (i' & Hi' & Hk' & Hst').
        rewrite Hki in *.
        assert (v = batch_values b !!! i') as ->.
        { eapply stored_unique; [apply Hwf'|exact Hk|exact Hkv|exact Hst']. }
        apply (written_last_here _ _ i').
        -- rewrite <- Hk'. apply list_lookup_lookup_total_lt. lia.
        -- apply list_lookup_lookup_total_lt. lia.
      * assert (Hlive : k ∈ live_keys (table this)).
        { pose proof (stored_live _ _ _ Hk Hkv) as Hl. apply Hlk in Hl as [Hl|(i & Hi & Hki)];
            [exact Hl|]. exfalso. apply Hnot. apply elem_of_lookup_total. eauto. }
        apply live_stored in Hlive as [_ [v0 Hv0]].
        assert (v = v0) as ->.
        { eapply stored_unique; [apply Hwf'|exact Hk|exact Hkv|].
          apply Hframe; [exact Hk|exact Hv0|].
          intros i Hi Hki. apply Hnot. apply elem_of_lookup_total. eauto. }
        apply written_last_later; auto.
    + intros k Hk. apply Hlk. apply inserted_app in Hk as [Hk|Hk]; [auto|].
      right. apply elem_of_lookup_total in Hk. exact Hk.
Qed.

Lemma history_run bs : forall pre this s,
  history_inv pre this -> Forall batch_ok bs ->
  batches_size (pre ++ bs) <= 1000000000 ->
  insertBatches maxThreadsPerBlock bs this = Some s ->
  history_inv (pre ++ bs) s.
Proof.
  induction bs as [|b bs IH]; intros pre this s Hinv Hok Hsize Hrun.
  - cbn in Hrun. injection Hrun as <-. rewrite app_nil_r. exact Hinv.
  - cbn [insertBatches] in Hrun.
    destruct (insertBatch _ _ _ _ _ _) as [[s1 r]|] eqn:Hr; [|discriminate].
    inversion Hok as [|? ? Hb Hok']; subst.
    replace (pre ++ b :: bs) with ((pre ++ [b]) ++ bs) in * by (rewrite <- app_assoc; reflexivity).
    apply (IH _ s1); auto.
    eapply history_step; eauto.
    rewrite batches_size_app in Hsize. pose proof (batches_size_nonneg bs). lia.
Qed.
End Histories.

(** * The claims *)

(** An output of one cell is determined by its cell. *)
Lemma length_one_list (out : list Z) v :
  length out = 1%nat -> out !! 0%nat = Some v -> out = [v].
Proof. destruct out as [|x [|y out]]; cbn; intros H1 H2; try discriminate. congruence. Qed.

Lemma written_last_inserted bs k v : written_last bs k v -> inserted bs k.
Proof.
  intros (bs1 & b & bs2 & i & -> & Hk & _ & _).
  apply Exists_app. right. apply Exists_cons_hd. eapply list_elem_of_lookup_2, Hk.
Qed.

(** C1, as stated, fails: the key 1 was inserted, and a [getBatch] that asks
    for it together with the key 9, which was not, never returns. *)
Lemma C1_counterexample :
  exists s,
    insertBatches 4 [(([], concat (replicate 8 (seq 0 4))), ([1; 2; 3], [10; 20; 30]))]
      (GpuHashTable_new 8) = Some s /\
    inserted [(([], concat (replicate 8 (seq 0 4))), ([1; 2; 3], [10; 20; 30]))] 1 /\
    forall sched, getBatch 4 sched s [1; 9] 2 = None.
Proof.
  eexists. split; [vm_compute; reflexivity|]. split.
  - apply Exists_cons_hd. apply (bool_decide_unpack (1 ∈ [1; 2; 3])). exact I.
  - intros sched. apply (getBatch_hangs 4 ltac:(lia) sched _ [1; 9] 2 1%nat); [lia|].
    intros j Hj. vm_compute in Hj.
    do 8 (destruct j as [|j]; [discriminate|]). discriminate.
Qed.

(** C1 (round trip), amended.  A table is created and filled by any sequence
    of calls of [insertBatch] whose batches never hold the reserved key (at
    most 10^9 pairs in all, so that no 32-bit counter wraps).  Then every
    call of [getBatch] that returns gives, at the position of each key [k]
    that was inserted, a value written for [k] by the last batch that holds
    [k]; the call does return, along some schedule, when every key it asks
    for was inserted; and it never returns when it asks for a key (other
    than the reserved one) that was not inserted, whatever the other keys. *)
Theorem C1_round_trip maxThreadsPerBlock size (bs : list batch) s (qs : list Z) :
  0 < maxThreadsPerBlock ->
  0 < size < 2147483648 ->
  Forall batch_ok bs ->
  batches_size bs <= 1000000000 ->
  insertBatches maxThreadsPerBlock bs (GpuHashTable_new size) = Some s ->
  qs <> [] ->
  (forall sched s' r,
     getBatch maxThreadsPerBlock sched s qs (Z.of_nat (length qs)) = Some (s', r) ->
     exists out, r = Some out /\ length out = length qs /\
       forall i k, qs !! i = Some k -> inserted bs k ->
         exists v, out !! i = Some v /\ written_last bs k v) /\
  (Forall (inserted bs) qs ->
   exists sched r,
     getBatch maxThreadsPerBlock sched s qs (Z.of_nat (length qs)) = Some r) /\
  (Exists (fun k => k <> KEY_INVALID /\ ~ inserted bs k) qs ->
   forall sched,
     getBatch maxThreadsPerBlock sched s qs (Z.of_nat (length qs)) = None).
Proof.
  intros Hthreads Hsize Hok Hbound Hrun Hqs.
  pose proof (history_run maxThreadsPerBlock Hthreads bs [] _ s
                (history_new size Hsize) Hok Hbound Hrun) as [Hwf Hused Hst Hins].
  cbn [app] in *.
  pose proof Hwf as [Hcap Htab _].
  assert (Hn : 0 < Z.of_nat (length qs)) by (destruct qs; [contradiction|cbn; lia]).
  assert (Hcr : 0 < capacity s < uint32_max) by (unfold uint32_max; lia).
  assert (Hvalid : forall k, inserted bs k -> k <> KEY_INVALID).
  { intros k Hk. apply Hins, live_stored in Hk as [Hk _]. exact Hk. }
  split; [|split].
  - intros sched s' r Hg.
    destruct (getBatch_spec maxThreadsPerBlock Hthreads _ _ _ _ _ _ Hcr (ok_length _ _ Htab)
                Hn Hg) as (_ & out & -> & Hlen & Hout).
    exists out. split; [reflexivity|]. split; [lia|].
    intros i k Hi Hk.
    destruct (Hout i) as (v & Hv & Hsv); [apply lookup_lt_Some in Hi; lia|].
    rewrite (list_lookup_total_correct _ _ _ Hi) in Hsv.
    exists v. split; [exact Hv|]. apply Hst; [apply Hvalid, Hk|exact Hsv].
  - intros Hall. apply (getBatch_returns maxThreadsPerBlock); auto.
    + apply (ok_length _ _ Htab).
    + intros i Hi. rewrite list.Forall_forall in Hall.
      assert (Hk : inserted bs (qs !!! i)).
      { apply Hall, list_elem_of_lookup_total_2. lia. }
      apply Hins, live_stored in Hk as [_ [v Hv]]. eapply stored_keys_of, Hv.
  - intros Hex sched.
    apply list.Exists_exists in Hex as (k & Hin & Hk & Hnot).
    apply list_elem_of_lookup_1 in Hin as [i Hi].
    apply (getBatch_hangs maxThreadsPerBlock Hthreads sched s qs _ i).
    + apply lookup_lt_Some in Hi. lia.
    + rewrite (list_lookup_total_correct _ _ _ Hi). intros j Hj.
      apply keys_of_stored in Hj as [v Hv].
      apply Hnot. eapply written_last_inserted, Hst; eassumption.
Qed.

Lemma C1_round_trip_witness :
  exists s,
    insertBatches 4
      [(([], concat (replicate 8 (seq 0 4))), ([1; 2; 3], [10; 20; 30]));
       (([], concat (replicate 8 (seq 0 4))), ([2], [25]))]
      (GpuHashTable_new 8) = Some s /\
    exists sched r, getBatch 4 sched s [2; 1] 2 = Some r.
Proof.
  eexists. split; [vm_compute; reflexivity|].
  eapply (C1_round_trip 4 8
            [(([], concat (replicate 8 (seq 0 4))), ([1; 2; 3], [10; 20; 30]));
             (([], concat (replicate 8 (seq 0 4))), ([2], [25]))] _ [2; 1]).
  - lia.
  - lia.
  - repeat constructor; discriminate.
  - vm_compute. discriminate.
  - vm_compute. reflexivity.
  - discriminate.
  - repeat constructor.
Defined.

(** What [insertBatch] does to [used_buckets] and [capacity], on any table. *)
Lemma insertBatch_counters maxThreadsPerBlock scheds this keys values numKeys s' b :
  0 < maxThreadsPerBlock -> 0 < numKeys ->
  0 <= used_buckets this -> used_buckets this + numKeys < uint32_max ->
  insertBatch maxThreadsPerBlock scheds this keys values numKeys = Some (s', b) ->
  exists cnt, 0 <= cnt <= numKeys /\
    used_buckets s' = used_buckets this + (numKeys - cnt).
Proof.
  intros Hthreads Hn Hused Hbound Hr.
  assert (Hn0 : numKeys <> 0) by lia.
  destruct (insertBatch_unfold _ _ _ _ _ _ _ _ Hn0 Hr) as (s1 & t' & cnt' & Hs1 & Hk & -> & _).
  assert (Hu1 : used_buckets s1 = used_buckets this).
  { destruct Hs1 as [(_ & c & _ & Hre)|(_ & ->)]; [|reflexivity].
    apply reshape_fields in Hre as (_ & Hu & _). exact Hu. }
  assert (Hnr : 0 <= numKeys < uint32_max) by lia.
  pose proof (covers_fst_snd maxThreadsPerBlock Hthreads numKeys ltac:(lia)) as Hcov.
  destruct (kernelInsert_always _ _ _ _ _ _ _ _ _ _ Hnr Hcov Hk) as (_ & Hcnt & _).
  exists cnt'. split; [exact Hcnt|]. cbn [used_buckets]. rewrite Hu1.
  rewrite (wrap32_small (numKeys - cnt')) by lia. apply wrap32_small. lia.
Qed.

(** C2 (load factor ceiling), amended.  The resize decision is taken on the
    projected count [used + n], in single precision and against [0.8f],
    which is above 8/10.  After a call of [insertBatch] with [n > 0] has
    returned, [used / capacity] is below [0.8 + 2^-22]; and it is below
    [26843547 / 2^25] (the midpoint between [0.8f] and the next float) when
    [used + n] and [capacity] were below [2^24], the range in which single
    precision is exact. *)
Theorem C2_load_factor_ceiling maxThreadsPerBlock scheds this keys values numKeys s' b :
  0 < maxThreadsPerBlock -> 0 < numKeys ->
  0 <= used_buckets this -> used_buckets this + numKeys <= 1000000000 ->
  0 <= capacity this < uint32_max ->
  insertBatch maxThreadsPerBlock scheds this keys values numKeys = Some (s', b) ->
  4194304 * (5 * used_buckets s' - 4 * capacity s') < 5 * capacity s' /\
  (used_buckets this + numKeys < 16777216 -> capacity this < 16777216 ->
   33554432 * used_buckets s' < 26843547 * capacity s').
Proof.
  intros Hthreads Hn Hused Hbound Hcap Hr.
  destruct (insertBatch_counters _ _ _ _ _ _ _ _ Hthreads Hn Hused
              ltac:(unfold uint32_max; lia) Hr) as (cnt & Hcnt & Hu).
  assert (Hn0 : numKeys <> 0) by lia.
  pose proof (insertBatch_capacity _ _ _ _ _ _ _ _ Hn0 Hr) as Hc.
  rewrite (wrap32_small (used_buckets this + numKeys)) in Hc by (unfold uint32_max; lia).
  set (a := used_buckets this + numKeys) in *.
  destruct Hc as [[Hgt Hc]|[Hgt Hc]].
  - destruct (new_capacity_spec a ltac:(lia)) as (c & Hc' & Hrange & H1 & H2 & Hex).
    assert (capacity s' = c) as -> by congruence.
    split; [lia|]. intros Ha _. rewrite (Hex Ha). lia.
  - rewrite Hc.
    assert (Hpos : 0 < capacity this).
    { destruct (Z.eq_dec (capacity this) 0) as [E0|E0]; [|lia].
      rewrite E0, loadFactor_gt_max_zero in Hgt by lia. discriminate. }
    pose proof (no_resize_room a (capacity this) ltac:(lia) Hpos Hgt).
    split; [lia|]. intros Ha Hb.
    assert (H33 : ~ 26843547 * uint32_as_float (capacity this)
                    <= 33554432 * uint32_as_float a).
    { intros Hle. apply loadFactor_gt_max in Hle; [congruence|lia|lia]. }
    rewrite !uint32_as_float_small in H33 by lia. lia.
Qed.

Lemma C2_load_factor_ceiling_witness :
  exists s',
    insertBatch 4 ([], concat (replicate 8 (seq 0 4))) (GpuHashTable_new 8)
      [1; 2; 3] [10; 20; 30] 3 = Some (s', true) /\
    4194304 * (5 * used_buckets s' - 4 * capacity s') < 5 * capacity s'.
Proof.
  eexists. split; [vm_compute; reflexivity|].
  eapply (C2_load_factor_ceiling 4 ([], concat (replicate 8 (seq 0 4))) (GpuHashTable_new 8)
            [1; 2; 3] [10; 20; 30] 3).
  - lia.
  - lia.
  - cbn. lia.
  - cbn. lia.
  - cbn. unfold uint32_max. lia.
  - vm_compute. reflexivity.
Defined.

Lemma uint32_as_float_zero : uint32_as_float 0 = 0.
Proof. reflexivity. Qed.

(** C3 (resize decision), amended.  For an [insertBatch] of [n > 0] keys
    with a projected count [a = used + n] of at most 10^9, the decision is
    taken on the single precision values [fl a] and [fl capacity] (each
    within [2^-24] of its argument, and equal to it below [2^24]): the table
    is resized exactly when [fl a / fl capacity] is at least
    [26843547 / 2^25], the midpoint between [0.8f] and the next float.  So
    it is resized when [a / capacity >= 8/10 + 2^-22] and is not resized
    when [a / capacity <= 8/10 - 2^-22]; with [a] and [capacity] below
    [2^24] it is resized exactly when [a / capacity >= 26843547 / 2^25], and
    in particular not when [a / capacity <= 8/10].  After a resize the
    capacity is [(int) (fl a / 0.5f)]: above [a], within [a / 2^22] of
    [2 a], and equal to [2 a] when [a < 2^24]; with no resize the capacity
    is unchanged. *)
Theorem C3_resize_decision maxThreadsPerBlock scheds this keys values numKeys s' b :
  0 < numKeys -> 0 <= used_buckets this ->
  used_buckets this + numKeys <= 1000000000 ->
  0 <= capacity this < uint32_max ->
  insertBatch maxThreadsPerBlock scheds this keys values numKeys = Some (s', b) ->
  let a := used_buckets this + numKeys in
  let fl := uint32_as_float in
  let resized :=
    int_of_float32 (float32_div (float_of_uint32 a) MIN_LOAD_FACTOR) = Some (capacity s') /\
    a < capacity s' /\
    4194304 * (capacity s' - 2 * a) <= a /\ 4194304 * (2 * a - capacity s') <= a /\
    (a < 16777216 -> capacity s' = 2 * a) in
  (26843547 * fl (capacity this) <= 33554432 * fl a -> resized) /\
  (33554432 * fl a < 26843547 * fl (capacity this) -> capacity s' = capacity this) /\
  (16777216 * (fl a - a) <= a /\ 16777216 * (a - fl a) <= a /\
   16777216 * (fl (capacity this) - capacity this) <= capacity this /\
   16777216 * (capacity this - fl (capacity this)) <= capacity this) /\
  (4194304 * (5 * a - 4 * capacity this) >= 5 * capacity this -> resized) /\
  (4194304 * (4 * capacity this - 5 * a) >= 5 * capacity this ->
   capacity s' = capacity this) /\
  (a < 16777216 -> capacity this < 16777216 ->
   (26843547 * capacity this <= 33554432 * a -> capacity s' = 2 * a) /\
   (33554432 * a < 26843547 * capacity this -> capacity s' = capacity this) /\
   (5 * a <= 4 * capacity this -> capacity s' = capacity this)).
Proof.
  intros Hn Hused Ha Hcap Hr a fl resized.
  assert (Hn0 : numKeys <> 0) by lia.
  pose proof (insertBatch_capacity _ _ _ _ _ _ _ _ Hn0 Hr) as Hc.
  rewrite (wrap32_small (used_buckets this + numKeys)) in Hc by (unfold uint32_max; lia).
  fold a in Hc.
  assert (Hapos : 0 < a) by (subst a; lia).
  destruct (float_of_uint32_value a Hapos) as (Na & Da & _ & _ & _ & Ha1 & Ha2).
  fold (fl a) in Ha1, Ha2.
  assert (Hflc : 16777216 * (fl (capacity this) - capacity this) <= capacity this /\
                 16777216 * (capacity this - fl (capacity this)) <= capacity this).
  { destruct (Z.eq_dec (capacity this) 0) as [E0|E0].
    - rewrite E0. unfold fl. rewrite uint32_as_float_zero. lia.
    - destruct (float_of_uint32_value (capacity this) ltac:(lia))
        as (Nc & Dc & _ & _ & _ & Hc1 & Hc2). split; assumption. }
  assert (Hdec : float32_gt (loadFactor a (capacity this)) MAX_LOAD_FACTOR = true
                 <-> 26843547 * fl (capacity this) <= 33554432 * fl a).
  { destruct (Z.eq_dec (capacity this) 0) as [E0|E0].
    - rewrite E0, loadFactor_gt_max_zero by lia. unfold fl at 1.
      rewrite uint32_as_float_zero. split; [lia|reflexivity].
    - apply loadFactor_gt_max; lia. }
  assert (Hres : float32_gt (loadFactor a (capacity this)) MAX_LOAD_FACTOR = true ->
                 resized).
  { intros Hgt. destruct Hc as [[_ Hc]|[Hgt' _]]; [|congruence].
    destruct (new_capacity_spec a ltac:(lia)) as (c & Hc' & Hrange & H1 & H2 & Hex).
    assert (capacity s' = c) as E by congruence.
    unfold resized. rewrite E. split; [exact Hc'|]. split; [lia|]. auto. }
  assert (Hkeep : float32_gt (loadFactor a (capacity this)) MAX_LOAD_FACTOR = false ->
                  capacity s' = capacity this).
  { intros Hgt. destruct Hc as [[Hgt' _]|[_ Hc]]; [congruence|exact Hc]. }
  assert (Hnot : 33554432 * fl a < 26843547 * fl (capacity this) ->
                 float32_gt (loadFactor a (capacity this)) MAX_LOAD_FACTOR = false).
  { intros Hlt. apply not_true_is_false. intros Hgt. apply Hdec in Hgt. lia. }
  split; [intros Hle; apply Hres, Hdec, Hle|].
  split; [intros Hlt; apply Hkeep, Hnot, Hlt|].
  split; [tauto|].
  split; [|split].
  - intros Hhigh. apply Hres.
    destruct (Z.eq_dec (capacity this) 0) as [E0|E0].
    + rewrite E0. apply loadFactor_gt_max_zero. exact Hapos.
    + apply not_false_is_true. intros Hgt.
      assert (Hcpos : 0 < capacity this) by lia.
      pose proof (no_resize_room a (capacity this) Hapos Hcpos Hgt). lia.
  - intros Hlow. apply Hkeep. apply loadFactor_le_max; lia.
  - intros Hsa Hsc. unfold fl in Hdec, Hnot.
    rewrite !uint32_as_float_small in Hdec, Hnot by lia.
    split; [|split].
    + intros Hle. apply Hdec, Hres in Hle. destruct Hle as (_ & _ & _ & _ & Hex).
      apply Hex, Hsa.
    + intros Hlt. apply Hkeep, Hnot, Hlt.
    + intros H5. apply Hkeep, Hnot. lia.
Qed.

Lemma C3_resize_decision_witness :
  exists s',
    insertBatch 4 (concat (replicate 14 (seq 0 12)), concat (replicate 22 (seq 0 12)))
      (GpuHashTable_new 10) [1; 2; 3; 4; 5; 6; 7; 8; 9] [10; 20; 30; 40; 50; 60; 70; 80; 90] 9
    = Some (s', true) /\ capacity s' = 18.
Proof.
  eexists. split; [vm_compute; reflexivity|].
  match goal with |- capacity ?s = _ => set (s0 := s) end.
  assert (Hr : insertBatch 4
                 (concat (replicate 14 (seq 0 12)), concat (replicate 22 (seq 0 12)))
                 (GpuHashTable_new 10) [1; 2; 3; 4; 5; 6; 7; 8; 9]
                 [10; 20; 30; 40; 50; 60; 70; 80; 90] 9 = Some (s0, true))
    by (vm_compute; reflexivity).
  assert (H1 : 0 < 9) by lia.
  assert (H2 : 0 <= used_buckets (GpuHashTable_new 10)) by (cbn; lia).
  assert (H3 : used_buckets (GpuHashTable_new 10) + 9 <= 1000000000) by (cbn; lia).
  assert (H4 : 0 <= capacity (GpuHashTable_new 10) < uint32_max)
    by (cbn; unfold uint32_max; lia).
  pose proof (C3_resize_decision 4 _ (GpuHashTable_new 10) _ _ 9 s0 true H1 H2 H3 H4 Hr)
    as (_ & _ & _ & _ & _ & Hsmall).
  cbv zeta in Hsmall.
  destruct Hsmall as (Hres & _ & _); [cbn; lia|cbn; lia|].
  apply Hres. cbn. lia.
Defined.

(** ** A table of 5000001 slots filled with 4000001 keys *)

Lemma new_fields size :
  used_buckets (GpuHashTable_new size) = 0 /\ capacity (GpuHashTable_new size) = size /\
  table (GpuHashTable_new size) = cudaMemset_table KEY_INVALID size.
Proof. repeat split. Qed.

Lemma live_keys_memset n : live_keys (cudaMemset_table KEY_INVALID n) = [].
Proof.
  pose proof (live_memset n) as H. unfold live in H.
  destruct (live_keys _); [reflexivity|discriminate].
Qed.

Lemma list_difference_nil (l : list Z) : list_difference l [] = l.
Proof. induction l as [|x l IH]; [reflexivity|]. cbn. rewrite IH. reflexivity. Qed.

Lemma remove_dups_NoDup (l : list Z) : NoDup l -> remove_dups l = l.
Proof.
  induction 1 as [|x l Hx _ IH]; [reflexivity|].
  cbn. destruct (decide_rel elem_of x l) as [Hin|_]; [contradiction|].
  rewrite IH. reflexivity.
Qed.

(** The first [m] naturals as keys. *)
Lemma first_keys_facts (m : Z) :
  0 <= m < KEY_INVALID ->
  let keys := Z.of_nat <$> seq 0 (Z.to_nat m) in
  Z.of_nat (length keys) = m /\ NoDup keys /\ Forall (fun k => k <> KEY_INVALID) keys.
Proof.
  intros Hm keys. subst keys. split; [|split].
  - rewrite length_fmap, length_seq. lia.
  - apply NoDup_fmap_2; [apply Nat2Z.inj'|apply NoDup_seq].
  - apply list.Forall_forall. intros k Hk.
    apply list_elem_of_fmap in Hk as (i & -> & Hi). apply elem_of_seq in Hi. lia.
Qed.

(** Filling a new table of 5000001 slots with 4000001 distinct keys: the
    projected load factor 4000001 / 5000001 is above 8/10, but its single
    precision value is [0.8f], so that the table is not resized. *)
Lemma float_gap_run (keys : list Z) :
  Z.of_nat (length keys) = 4000001 -> NoDup keys ->
  Forall (fun k => k <> KEY_INVALID) keys ->
  (exists scheds s',
     insertBatch 1024 scheds (GpuHashTable_new 5000001) keys keys 4000001
     = Some (s', true)) /\
  forall scheds s' b,
    insertBatch 1024 scheds (GpuHashTable_new 5000001) keys keys 4000001 = Some (s', b) ->
    used_buckets s' = 4000001 /\ capacity s' = 5000001.
Proof.
  intros Hlen Hnd Hvalid.
  assert (Hwf : wf (GpuHashTable_new 5000001)) by (apply wf_new; lia).
  split.
  - apply insertBatch_returns.
    + change (Z.of_nat (length (cudaMemset_table KEY_INVALID 5000001)) = 5000001).
      apply memset_length. lia.
    + apply Z.le_refl.
    + lia.
    + change (used_buckets (GpuHashTable_new 5000001)) with 0. lia.
    + change (capacity (GpuHashTable_new 5000001)) with 5000001. unfold uint32_max. lia.
  - intros scheds s' b Hr. split.
    + assert (Hne : keys <> []) by (intros ->; cbn in Hlen; lia).
      pose proof (insertBatch_used 1024 ltac:(lia) scheds (GpuHashTable_new 5000001)
                    keys keys s' b Hwf Hne) as Hu.
      rewrite Hlen in Hu. change (used_buckets (GpuHashTable_new 5000001)) with 0 in Hu.
      specialize (Hu ltac:(lia) Hvalid Hr).
      rewrite Hu.
      change (table (GpuHashTable_new 5000001)) with (cudaMemset_table KEY_INVALID 5000001).
      rewrite live_keys_memset, list_difference_nil, remove_dups_NoDup by exact Hnd.
      lia.
    + assert (Hn0 : 4000001 <> 0) by discriminate.
      destruct (insertBatch_capacity 1024 _ _ _ _ _ _ _ Hn0 Hr) as [[Hgt _]|[_ Hc]].
      * exfalso. destruct (new_fields 5000001) as (Hu0 & Hc0 & _).
        rewrite Hu0, Hc0 in Hgt. vm_compute in Hgt. discriminate.
      * rewrite Hc. reflexivity.
Qed.

(** C2, as stated, fails: after this call [used / capacity] is
    4000001 / 5000001, which is above 8/10. *)
Lemma C2_counterexample :
  let keys := Z.of_nat <$> seq 0 (Z.to_nat 4000001) in
  (exists scheds s',
     insertBatch 1024 scheds (GpuHashTable_new 5000001) keys keys 4000001
     = Some (s', true)) /\
  forall scheds s' b,
    insertBatch 1024 scheds (GpuHashTable_new 5000001) keys keys 4000001 = Some (s', b) ->
    ~ 5 * used_buckets s' <= 4 * capacity s'.
Proof.
  intros keys.
  destruct (first_keys_facts 4000001) as (Hlen & Hnd & Hvalid); [unfold KEY_INVALID; lia|].
  destruct (float_gap_run keys Hlen Hnd Hvalid) as [Hex Hall].
  split; [exact Hex|]. intros scheds s' b Hr.
  destruct (Hall scheds s' b Hr) as [-> ->]. lia.
Qed.

(** C3, as stated, fails: in this call [(used + n) / capacity] is above 8/10
    and the table is not resized. *)
Lemma C3_counterexample :
  let keys := Z.of_nat <$> seq 0 (Z.to_nat 4000001) in
  4 * capacity (GpuHashTable_new 5000001)
    < 5 * (used_buckets (GpuHashTable_new 5000001) + 4000001) /\
  (exists scheds s',
     insertBatch 1024 scheds (GpuHashTable_new 5000001) keys keys 4000001
     = Some (s', true)) /\
  forall scheds s' b,
    insertBatch 1024 scheds (GpuHashTable_new 5000001) keys keys 4000001 = Some (s', b) ->
    capacity s' = capacity (GpuHashTable_new 5000001) /\
    capacity s' <> 2 * (used_buckets (GpuHashTable_new 5000001) + 4000001).
Proof.
  intros keys.
  destruct (first_keys_facts 4000001) as (Hlen & Hnd & Hvalid); [unfold KEY_INVALID; lia|].
  destruct (float_gap_run keys Hlen Hnd Hvalid) as [Hex Hall].
  destruct (new_fields 5000001) as (-> & -> & _).
  split; [lia|]. split; [exact Hex|]. intros scheds s' b Hr.
  destruct (Hall scheds s' b Hr) as [_ ->]. lia.
Qed.

(** C4 (update in place).  A table is created and filled by any sequence of
    calls of [insertBatch] one of which inserts [k]; a later call that
    inserts [(k, v2)] alone leaves [used_buckets] as it was, and then
    [getBatch] of [k] returns [v2]. *)
Theorem C4_update_in_place maxThreadsPerBlock size (bs : list batch) s1 scheds k v2 s2 b :
  0 < maxThreadsPerBlock ->
  0 < size < 2147483648 ->
  Forall batch_ok bs ->
  batches_size bs + 1 <= 1000000000 ->
  inserted bs k ->
  insertBatches maxThreadsPerBlock bs (GpuHashTable_new size) = Some s1 ->
  insertBatch maxThreadsPerBlock scheds s1 [k] [v2] 1 = Some (s2, b) ->
  used_buckets s2 = used_buckets s1 /\
  (exists sched r, getBatch maxThreadsPerBlock sched s2 [k] 1 = Some r) /\
  forall sched s' r,
    getBatch maxThreadsPerBlock sched s2 [k] 1 = Some (s', r) -> r = Some [v2].
Proof.
  intros Hthreads Hsize Hok Hbound Hk Hrun Hr.
  pose proof (history_run maxThreadsPerBlock Hthreads bs [] _ s1
                (history_new size Hsize) Hok ltac:(cbn [app]; lia) Hrun)
    as [Hwf Hused Hst Hins].
  cbn [app] in *.
  pose proof (Hins k Hk) as Hlive.
  pose proof (live_stored _ _ Hlive) as [Hkv _].
  assert (Hv : forall i, Z.of_nat i < 1 -> [k] !!! i <> KEY_INVALID).
  { intros i Hi. assert (i = 0%nat) as -> by lia. exact Hkv. }
  assert (H01 : 0 < 1) by lia.
  assert (Hb1 : used_buckets s1 + 1 <= 1000000000) by lia.
  destruct (insertBatch_spec maxThreadsPerBlock Hthreads _ _ _ _ _ _ _ Hwf H01 Hb1 Hv Hr)
    as (_ & Hwf2 & _ & Hbatch & _ & Hlk).
  pose proof Hwf2 as [Hcap2 Htab2 _].
  assert (Hcr : 0 < capacity s2 < uint32_max) by (unfold uint32_max; lia).
  destruct (Hbatch 0%nat H01) as (i' & Hi' & _ & Hst2).
  assert (i' = 0%nat) as -> by lia. cbn in Hst2.
  split; [|split].
  - rewrite (insertBatch_used maxThreadsPerBlock Hthreads scheds s1 [k] [v2] s2 b Hwf);
      [| discriminate | cbn; lia | repeat constructor; exact Hkv | exact Hr].
    assert (list_difference (remove_dups [k]) (live_keys (table s1)) = []) as ->; [|cbn; lia].
    apply elem_of_nil_inv. intros x Hx.
    apply list_elem_of_difference in Hx as [Hx Hnot]. apply elem_of_remove_dups in Hx.
    apply list_elem_of_singleton in Hx as ->. contradiction.
  - apply (getBatch_returns maxThreadsPerBlock s2 [k] 1 Hcr (ok_length _ _ Htab2) H01).
    intros i Hi. assert (i = 0%nat) as -> by lia. cbn. eapply stored_keys_of, Hst2.
  - intros sched s' r Hg.
    destruct (getBatch_spec maxThreadsPerBlock Hthreads _ _ _ _ _ _ Hcr
                (ok_length _ _ Htab2) H01 Hg) as (_ & out & -> & Hlen & Hout).
    destruct (Hout 0%nat H01) as (v & Hv0 & Hsv). cbn in Hsv.
    f_equal. apply length_one_list; [lia|].
    rewrite Hv0. f_equal.
    eapply stored_unique; [exact Htab2|exact Hkv|exact Hsv|exact Hst2].
Qed.

Lemma C4_update_in_place_witness :
  exists s1 s2,
    insertBatches 4 [(([], concat (replicate 8 (seq 0 4))), ([5], [100]))]
      (GpuHashTable_new 8) = Some s1 /\
    insertBatch 4 ([], concat (replicate 8 (seq 0 4))) s1 [5] [200] 1 = Some (s2, true) /\
    used_buckets s2 = used_buckets s1.
Proof.
  eexists. eexists. split; [vm_compute; reflexivity|]. split; [vm_compute; reflexivity|].
  eapply (proj1 (C4_update_in_place 4 8
                   [(([], concat (replicate 8 (seq 0 4))), ([5], [100]))] _
                   ([], concat (replicate 8 (seq 0 4))) 5 200 _ true _ _ _ _ _ _ _)).
  Unshelve.
  - lia.
  - lia.
  - repeat constructor; discriminate.
  - vm_compute. discriminate.
  - repeat constructor.
  - vm_compute. reflexivity.
  - vm_compute. reflexivity.
Defined.

(** C5 (resize keeps the entries).  On a well-formed table, [reshape] to a
    capacity of at least twice [used_buckets] returns (for a positive
    capacity; what an allocation of no slot does is not in the sources),
    leaves [used_buckets] as it was, and every pair of the table is returned
    by [getBatch] afterwards. *)
Theorem C5_reshape_keeps_entries maxThreadsPerBlock this c :
  0 < maxThreadsPerBlock ->
  wf this ->
  2 * used_buckets this <= c < 2147483648 ->
  (0 < c -> exists sched s', reshape maxThreadsPerBlock sched this c = Some s') /\
  forall sched s',
    reshape maxThreadsPerBlock sched this c = Some s' ->
    used_buckets s' = used_buckets this /\
    forall qs : list Z, qs <> [] ->
      Forall (fun q => q ∈ live_keys (table this)) qs ->
      (exists sg r, getBatch maxThreadsPerBlock sg s' qs (Z.of_nat (length qs)) = Some r) /\
      forall sg s'' r,
        getBatch maxThreadsPerBlock sg s' qs (Z.of_nat (length qs)) = Some (s'', r) ->
        exists out, r = Some out /\ length out = length qs /\
          forall i q, qs !! i = Some q ->
            exists v, out !! i = Some v /\ stored (table this) q v.
Proof.
  intros Hthreads [Hcap Htab Hused] Hc.
  pose proof (live_le_length (table this)) as Hlive.
  split.
  - intros Hc0. apply reshape_returns; [apply (ok_length _ _ Htab)|left; lia].
  - intros sched s' Hr.
    pose proof (reshape_fields _ _ _ _ _ Hr) as (Hcap' & Hused' & _).
    split; [exact Hused'|].
    intros qs Hqs Hall.
    assert (Hq0 : exists q, q ∈ live_keys (table this)).
    { destruct qs as [|q qs]; [contradiction|]. inversion Hall; subst. eauto. }
    assert (Hpos : 0 < live (table this)).
    { destruct Hq0 as [q Hq]. unfold live. destruct (live_keys (table this));
        [apply elem_of_nil in Hq; contradiction|cbn; lia]. }
    assert (Hcr : 0 < c < uint32_max) by (unfold uint32_max; lia).
    assert (Hroom : live (table this) <= c) by lia.
    destruct (reshape_spec maxThreadsPerBlock Hthreads _ _ _ _ (ok_length _ _ Htab)
                (table_ok_NoDup _ _ Htab) (ok_distinct _ _ Htab) Hroom Hcr Hr)
      as (_ & _ & Htab' & _ & Hkeep & _).
    assert (Hn : 0 < Z.of_nat (length qs)) by (destruct qs; [contradiction|cbn; lia]).
    rewrite <- Hcap' in Hcr.
    pose proof (ok_length _ _ Htab') as Hlen'. rewrite <- Hcap' in Hlen'.
    assert (Hst : forall q, q ∈ live_keys (table this) ->
              q <> KEY_INVALID /\ exists v, stored (table this) q v /\ stored (table s') q v).
    { intros q Hq. apply live_stored in Hq as [Hqv [v Hv]]. split; [exact Hqv|].
      exists v. split; [exact Hv|]. apply Hkeep; assumption. }
    rewrite list.Forall_forall in Hall.
    split.
    + apply (getBatch_returns maxThreadsPerBlock); auto.
      intros i Hi.
      destruct (Hst (qs !!! i)) as (_ & v & _ & Hv).
      { apply Hall, list_elem_of_lookup_total_2. lia. }
      eapply stored_keys_of, Hv.
    + intros sg s'' r Hg.
      destruct (getBatch_spec maxThreadsPerBlock Hthreads _ _ _ _ _ _ Hcr Hlen' Hn Hg)
        as (_ & out & -> & Hlen & Hout).
      exists out. split; [reflexivity|]. split; [lia|].
      intros i q Hi.
      destruct (Hout i) as (v & Hv & Hsv); [apply lookup_lt_Some in Hi; lia|].
      rewrite (list_lookup_total_correct _ _ _ Hi) in Hsv.
      destruct (Hst q) as (Hqv & v0 & Hv0 & Hv0').
      { apply Hall. eapply list_elem_of_lookup_2, Hi. }
      exists v. split; [exact Hv|].
      assert (v = v0) as -> by (eapply stored_unique; [exact Htab'| | |]; eauto).
      exact Hv0.
Qed.

Lemma C5_reshape_keeps_entries_witness :
  exists s',
    reshape 4 (concat (replicate 8 (seq 0 4)))
      {| table := [{| key := 7; value := 70 |}; {| key := 5; value := 50 |}];
         used_buckets := 2; capacity := 2 |} 4 = Some s' /\
    used_buckets s' = 2 /\
    (exists sg r, getBatch 4 sg s' [5; 7] 2 = Some r) /\
    forall sg s'' r, getBatch 4 sg s' [5; 7] 2 = Some (s'', r) ->
      exists out, r = Some out /\ length out = 2%nat /\
        forall i q, [5; 7] !! i = Some q ->
          exists v, out !! i = Some v /\
            stored [{| key := 7; value := 70 |}; {| key := 5; value := 50 |}] q v.
Proof.
  eexists. split; [vm_compute; reflexivity|].
  match goal with |- used_buckets ?s = _ /\ _ => set (s0 := s) end.
  assert (Hwf : wf {| table := [{| key := 7; value := 70 |}; {| key := 5; value := 50 |}];
                      used_buckets := 2; capacity := 2 |}).
  { split; cbn [capacity table used_buckets]; [lia| |reflexivity].
    split; [reflexivity| |].
    - intros [|[|j1]] [|[|j2]] k H1 H2 _; vm_compute in H1, H2; congruence.
    - intros [|[|j]] k [|[|j']] k' H1 Hk H2 Ho; vm_compute in H1, H2; try discriminate;
        injection H2 as <-; discriminate. }
  assert (Hc : 2 * used_buckets
                     {| table := [{| key := 7; value := 70 |}; {| key := 5; value := 50 |}];
                        used_buckets := 2; capacity := 2 |} <= 4 < 2147483648)
    by (cbn; lia).
  destruct (C5_reshape_keeps_entries 4 _ 4 ltac:(lia) Hwf Hc) as [_ Hkeep].
  destruct (Hkeep (concat (replicate 8 (seq 0 4))) s0 ltac:(vm_compute; reflexivity))
    as [Hu Hq].
  split; [exact Hu|].
  apply (Hq [5; 7]); [discriminate|].
  apply (bool_decide_unpack
           (Forall (fun q => q ∈ live_keys
                      [{| key := 7; value := 70 |}; {| key := 5; value := 50 |}]) [5; 7])).
  vm_compute. exact I.
Defined.

(** C6 (zero-length batches).  With [numKeys = 0], [insertBatch] returns
    [false] and [getBatch] returns [NULL], and the object is as it was; with
    any other [numKeys] a call of [insertBatch] that returns, returns
    [true]; and it does return, along some schedules, for [numKeys > 0] (on
    an object whose table has [capacity] slots, with at most 10^9 keys). *)
Theorem C6_zero_length_batch maxThreadsPerBlock this keys values :
  (forall scheds,
     insertBatch maxThreadsPerBlock scheds this keys values 0 = Some (this, false)) /\
  (forall sched, getBatch maxThreadsPerBlock sched this keys 0 = Some (this, None)) /\
  (forall scheds numKeys s' b, numKeys <> 0 ->
     insertBatch maxThreadsPerBlock scheds this keys values numKeys = Some (s', b) ->
     b = true) /\
  (forall numKeys,
     Z.of_nat (length (table this)) = capacity this -> capacity this < uint32_max ->
     0 <= used_buckets this -> 0 < numKeys ->
     used_buckets this + numKeys <= 1000000000 ->
     exists scheds s',
       insertBatch maxThreadsPerBlock scheds this keys values numKeys = Some (s', true)).
Proof.
  split; [|split; [|split]].
  - intros scheds. reflexivity.
  - intros sched. reflexivity.
  - intros scheds numKeys s' b Hn Hr.
    destruct (insertBatch_unfold _ _ _ _ _ _ _ _ Hn Hr) as (_ & _ & _ & _ & _ & _ & Hb).
    exact Hb.
  - intros numKeys Hlen Hcap Hused Hn Hbound. apply insertBatch_returns; assumption.
Qed.

(** C10 (occupancy never decreases).  [getBatch] and [reshape] leave
    [used_buckets] as it was, and [insertBatch] of [n] keys adds [n - cnt]
    to it, for a number [cnt] of updates between [0] and [n] (as long as the
    32-bit counter does not wrap). *)
Theorem C10_used_never_decreases maxThreadsPerBlock this :
  0 < maxThreadsPerBlock ->
  (forall sched keys numKeys s' r,
     getBatch maxThreadsPerBlock sched this keys numKeys = Some (s', r) ->
     used_buckets s' = used_buckets this) /\
  (forall sched c s',
     reshape maxThreadsPerBlock sched this c = Some s' ->
     used_buckets s' = used_buckets this) /\
  (forall scheds keys values numKeys s' b,
     0 <= numKeys -> 0 <= used_buckets this ->
     used_buckets this + numKeys < uint32_max ->
     insertBatch maxThreadsPerBlock scheds this keys values numKeys = Some (s', b) ->
     used_buckets this <= used_buckets s' /\
     exists cnt, 0 <= cnt <= numKeys /\
       used_buckets s' = used_buckets this + (numKeys - cnt)).
Proof.
  intros Hthreads. split; [|split].
  - intros sched keys numKeys s' r. unfold getBatch.
    destruct (numKeys =? 0); [intros [= <- _]; reflexivity|].
    destruct (estimateBlockSize maxThreadsPerBlock numKeys) as [nB nT].
    destruct (kernelGet _ _ _ _ _ _ _ _) as [[t' out]|]; [|discriminate].
    intros [= <- _]. reflexivity.
  - intros sched c s' Hr. apply reshape_fields in Hr as (_ & Hu & _). exact Hu.
  - intros scheds keys values numKeys s' b Hn Hused Hbound Hr.
    destruct (Z.eq_dec numKeys 0) as [->|Hn0].
    + cbn in Hr. injection Hr as <- <-. split; [lia|]. exists 0. lia.
    + assert (Hpos : 0 < numKeys) by lia.
      destruct (insertBatch_counters _ _ _ _ _ _ _ _ Hthreads Hpos Hused Hbound Hr)
        as (cnt & Hcnt & Hu).
      split; [lia|]. exists cnt. auto.
Qed.

Lemma C10_used_never_decreases_witness :
  exists s',
    insertBatch 4 ([], concat (replicate 8 (seq 0 4))) (GpuHashTable_new 8)
      [1; 2; 3] [10; 20; 30] 3 = Some (s', true) /\
    used_buckets (GpuHashTable_new 8) <= used_buckets s'.
Proof.
  eexists. split; [vm_compute; reflexivity|].
  eapply (proj1 (proj2 (proj2 (C10_used_never_decreases 4 (GpuHashTable_new 8) _))
                   ([], concat (replicate 8 (seq 0 4))) [1; 2; 3] [10; 20; 30] 3 _ true
                   _ _ _ _)).
  Unshelve.
  - lia.
  - lia.
  - cbn. lia.
  - cbn. unfold uint32_max. lia.
  - vm_compute. reflexivity.
Defined.

(** C7, as stated, fails: [reshape] into a table that is too small drops
    keys and leaves [used_buckets] as it was. *)
Lemma C7_counterexample :
  exists s1 s2,
    insertBatch 4 ([], concat (replicate 8 (seq 0 4))) (GpuHashTable_new 4)
      [1; 2] [10; 20] 2 = Some (s1, true) /\
    reshape 4 (concat (replicate 8 (seq 0 4))) s1 1 = Some s2 /\
    used_buckets s2 = 2 /\ live_keys (table s2) = [2] /\
    used_buckets s2 <> Z.of_nat (length (live_keys (table s2))).
Proof.
  eexists. eexists. split; [vm_compute; reflexivity|].
  split; [vm_compute; reflexivity|]. split; [reflexivity|]. split; [reflexivity|].
  discriminate.
Qed.

(** C7 (what [used_buckets] counts), amended.  The live keys of the table
    are distinct and [used_buckets] is their number after the constructor,
    after [getBatch], after [insertBatch] (of keys other than the reserved
    one), and after [reshape] to a capacity that is at least the number of
    live keys; and [insertBatch] adds to [used_buckets] the number of
    distinct keys of the batch that were not in the table, which is
    [n - cnt] for a number [cnt] of updates between [0] and [n]. *)
Theorem C7_used_counts_live_keys maxThreadsPerBlock :
  0 < maxThreadsPerBlock ->
  (forall this, wf this ->
     NoDup (live_keys (table this)) /\
     used_buckets this = Z.of_nat (length (live_keys (table this)))) /\
  (forall size, 0 < size < 2147483648 -> wf (GpuHashTable_new size)) /\
  (forall sched this keys numKeys s' r, wf this -> 0 <= numKeys ->
     getBatch maxThreadsPerBlock sched this keys numKeys = Some (s', r) -> wf s') /\
  (forall sched this c s', wf this ->
     live (table this) <= c -> 0 < c < 2147483648 ->
     reshape maxThreadsPerBlock sched this c = Some s' -> wf s') /\
  (forall scheds this keys values s' b, wf this ->
     Forall (fun k => k <> KEY_INVALID) keys ->
     used_buckets this + Z.of_nat (length keys) <= 1000000000 ->
     insertBatch maxThreadsPerBlock scheds this keys values (Z.of_nat (length keys))
     = Some (s', b) ->
     wf s' /\
     used_buckets s' = used_buckets this +
       Z.of_nat (length (list_difference (remove_dups keys) (live_keys (table this)))) /\
     exists cnt, 0 <= cnt <= Z.of_nat (length keys) /\
       used_buckets s' = used_buckets this + Z.of_nat (length keys) - cnt).
Proof.
  intros Hthreads. split; [|split; [|split; [|split]]].
  - intros this [_ Htab Hused]. split; [eapply table_ok_NoDup, Htab|exact Hused].
  - intros size Hsize. apply wf_new, Hsize.
  - intros sched this keys numKeys s' r Hwf Hn Hg.
    destruct (Z.eq_dec numKeys 0) as [->|Hn0].
    + cbn in Hg. injection Hg as <- _. exact Hwf.
    + pose proof Hwf as [Hcap Htab _].
      assert (Hcr : 0 < capacity this < uint32_max) by (unfold uint32_max; lia).
      assert (Hpos : 0 < numKeys) by lia.
      destruct (getBatch_spec maxThreadsPerBlock Hthreads _ _ _ _ _ _ Hcr
                  (ok_length _ _ Htab) Hpos Hg) as (-> & _).
      exact Hwf.
  - intros sched this c s' [Hcap Htab Hused] Hroom Hc Hr.
    assert (Hcr : 0 < c < uint32_max) by (unfold uint32_max; lia).
    destruct (reshape_spec maxThreadsPerBlock Hthreads _ _ _ _ (ok_length _ _ Htab)
                (table_ok_NoDup _ _ Htab) (ok_distinct _ _ Htab) Hroom Hcr Hr)
      as (Hcap' & Hused' & Htab' & Hlive' & _).
    split; [lia|rewrite Hcap'; exact Htab'|lia].
  - intros scheds this keys values s' b Hwf Hvalid Hbound Hr.
    destruct keys as [|k0 keys].
    + cbn in Hr. injection Hr as <- <-. split; [exact Hwf|]. cbn. split; [lia|].
      exists 0. lia.
    + assert (Hn : 0 < Z.of_nat (length (k0 :: keys))) by (cbn; lia).
      assert (Hv : forall i, Z.of_nat i < Z.of_nat (length (k0 :: keys)) ->
                (k0 :: keys) !!! i <> KEY_INVALID).
      { intros i Hi. rewrite list.Forall_forall in Hvalid. apply Hvalid.
        apply list_elem_of_lookup_total_2. lia. }
      destruct (insertBatch_spec maxThreadsPerBlock Hthreads _ _ _ _ _ _ _ Hwf Hn Hbound
                  Hv Hr) as (_ & Hwf' & (cnt & Hcnt & Hu) & _).
      split; [exact Hwf'|]. split; [|exists cnt; auto].
      apply (insertBatch_used maxThreadsPerBlock Hthreads scheds this (k0 :: keys) values
               s' b Hwf ltac:(discriminate) Hbound Hvalid Hr).
Qed.

Lemma C7_used_counts_live_keys_witness :
  exists s',
    insertBatch 4 ([], concat (replicate 8 (seq 0 4))) (GpuHashTable_new 8)
      [1; 2; 3] [10; 20; 30] 3 = Some (s', true) /\ wf s'.
Proof.
  eexists. split; [vm_compute; reflexivity|].
  eapply (proj1 (proj2 (proj2 (proj2 (proj2 (C7_used_counts_live_keys 4 _))))
                   ([], concat (replicate 8 (seq 0 4))) (GpuHashTable_new 8)
                   [1; 2; 3] [10; 20; 30] _ true _ _ _ _)).
  Unshelve.
  - lia.
  - apply wf_new. lia.
  - repeat constructor; discriminate.
  - cbn. lia.
  - vm_compute. reflexivity.
Defined.

Lemma C6_zero_length_batch_witness :
  exists scheds s',
    insertBatch 4 scheds (GpuHashTable_new 8) [1; 2; 3] [10; 20; 30] 3 = Some (s', true).
Proof.
  apply (proj2 (proj2 (proj2 (C6_zero_length_batch 4 (GpuHashTable_new 8)
                                [1; 2; 3] [10; 20; 30]))) 3).
  - reflexivity.
  - cbn. unfold uint32_max. lia.
  - cbn. lia.
  - lia.
  - cbn. lia.
Defined.

(** C8, as stated, fails: in a new table of two slots every slot is empty,
    and the thread that looks for the key 5 never returns, so that
    [getBatch] does not return either. *)
Lemma C8_counterexample :
  (forall j e, table (GpuHashTable_new 2) !! j = Some e -> key e = KEY_INVALID) /\
  (forall sched,
     (run (kernelGet_thread 2 [5]) sched
        (kernelGet_start 1 1 (table (GpuHashTable_new 2)) 2 [5] [0] 1)).2 !! 0%nat
     <> Some GReturn) /\
  forall sched, getBatch 1 sched (GpuHashTable_new 2) [5] 1 = None.
Proof.
  assert (Habs : forall j, keys_of (table (GpuHashTable_new 2)) !! j <> Some ([5] !!! 0%nat)).
  { intros j Hj. apply keys_of_lookup in Hj as (e & He & Hk).
    apply memset_lookup in He as ->. discriminate. }
  split; [|split].
  - intros j e He. apply memset_lookup in He as ->. reflexivity.
  - intros sched Hret.
    destruct (kernelGet_thread_absent sched 1 1 (table (GpuHashTable_new 2)) 2 [5] [0] 1
                0%nat ltac:(lia) Habs) as [h Hh].
    congruence.
  - intros sched. apply (getBatch_hangs 1 ltac:(lia) sched _ [5] 1 0%nat); [lia|exact Habs].
Qed.

(** C8 (termination of a look-up), amended.  The thread of [kernelGet] that
    looks for a key returns, when it is scheduled often enough, exactly when
    some slot of the table holds the key; an empty slot does not stop it.
    When it has returned, it has copied to its cell of the output the value
    of a slot that holds the key. *)
Theorem C8_lookup_terminates nBlocks nThreads t capacity device_keys device_values numKeys idx :
  0 < capacity < uint32_max -> Z.of_nat (length t) = capacity ->
  Z.of_nat idx < numKeys <= nBlocks * nThreads ->
  numKeys <= Z.of_nat (length device_values) ->
  ((exists j, keys_of t !! j = Some (device_keys !!! idx)) ->
   exists sched,
     (run (kernelGet_thread capacity device_keys) sched
        (kernelGet_start nBlocks nThreads t capacity device_keys device_values numKeys)).2
     !! idx = Some GReturn) /\
  ((forall j, keys_of t !! j <> Some (device_keys !!! idx)) ->
   forall sched,
     (run (kernelGet_thread capacity device_keys) sched
        (kernelGet_start nBlocks nThreads t capacity device_keys device_values numKeys)).2
     !! idx <> Some GReturn) /\
  (forall sched,
     (run (kernelGet_thread capacity device_keys) sched
        (kernelGet_start nBlocks nThreads t capacity device_keys device_values numKeys)).2
     !! idx = Some GReturn ->
     exists v,
       (run (kernelGet_thread capacity device_keys) sched
          (kernelGet_start nBlocks nThreads t capacity device_keys device_values numKeys)).1.2
       !! idx = Some v /\ stored t (device_keys !!! idx) v).
Proof.
  intros Hcap Hlen Hidx Hdv. split; [|split].
  - intros Hpresent. apply kernelGet_thread_present; assumption.
  - intros Habs sched Hret.
    destruct (kernelGet_thread_absent sched nBlocks nThreads t capacity device_keys
                device_values numKeys idx Hidx Habs) as [h Hh].
    congruence.
  - intros sched Hret.
    apply (kernelGet_thread_result sched nBlocks nThreads t capacity device_keys
             device_values numKeys idx Hcap ltac:(lia) Hdv Hret).
Qed.

Lemma C8_lookup_terminates_witness :
  exists sched,
    (run (kernelGet_thread 2 [5]) sched
       (kernelGet_start 1 1 [{| key := 7; value := 70 |}; {| key := 5; value := 50 |}]
          2 [5] [0] 1)).2 !! 0%nat = Some GReturn.
Proof.
  apply (proj1 (C8_lookup_terminates 1 1
                  [{| key := 7; value := 70 |}; {| key := 5; value := 50 |}] 2 [5] [0] 1
                  0%nat ltac:(unfold uint32_max; lia) eq_refl ltac:(lia) ltac:(cbn; lia))).
  exists 1%nat. reflexivity.
Defined.

(** C9, as stated, fails: the slot 0 holds the key 1, which is not in the
    second batch; the second batch triggers a resize, after which the slot 0
    is empty (the pair is in the slot 2). *)
Lemma C9_counterexample :
  exists s1 s2,
    insertBatch 4 ([], [0%nat; 0%nat]) (GpuHashTable_new 2) [1] [10] 1 = Some (s1, true) /\
    insertBatch 4 ([0%nat; 0%nat], [0%nat; 0%nat]) s1 [2] [20] 1 = Some (s2, true) /\
    table s1 !! 0%nat = Some {| key := 1; value := 10 |} /\
    table s2 !! 0%nat = Some {| key := KEY_INVALID; value := KEY_INVALID |} /\
    table s2 !! 2%nat = Some {| key := 1; value := 10 |}.
Proof.
  eexists. eexists. split; [vm_compute; reflexivity|].
  split; [vm_compute; reflexivity|]. repeat split.
Qed.

(** C9 (frame of [insertBatch]), amended.  When no resize is triggered,
    every slot that holds a key other than the reserved one and than the
    keys of the batch is unchanged, and so is [capacity].  When a resize is
    triggered the table is replaced: the pair is still in the table
    (this on a well-formed table, for a batch without the reserved key), in
    whatever slot. *)
Theorem C9_insert_frame maxThreadsPerBlock scheds this keys values numKeys s' b :
  0 < maxThreadsPerBlock -> 0 < numKeys < uint32_max ->
  insertBatch maxThreadsPerBlock scheds this keys values numKeys = Some (s', b) ->
  (float32_gt (loadFactor (wrap32 (used_buckets this + numKeys)) (capacity this))
     MAX_LOAD_FACTOR = false ->
   capacity s' = capacity this /\
   forall j e, table this !! j = Some e -> key e <> KEY_INVALID ->
     (forall i, Z.of_nat i < numKeys -> keys !!! i <> key e) ->
     table s' !! j = Some e) /\
  (wf this -> used_buckets this + numKeys <= 1000000000 ->
   (forall i, Z.of_nat i < numKeys -> keys !!! i <> KEY_INVALID) ->
   forall k v, k <> KEY_INVALID -> stored (table this) k v ->
     (forall i, Z.of_nat i < numKeys -> keys !!! i <> k) ->
     stored (table s') k v).
Proof.
  intros Hthreads Hn Hr. split.
  - intros Hgt.
    assert (Hn0 : numKeys <> 0) by lia.
    destruct (insertBatch_unfold _ _ _ _ _ _ _ _ Hn0 Hr)
      as (s1 & t' & cnt' & Hs1 & Hk & -> & _).
    destruct Hs1 as [(Hgt' & _)|(_ & ->)]; [congruence|].
    cbn [capacity table]. split; [reflexivity|].
    assert (Hnr : 0 <= numKeys < uint32_max) by lia.
    pose proof (covers_fst_snd maxThreadsPerBlock Hthreads numKeys ltac:(lia)) as Hcov.
    destruct (kernelInsert_always _ _ _ _ _ _ _ _ _ _ Hnr Hcov Hk) as (_ & _ & Hframe & _).
    intros j e Hj Hke Hno. apply Hframe; [exact Hj|exact Hke|].
    intros i Hi. rewrite take_lookup_total by lia. apply Hno, Hi.
  - intros Hwf Hbound Hvalid k v Hk Hst Hno.
    assert (Hpos : 0 < numKeys) by lia.
    destruct (insertBatch_spec maxThreadsPerBlock Hthreads _ _ _ _ _ _ _ Hwf Hpos Hbound
                Hvalid Hr) as (_ & _ & _ & _ & Hframe & _).
    apply Hframe; assumption.
Qed.

Lemma C9_insert_frame_witness :
  exists s1 s2,
    insertBatch 4 ([], concat (replicate 8 (seq 0 4))) (GpuHashTable_new 8) [1] [10] 1
    = Some (s1, true) /\
    insertBatch 4 ([], concat (replicate 8 (seq 0 4))) s1 [2] [20] 1 = Some (s2, true) /\
    capacity s2 = capacity s1.
Proof.
  eexists. eexists. split; [vm_compute; reflexivity|].
  split; [vm_compute; reflexivity|].
  eapply (proj1 (proj1 (C9_insert_frame 4 ([], concat (replicate 8 (seq 0 4))) _
                          [2] [20] 1 _ true _ _ _) _)).
  Unshelve.
  - lia.
  - unfold uint32_max. lia.
  - vm_compute. reflexivity.
  - vm_compute. reflexivity.
Defined.


(** * Further properties of the code *)

(** ** The launch shape *)

(** X1 (launch shape).
    [estimateBlockSize] takes the block size of the device and the least
    number of blocks that gives a thread to every item: the grid has a
    thread for each item, and fewer than one block of threads in excess. *)
Theorem estimateBlockSize_least maxThreadsPerBlock nItems :
  0 < maxThreadsPerBlock -> 0 <= nItems ->
  (estimateBlockSize maxThreadsPerBlock nItems).2 = maxThreadsPerBlock /\
  0 <= (estimateBlockSize maxThreadsPerBlock nItems).1 /\
  nItems <= (estimateBlockSize maxThreadsPerBlock nItems).1 * maxThreadsPerBlock
         < nItems + maxThreadsPerBlock /\
  forall i, Z.of_nat i < nItems ->
    grid (estimateBlockSize maxThreadsPerBlock nItems).1
         (estimateBlockSize maxThreadsPerBlock nItems).2 !! i = Some i.
Proof.
  intros Ht Hn. unfold estimateBlockSize. cbn [fst snd].
  pose proof (Z.div_mod nItems maxThreadsPerBlock ltac:(lia)) as Hdm.
  pose proof (Z.mod_pos_bound nItems maxThreadsPerBlock Ht) as Hm.
  pose proof (Z.div_pos nItems maxThreadsPerBlock Hn Ht) as Hq.
  set (q := nItems / maxThreadsPerBlock) in *.
  set (r := nItems mod maxThreadsPerBlock) in *.
  assert (Hb : 0 <= q + (if r =? 0 then 0 else 1)
               /\ nItems <= (q + (if r =? 0 then 0 else 1)) * maxThreadsPerBlock
                         < nItems + maxThreadsPerBlock).
  { destruct (Z.eqb_spec r 0) as [E|E]; split; nia. }
  split; [reflexivity|]. split; [tauto|]. split; [tauto|].
  intros i Hi. unfold grid. apply lookup_seq. split; [reflexivity|]. lia.
Qed.

Lemma estimateBlockSize_least_witness :
  estimateBlockSize 1024 2500 = (3, 1024) /\
  2500 <= (estimateBlockSize 1024 2500).1 * 1024 < 2500 + 1024.
Proof.
  split; [reflexivity|].
  apply (estimateBlockSize_least 1024 2500); lia.
Defined.

(** ** The hash function *)

Lemma lxor_range a b : is_uint32 a -> is_uint32 b -> is_uint32 (Z.lxor a b).
Proof.
  unfold is_uint32, uint32_max. intros Ha Hb.
  assert (H0 : 0 <= Z.lxor a b) by (apply Z.lxor_nonneg; lia).
  split; [exact H0|].
  destruct (Z.eq_dec (Z.lxor a b) 0) as [->|Hne]; [lia|].
  change 4294967296 with (2 ^ 32). apply Z.log2_lt_pow2; [lia|].
  pose proof (Z.log2_lxor a b ltac:(lia) ltac:(lia)) as Hl.
  assert (Z.log2 a < 32).
  { destruct (Z.eq_dec a 0) as [->|]; [cbn; lia|]. apply Z.log2_lt_pow2; lia. }
  assert (Z.log2 b < 32).
  { destruct (Z.eq_dec b 0) as [->|]; [cbn; lia|]. apply Z.log2_lt_pow2; lia. }
  lia.
Qed.

Lemma shiftr_range a k : 0 <= k -> is_uint32 a -> is_uint32 (Z.shiftr a k).
Proof.
  unfold is_uint32. intros Hk Ha. rewrite Z.shiftr_div_pow2 by lia.
  pose proof (pow2_pos k Hk).
  split; [apply Z.div_pos; lia|].
  apply Z.le_lt_trans with a; [|lia]. apply Z.div_le_upper_bound; nia.
Qed.

(** [x ^ (x >> k)] is one to one. *)
Lemma xorshift_inj k x y :
  0 < k -> is_uint32 x -> is_uint32 y ->
  Z.lxor x (Z.shiftr x k) = Z.lxor y (Z.shiftr y k) -> x = y.
Proof.
  unfold is_uint32, uint32_max. intros Hk Hx Hy E.
  assert (Hhigh : forall z n, 0 <= z < 4294967296 -> 32 <= n -> Z.testbit z n = false).
  { intros z n Hz Hn. destruct (Z.eq_dec z 0) as [->|]; [apply Z.bits_0|].
    apply Z.bits_above_log2; [lia|].
    assert (Z.log2 z < 32) by (apply Z.log2_lt_pow2; lia). lia. }
  assert (Hbit : forall d n, 0 <= n -> (Z.to_nat (32 - n) <= d)%nat ->
                   Z.testbit x n = Z.testbit y n).
  { induction d as [|d IH]; intros n Hn Hd.
    - rewrite !Hhigh by lia. reflexivity.
    - destruct (Z_lt_le_dec n 32) as [Hlt|Hge]; [|rewrite !Hhigh by lia; reflexivity].
      pose proof (f_equal (fun z => Z.testbit z n) E) as En. cbv beta in En.
      rewrite !Z.lxor_spec, !Z.shiftr_spec in En by lia.
      rewrite (IH (n + k)) in En by lia.
      destruct (Z.testbit x n), (Z.testbit y n), (Z.testbit y (n + k));
        cbn in En; congruence. }
  apply Z.bits_inj'. intros n Hn. apply (Hbit (Z.to_nat (32 - n))); lia.
Qed.

(** [m * x + c] modulo [2^32] is one to one when [m] is odd. *)
Lemma affine_inj m c inv x y :
  (inv * m) mod uint32_max = 1 ->
  is_uint32 x -> is_uint32 y ->
  wrap32 (m * x + c) = wrap32 (m * y + c) -> x = y.
Proof.
  unfold is_uint32, wrap32, uint32_max. intros Hinv Hx Hy E.
  assert (Hd : (4294967296 | m * (x - y))).
  { apply Z.mod_divide; [lia|].
    replace (m * (x - y)) with ((m * x + c) - (m * y + c)) by ring.
    rewrite Zminus_mod, E, Z.sub_diag. reflexivity. }
  assert (Hd' : (4294967296 | x - y)).
  { pose proof (Z.div_mod (inv * m) 4294967296 ltac:(lia)) as Hq. rewrite Hinv in Hq.
    destruct Hd as [u Hu].
    exists (inv * u - (inv * m / 4294967296) * (x - y)).
    replace (x - y) with ((inv * m) * (x - y) - (4294967296 * (inv * m / 4294967296)) * (x - y))
      at 1 by (rewrite Hq at 1; ring).
    replace (inv * m * (x - y)) with (inv * (m * (x - y))) by ring. rewrite Hu. ring. }
  destruct Hd' as [u Hu]. assert (u = 0) by nia. lia.
Qed.

Lemma lxor_ones32 h : is_uint32 h -> Z.lxor h (uint32_max - 1) = uint32_max - 1 - h.
Proof.
  unfold is_uint32, uint32_max. intros Hh.
  change (4294967296 - 1) with (Z.ones 32).
  assert (E : Z.lxor h (Z.ones 32) = Z.land (Z.lnot h) (Z.ones 32)).
  { apply Z.bits_inj'. intros n Hn.
    rewrite Z.lxor_spec, Z.land_spec, Z.lnot_spec by lia.
    destruct (Z_lt_le_dec n 32) as [Hlt|Hge].
    - rewrite Z.ones_spec_low by lia. destruct (Z.testbit h n); reflexivity.
    - rewrite Z.ones_spec_high by lia.
      assert (Z.testbit h n = false) as ->.
      { destruct (Z.eq_dec h 0) as [->|]; [apply Z.bits_0|].
        apply Z.bits_above_log2; [lia|].
        assert (Z.log2 h < 32) by (apply Z.log2_lt_pow2; lia). lia. }
      reflexivity. }
  rewrite E, Z.land_ones by lia.
  change (Z.ones 32) with 4294967295. change (2 ^ 32) with 4294967296.
  unfold Z.lnot, Z.pred.
  symmetry. apply (Z.mod_unique _ _ (-1)); [left; lia|lia].
Qed.

Lemma mix_step1 h :
  is_uint32 h ->
  wrap32 (Z.lxor h (uint32_max - 1) + wrap32 (Z.shiftl h 15))
  = wrap32 (32767 * h + 4294967295).
Proof.
  intros Hh. rewrite lxor_ones32 by exact Hh. unfold wrap32, uint32_max.
  rewrite Z.shiftl_mul_pow2 by lia. rewrite Z.add_mod_idemp_r by lia.
  f_equal. change (2 ^ 15) with 32768. lia.
Qed.

Lemma mix_step3 h : wrap32 (h + wrap32 (Z.shiftl h 2)) = wrap32 (5 * h + 0).
Proof.
  unfold wrap32, uint32_max. rewrite Z.shiftl_mul_pow2 by lia.
  rewrite Z.add_mod_idemp_r by lia. f_equal. change (2 ^ 2) with 4. lia.
Qed.

Lemma mix_step5 h :
  wrap32 (wrap32 (h + wrap32 (Z.shiftl h 3)) + wrap32 (Z.shiftl h 11))
  = wrap32 (2057 * h + 0).
Proof.
  unfold wrap32, uint32_max. rewrite !Z.shiftl_mul_pow2 by lia.
  rewrite Z.add_mod_idemp_r, Z.add_mod_idemp_l by lia.
  replace (h + (h * 2 ^ 3) mod 4294967296 + h * 2 ^ 11)
    with (h + h * 2 ^ 11 + (h * 2 ^ 3) mod 4294967296) by ring.
  rewrite Z.add_mod_idemp_r by lia.
  f_equal. change (2 ^ 3) with 8. change (2 ^ 11) with 2048. lia.
Qed.

Lemma xorshift_range k h : 0 <= k -> is_uint32 h -> is_uint32 (Z.lxor h (Z.shiftr h k)).
Proof. intros Hk Hh. apply lxor_range; [exact Hh|apply shiftr_range; assumption]. Qed.

(** X2 (the hash is a permutation).
    [hashFunc] is a permutation of the 32-bit values: its result is a 32-bit
    value, and two keys have the same hash only when they are the same 32-bit
    value.  Two keys can thus share a home bucket only through the reduction
    modulo [capacity]. *)
Theorem hashFunc_one_to_one k1 k2 :
  is_uint32 k1 -> is_uint32 k2 ->
  is_uint32 (hashFunc k1) /\ (hashFunc k1 = hashFunc k2 -> k1 = k2).
Proof.
  intros H1 H2. unfold hashFunc. cbv zeta.
  rewrite !(wrap32_small k1), !(wrap32_small k2) by exact H1 || exact H2.
  rewrite !mix_step1 by assumption. rewrite !mix_step3, !mix_step5.
  set (a1 := wrap32 (32767 * k1 + 4294967295)).
  set (a2 := wrap32 (32767 * k2 + 4294967295)).
  assert (Ha1 : is_uint32 a1) by apply wrap32_range.
  assert (Ha2 : is_uint32 a2) by apply wrap32_range.
  set (b1 := Z.lxor a1 (Z.shiftr a1 12)). set (b2 := Z.lxor a2 (Z.shiftr a2 12)).
  assert (Hb1 : is_uint32 b1) by (apply xorshift_range; [lia|exact Ha1]).
  assert (Hb2 : is_uint32 b2) by (apply xorshift_range; [lia|exact Ha2]).
  set (c1 := wrap32 (5 * b1 + 0)). set (c2 := wrap32 (5 * b2 + 0)).
  assert (Hc1 : is_uint32 c1) by apply wrap32_range.
  assert (Hc2 : is_uint32 c2) by apply wrap32_range.
  set (d1 := Z.lxor c1 (Z.shiftr c1 4)). set (d2 := Z.lxor c2 (Z.shiftr c2 4)).
  assert (Hd1 : is_uint32 d1) by (apply xorshift_range; [lia|exact Hc1]).
  assert (Hd2 : is_uint32 d2) by (apply xorshift_range; [lia|exact Hc2]).
  set (e1 := wrap32 (2057 * d1 + 0)). set (e2 := wrap32 (2057 * d2 + 0)).
  assert (He1 : is_uint32 e1) by apply wrap32_range.
  assert (He2 : is_uint32 e2) by apply wrap32_range.
  split; [apply xorshift_range; [lia|exact He1]|].
  intros E.
  apply (xorshift_inj 16) in E; [|lia|exact He1|exact He2].
  apply (affine_inj 2057 0 3369993785) in E; [|reflexivity|exact Hd1|exact Hd2].
  apply (xorshift_inj 4) in E; [|lia|exact Hc1|exact Hc2].
  apply (affine_inj 5 0 3435973837) in E; [|reflexivity|exact Hb1|exact Hb2].
  apply (xorshift_inj 12) in E; [|lia|exact Ha1|exact Ha2].
  apply (affine_inj 32767 4294967295 3221192703) in E; [|reflexivity|exact H1|exact H2].
  exact E.
Qed.

Lemma hashFunc_one_to_one_witness :
  is_uint32 (hashFunc 7) /\ (hashFunc 7 = hashFunc 4294967295 -> 7 = 4294967295).
Proof. apply (hashFunc_one_to_one 7 4294967295); unfold is_uint32, uint32_max; lia. Defined.

(** ** getBatch *)

Lemma kernelGet_keeps sched nBlocks nThreads t capacity device_keys device_values numKeys
    t' out :
  kernelGet sched nBlocks nThreads t capacity device_keys device_values numKeys
  = Some (t', out) ->
  t' = t /\ length out = length device_values.
Proof.
  unfold kernelGet. intros Hr. apply synchronize_some in Hr as [Hm _].
  assert (Hinv : (fun st : (list TableEntry * list Z) * list get_pc =>
                    st.1.1 = t /\ length st.1.2 = length device_values)
                   (run (kernelGet_thread capacity device_keys) sched
                      ((t, device_values),
                       map (kernelGet_entry capacity device_keys numKeys)
                         (grid nBlocks nThreads)))).
  { apply run_invariant; [|split; reflexivity].
    intros [[tb ob] pool] idx [Ht Hl]. cbn [fst snd] in Ht, Hl. unfold step. cbn [fst snd].
    destruct (pool !! idx) as [l|]; [|split; assumption].
    destruct l as [h|]; cbn [kernelGet_thread fst snd].
    - destruct (tb !! Z.to_nat h) as [e|]; [|split; assumption].
      destruct (device_keys !!! idx =? key e); cbn [fst snd]; [|split; assumption].
      split; [exact Ht|]. rewrite length_insert. exact Hl.
    - split; assumption. }
  cbv beta in Hinv. rewrite <- Hm in Hinv. exact Hinv.
Qed.

(** X3 (getBatch is read-only).
    [getBatch] never changes the object, whatever the table, the keys and
    the schedule: when it returns, the table, [capacity] and [used_buckets]
    are as before, and the result is [NULL] for [numKeys = 0] and an array
    of [numKeys] values otherwise. *)
Theorem getBatch_read_only maxThreadsPerBlock sched (this : GpuHashTable) keys numKeys s' r :
  0 <= numKeys ->
  getBatch maxThreadsPerBlock sched this keys numKeys = Some (s', r) ->
  s' = this /\
  (numKeys = 0 -> r = None) /\
  (numKeys <> 0 -> exists out, r = Some out /\ length out = Z.to_nat numKeys).
Proof.
  intros _. unfold getBatch. destruct (Z.eqb_spec numKeys 0) as [->|Hn].
  - intros [= <- <-]. split; [reflexivity|]. split; [reflexivity|]. intros []. reflexivity.
  - destruct (estimateBlockSize maxThreadsPerBlock numKeys) as [nB nT].
    destruct (kernelGet _ _ _ _ _ _ _ _) as [[t' out]|] eqn:Hk; [|discriminate].
    intros [= <- <-]. apply kernelGet_keeps in Hk as [-> Hlen].
    rewrite length_replicate in Hlen.
    split; [destruct this; reflexivity|]. split; [intros; contradiction|].
    intros _. exists out. split; [reflexivity|exact Hlen].
Qed.

Lemma getBatch_read_only_witness :
  exists s' r,
    getBatch 4 (concat (replicate 4 (seq 0 4)))
      {| table := [{| key := 7; value := 70 |}; {| key := 5; value := 50 |}];
         used_buckets := 2; capacity := 2 |} [5; 7] 2 = Some (s', r) /\
    s' = {| table := [{| key := 7; value := 70 |}; {| key := 5; value := 50 |}];
            used_buckets := 2; capacity := 2 |}.
Proof.
  eexists. eexists. split; [vm_compute; reflexivity|].
  eapply (getBatch_read_only 4 (concat (replicate 4 (seq 0 4))) _ [5; 7] 2 _ _); [lia|].
  vm_compute. reflexivity.
Defined.

(** X4 (when getBatch returns).
    A call of [getBatch] can return exactly when every key it asks for is
    in the table: with all the keys present it returns along some schedule,
    and with one key absent it returns along none (the kernel has no test
    for an empty slot or for a full turn of the table). *)
Theorem getBatch_returns_iff maxThreadsPerBlock (this : GpuHashTable) keys numKeys :
  0 < maxThreadsPerBlock ->
  0 < capacity this < uint32_max ->
  Z.of_nat (length (table this)) = capacity this ->
  0 < numKeys ->
  (exists sched r, getBatch maxThreadsPerBlock sched this keys numKeys = Some r) <->
  (forall i, Z.of_nat i < numKeys ->
     exists j, keys_of (table this) !! j = Some (keys !!! i)).
Proof.
  intros Hthreads Hcap Hlen Hn. split.
  - intros (sched & r & Hr) i Hi.
    destruct (list_find (fun k => k = keys !!! i) (keys_of (table this))) as [[j k]|] eqn:Hf.
    + apply list_find_Some in Hf as (Hj & -> & _). exists j. exact Hj.
    + exfalso. rewrite (getBatch_hangs maxThreadsPerBlock Hthreads sched this keys numKeys i Hi)
        in Hr; [discriminate|].
      intros j Hj. rewrite list_find_None in Hf. rewrite list.Forall_forall in Hf.
      apply (Hf (keys !!! i)); [|reflexivity]. eapply list_elem_of_lookup_2, Hj.
  - intros Hall. apply getBatch_returns; assumption.
Qed.

Lemma getBatch_returns_iff_witness :
  (exists sched r,
     getBatch 4 sched
       {| table := [{| key := 7; value := 70 |}; {| key := 5; value := 50 |}];
          used_buckets := 2; capacity := 2 |} [5; 7] 2 = Some r).
Proof.
  apply (getBatch_returns_iff 4
           {| table := [{| key := 7; value := 70 |}; {| key := 5; value := 50 |}];
              used_buckets := 2; capacity := 2 |} [5; 7] 2);
    [lia|cbn; unfold uint32_max; lia|reflexivity|lia|].
  intros [|[|i]] Hi; [exists 1%nat; reflexivity|exists 0%nat; reflexivity|lia].
Defined.

(** ** What a batch leaves in the table *)

Section Content.
Variable maxThreadsPerBlock : Z.
Hypothesis threads_pos : 0 < maxThreadsPerBlock.
Variables (scheds : list nat * list nat) (this : GpuHashTable) (keys values : list Z).
Variables (s' : GpuHashTable) (b : bool).
Hypothesis this_wf : wf this.
Hypothesis keys_distinct : NoDup keys.
Hypothesis keys_valid : Forall (fun k => k <> KEY_INVALID) keys.
Hypothesis keys_some : keys <> [].
Hypothesis values_length : length values = length keys.
Hypothesis no_wrap : used_buckets this + Z.of_nat (length keys) <= 1000000000.
Hypothesis result :
  insertBatch maxThreadsPerBlock scheds this keys values (Z.of_nat (length keys))
  = Some (s', b).

Lemma content_facts :
  wf s' /\
  (forall i k, keys !! i = Some k -> stored (table s') k (values !!! i)) /\
  (forall k v, k <> KEY_INVALID -> stored (table this) k v -> k ∉ keys ->
     stored (table s') k v) /\
  (forall k, k ∈ live_keys (table s') -> k ∈ live_keys (table this) \/ k ∈ keys).
Proof.
  assert (Hn : 0 < Z.of_nat (length keys)) by (destruct keys; [contradiction|cbn; lia]).
  assert (Hv : forall i, Z.of_nat i < Z.of_nat (length keys) -> keys !!! i <> KEY_INVALID).
  { intros i Hi. rewrite list.Forall_forall in keys_valid.
    apply keys_valid, list_elem_of_lookup_total_2. lia. }
  destruct (insertBatch_spec maxThreadsPerBlock threads_pos _ _ _ _ _ _ _ this_wf Hn no_wrap
              Hv result) as (_ & Hwf' & _ & Hins & Hframe & Hlive).
  split; [exact Hwf'|]. split; [|split].
  - intros i k Hi.
    pose proof (lookup_lt_Some _ _ _ Hi) as Hlt.
    destruct (Hins i ltac:(lia)) as (i' & Hi' & Hk & Hst).
    rewrite (list_lookup_total_correct _ _ _ Hi) in Hk, Hst.
    assert (i' = i) as ->; [|exact Hst].
    eapply NoDup_lookup; [exact keys_distinct| |exact Hi].
    rewrite <- Hk. apply list_lookup_lookup_total_lt. lia.
  - intros k v Hk Hst Hnot. apply Hframe; [exact Hk|exact Hst|].
    intros i Hi E. apply Hnot. rewrite <- E. apply list_elem_of_lookup_total_2. lia.
  - intros k Hk. apply Hlive in Hk as [Hk|(i & Hi & <-)]; [left; exact Hk|].
    right. apply list_elem_of_lookup_total_2. lia.
Qed.
End Content.

(** X5 (content after a batch).
    After [insertBatch] of distinct keys on a well-formed table the table
    holds, whatever the two schedules were, exactly the pairs of the batch
    and the pairs it held before for other keys. *)
Theorem insertBatch_content maxThreadsPerBlock scheds this keys values s' b :
  0 < maxThreadsPerBlock -> wf this ->
  NoDup keys -> Forall (fun k => k <> KEY_INVALID) keys -> keys <> [] ->
  length values = length keys ->
  used_buckets this + Z.of_nat (length keys) <= 1000000000 ->
  insertBatch maxThreadsPerBlock scheds this keys values (Z.of_nat (length keys))
  = Some (s', b) ->
  forall k v, k <> KEY_INVALID ->
    (stored (table s') k v <->
     (exists i, keys !! i = Some k /\ values !! i = Some v) \/
     ((k ∉ keys) /\ stored (table this) k v)).
Proof.
  intros Hthreads Hwf Hnd Hvalid Hne Hlen Hbound Hr k v Hk.
  destruct (content_facts maxThreadsPerBlock Hthreads scheds this keys values s' b
              Hwf Hnd Hvalid Hne Hlen Hbound Hr) as ([_ Htab' _] & Hins & Hframe & Hlive).
  split.
  - intros Hst. destruct (decide (k ∈ keys)) as [Hin|Hnot].
    + left. apply list_elem_of_lookup_1 in Hin as [i Hi]. exists i. split; [exact Hi|].
      pose proof (Hins i k Hi) as Hst'.
      rewrite (stored_unique _ _ _ _ _ Htab' Hk Hst Hst').
      apply list_lookup_lookup_total_lt. apply lookup_lt_Some in Hi. lia.
    + right. split; [exact Hnot|].
      destruct (Hlive k (stored_live _ _ _ Hk Hst)) as [Hold|Hin]; [|contradiction].
      apply live_stored in Hold as [_ [v0 Hv0]].
      rewrite (stored_unique _ _ _ _ _ Htab' Hk Hst (Hframe k v0 Hk Hv0 Hnot)). exact Hv0.
  - intros [(i & Hi & Hv)|[Hnot Hst]].
    + rewrite <- (list_lookup_total_correct _ _ _ Hv). apply Hins, Hi.
    + apply Hframe; assumption.
Qed.

Lemma insertBatch_content_witness :
  exists s',
    insertBatch 4 ([], concat (replicate 8 (seq 0 4))) (GpuHashTable_new 8)
      [1; 2; 3] [10; 20; 30] 3 = Some (s', true) /\
    (stored (table s') 2 20 <->
     (exists i, [1; 2; 3] !! i = Some 2 /\ [10; 20; 30] !! i = Some 20) \/
     ((2 ∉ [1; 2; 3]) /\ stored (table (GpuHashTable_new 8)) 2 20)).
Proof.
  eexists. split; [vm_compute; reflexivity|].
  eapply (insertBatch_content 4 ([], concat (replicate 8 (seq 0 4))) (GpuHashTable_new 8)
            [1; 2; 3] [10; 20; 30] _ true).
  - lia.
  - apply wf_new. lia.
  - apply (bool_decide_unpack (NoDup [1; 2; 3])). vm_compute. exact I.
  - repeat constructor; discriminate.
  - discriminate.
  - reflexivity.
  - cbn. lia.
  - vm_compute. reflexivity.
  - discriminate.
Defined.

(** X6 (round trip of one batch).
    After [insertBatch] of distinct keys on a
    well-formed table, [getBatch] of the same keys returns along some
    schedule, and whenever it returns it gives the values of the batch, in
    the order of the keys. *)
Theorem insertBatch_getBatch maxThreadsPerBlock scheds this keys values s' b :
  0 < maxThreadsPerBlock -> wf this ->
  NoDup keys -> Forall (fun k => k <> KEY_INVALID) keys -> keys <> [] ->
  length values = length keys ->
  used_buckets this + Z.of_nat (length keys) <= 1000000000 ->
  insertBatch maxThreadsPerBlock scheds this keys values (Z.of_nat (length keys))
  = Some (s', b) ->
  (exists sched r,
     getBatch maxThreadsPerBlock sched s' keys (Z.of_nat (length keys)) = Some r) /\
  forall sched s'' r,
    getBatch maxThreadsPerBlock sched s' keys (Z.of_nat (length keys)) = Some (s'', r) ->
    r = Some values.
Proof.
  intros Hthreads Hwf Hnd Hvalid Hne Hlen Hbound Hr.
  destruct (content_facts maxThreadsPerBlock Hthreads scheds this keys values s' b
              Hwf Hnd Hvalid Hne Hlen Hbound Hr) as ([Hcap Htab' _] & Hins & _ & _).
  assert (Hn : 0 < Z.of_nat (length keys)) by (destruct keys; [contradiction|cbn; lia]).
  assert (Hcr : 0 < capacity s' < uint32_max) by (unfold uint32_max; lia).
  split.
  - apply (getBatch_returns maxThreadsPerBlock); auto; [apply (ok_length _ _ Htab')|].
    intros i Hi. eapply stored_keys_of, (Hins i).
    apply list_lookup_lookup_total_lt. lia.
  - intros sched s'' r Hg.
    destruct (getBatch_spec maxThreadsPerBlock Hthreads _ _ _ _ _ _ Hcr (ok_length _ _ Htab')
                Hn Hg) as (_ & out & -> & Hlo & Hout).
    f_equal. apply list_eq. intros i.
    destruct (decide (i < length keys)%nat) as [Hi|Hi].
    + destruct (Hout i ltac:(lia)) as (v & Hv & Hst). rewrite Hv.
      assert (Hki : keys !! i = Some (keys !!! i)) by (apply list_lookup_lookup_total_lt; lia).
      assert (Hkv : keys !!! i <> KEY_INVALID).
      { rewrite list.Forall_forall in Hvalid. apply Hvalid, list_elem_of_lookup_total_2. lia. }
      rewrite (stored_unique _ _ _ _ _ Htab' Hkv Hst (Hins i _ Hki)).
      symmetry. apply list_lookup_lookup_total_lt. lia.
    + rewrite !lookup_ge_None_2 by lia. reflexivity.
Qed.

Lemma insertBatch_getBatch_witness :
  exists s',
    insertBatch 4 ([], concat (replicate 8 (seq 0 4))) (GpuHashTable_new 8)
      [1; 2; 3] [10; 20; 30] 3 = Some (s', true) /\
    exists sched r, getBatch 4 sched s' [1; 2; 3] 3 = Some r.
Proof.
  eexists. split; [vm_compute; reflexivity|].
  eapply (insertBatch_getBatch 4 ([], concat (replicate 8 (seq 0 4))) (GpuHashTable_new 8)
            [1; 2; 3] [10; 20; 30] _ true).
  - lia.
  - apply wf_new. lia.
  - apply (bool_decide_unpack (NoDup [1; 2; 3])). vm_compute. exact I.
  - repeat constructor; discriminate.
  - discriminate.
  - reflexivity.
  - cbn. lia.
  - vm_compute. reflexivity.
Defined.

(** ** reshape *)

(** X7 (content after a resize).
    [reshape] to a capacity with room for the live keys (it need not be
    twice their number) gives a table of that capacity with exactly the
    pairs of the old one, whatever the schedule. *)
Theorem reshape_content maxThreadsPerBlock sched this c s' :
  0 < maxThreadsPerBlock -> wf this ->
  live (table this) <= c -> 0 < c < 2147483648 ->
  reshape maxThreadsPerBlock sched this c = Some s' ->
  capacity s' = c /\ Z.of_nat (length (table s')) = c /\
  forall k v, k <> KEY_INVALID ->
    (stored (table s') k v <-> stored (table this) k v).
Proof.
  intros Hthreads [Hcap Htab Hused] Hroom Hc Hr.
  assert (Hcr : 0 < c < uint32_max) by (unfold uint32_max; lia).
  destruct (reshape_spec maxThreadsPerBlock Hthreads _ _ _ _ (ok_length _ _ Htab)
              (table_ok_NoDup _ _ Htab) (ok_distinct _ _ Htab) Hroom Hcr Hr)
    as (Hc' & _ & Htab' & _ & Hkeep & Hsub).
  split; [exact Hc'|]. split; [apply (ok_length _ _ Htab')|].
  intros k v Hk. split; [|apply Hkeep, Hk].
  intros Hst.
  pose proof (Hsub k (stored_live _ _ _ Hk Hst)) as Hold.
  apply live_stored in Hold as [_ [v0 Hv0]].
  rewrite (stored_unique _ _ _ _ _ Htab' Hk Hst (Hkeep k v0 Hk Hv0)). exact Hv0.
Qed.

Lemma reshape_content_witness :
  exists s',
    reshape 4 (concat (replicate 8 (seq 0 4)))
      {| table := [{| key := 7; value := 70 |}; {| key := 5; value := 50 |}];
         used_buckets := 2; capacity := 2 |} 3 = Some s' /\
    capacity s' = 3 /\ (stored (table s') 5 50 <->
                        stored [{| key := 7; value := 70 |}; {| key := 5; value := 50 |}] 5 50).
Proof.
  eexists. split; [vm_compute; reflexivity|].
  assert (Hwf : wf {| table := [{| key := 7; value := 70 |}; {| key := 5; value := 50 |}];
                      used_buckets := 2; capacity := 2 |}).
  { split; cbn [capacity table used_buckets]; [lia| |reflexivity].
    split; [reflexivity| |].
    - intros [|[|j1]] [|[|j2]] k H1 H2 _; vm_compute in H1, H2; congruence.
    - intros [|[|j]] k [|[|j']] k' H1 Hk H2 Ho; vm_compute in H1, H2; try discriminate;
        injection H2 as <-; discriminate. }
  destruct (reshape_content 4 (concat (replicate 8 (seq 0 4))) _ 3 _ ltac:(lia) Hwf
              ltac:(vm_compute; discriminate) ltac:(lia) ltac:(vm_compute; reflexivity))
    as (Hc & _ & Hst).
  split; [exact Hc|]. apply (Hst 5 50). discriminate.
Defined.

Lemma kernelReshape_keys sched nBlocks nThreads old_table old_capacity capacity t' :
  Z.of_nat (length old_table) = old_capacity -> old_capacity < uint32_max ->
  old_capacity <= nBlocks * nThreads ->
  kernelReshape sched nBlocks nThreads old_table old_capacity
    (cudaMemset_table KEY_INVALID capacity) capacity = Some t' ->
  length t' = length (cudaMemset_table KEY_INVALID capacity) /\
  forall k, k ∈ live_keys t' -> k ∈ live_keys old_table.
Proof.
  intros Hlen Hsmall Hcov Hr.
  apply kernelReshape_claim in Hr. apply synchronize_some in Hr as [Hm _].
  set (keyof := reshape_keyof old_table) in *.
  set (valof := reshape_valof old_table) in *.
  set (active := reshape_active old_table old_capacity) in *.
  set (pool0 := map (claim_entry capacity keyof active) (grid nBlocks nThreads)) in *.
  set (t0 := cudaMemset_table KEY_INVALID capacity) in *.
  pose proof (claim_basic_init capacity keyof active t0 0 (grid nBlocks nThreads)
                ltac:(lia) (grid_lookup _ _)) as Hinit.
  cbv zeta in Hinit. fold pool0 in Hinit.
  assert (Hpend : pending pool0 = live old_table)
    by (apply pending_reshape_pool; assumption).
  rewrite Hpend in Hinit.
  pose proof (live_le_length old_table) as Hlive.
  eapply (claim_basic_run false capacity keyof valof) in Hinit; [|lia].
  destruct Hinit as [Hl _ _ _ _ Horig _].
  rewrite <- Hm in *. cbn [fst snd] in *.
  split; [exact Hl|].
  intros k Hk. apply live_keys_elem in Hk as [Hk (j & e & Hj & He)].
  apply live_keys_elem. split; [exact Hk|].
  destruct (Horig j k) as [?|[H0|(i & Hi & Hki)]].
  - apply keys_of_lookup. eauto.
  - contradiction.
  - apply keys_of_lookup in H0 as (e0 & He0 & Hk0).
    apply memset_lookup in He0 as ->. cbn in Hk0. congruence.
  - apply reshape_active_spec in Hi as (e0 & He0 & _); [|exact Hlen].
    exists i, e0. split; [exact He0|].
    rewrite <- Hki. unfold keyof, reshape_keyof, old_entry. rewrite He0. reflexivity.
Qed.

(** X8 (resize to any capacity).
    [reshape] to any positive capacity returns along some schedule and never
    adds a key: the live keys of the new table are live keys of the old one,
    [used_buckets] is copied as it is, and at most [numBucketsReshape] keys
    are left, so that a capacity below the number of live keys drops
    entries. *)
Theorem reshape_never_adds maxThreadsPerBlock this c :
  0 < maxThreadsPerBlock ->
  Z.of_nat (length (table this)) = capacity this -> 0 < capacity this < uint32_max ->
  0 < c < 2147483648 ->
  (exists sched s', reshape maxThreadsPerBlock sched this c = Some s') /\
  forall sched s', reshape maxThreadsPerBlock sched this c = Some s' ->
    capacity s' = c /\ Z.of_nat (length (table s')) = c /\
    used_buckets s' = used_buckets this /\
    live (table s') <= c /\
    forall k, k ∈ live_keys (table s') -> k ∈ live_keys (table this).
Proof.
  intros Hthreads Hlen Hsmall Hc. split.
  - apply reshape_returns; [exact Hlen|left; exact Hc].
  - intros sched s' Hr.
    destruct (reshape_fields _ _ _ _ _ Hr) as (Hc' & Hu & _ & Hk).
    pose proof (live_le_length (table this)) as Hl0.
    apply kernelReshape_keys in Hk as [Hl Hsub]; [|exact Hlen|lia|].
    2:{ apply covers_fst_snd; [exact Hthreads|lia]. }
    assert (Hl' : Z.of_nat (length (table s')) = c).
    { rewrite Hl. apply memset_length. lia. }
    pose proof (live_le_length (table s')).
    split; [exact Hc'|]. split; [exact Hl'|]. split; [exact Hu|]. split; [lia|exact Hsub].
Qed.

Lemma reshape_never_adds_witness :
  exists sched s',
    reshape 4 sched
      {| table := [{| key := 7; value := 70 |}; {| key := 5; value := 50 |}];
         used_buckets := 2; capacity := 2 |} 1 = Some s'.
Proof.
  apply (reshape_never_adds 4
           {| table := [{| key := 7; value := 70 |}; {| key := 5; value := 50 |}];
              used_buckets := 2; capacity := 2 |} 1);
    [lia|reflexivity|cbn; unfold uint32_max; lia|lia].
Defined.

(** ** The load factor test *)

(** X9 (the load factor test).
    The test [loadFactor(a, b) > MAX_LOAD_FACTOR] of [insertBatch], for all
    32-bit [a] and [b].  It holds when [b] is 0 and [a] is not (the quotient
    is infinite), and fails when [a] is 0 (the quotient is 0 or a NaN).
    Otherwise it is the comparison of [a / b] with 8/10 up to the rounding
    of single precision: it holds from [8/10 + 2^-22] on and fails up to
    [8/10 - 2^-22]. *)
Theorem loadFactor_test a b :
  is_uint32 a -> is_uint32 b ->
  (0 < a -> b = 0 -> float32_gt (loadFactor a b) MAX_LOAD_FACTOR = true) /\
  (a = 0 -> float32_gt (loadFactor a b) MAX_LOAD_FACTOR = false) /\
  (0 < a -> 0 < b -> 4194304 * (5 * a - 4 * b) >= 5 * b ->
   float32_gt (loadFactor a b) MAX_LOAD_FACTOR = true) /\
  (0 < a -> 0 < b -> 4194304 * (4 * b - 5 * a) >= 5 * b ->
   float32_gt (loadFactor a b) MAX_LOAD_FACTOR = false).
Proof.
  intros Ha Hb. split; [|split; [|split]].
  - intros Hpos ->. apply loadFactor_gt_max_zero, Hpos.
  - intros ->. unfold loadFactor. change (float_of_uint32 0) with (FFin 0 1).
    destruct (float_of_uint32 b) as [n d| |]; cbn; [|reflexivity|reflexivity].
    destruct (n =? 0); reflexivity.
  - intros Hpa Hpb Hhigh.
    destruct (float32_gt (loadFactor a b) MAX_LOAD_FACTOR) eqn:Hgt; [reflexivity|].
    pose proof (no_resize_room a b Hpa Hpb Hgt). lia.
  - intros Hpa Hpb. apply loadFactor_le_max; assumption.
Qed.

Lemma loadFactor_test_witness :
  float32_gt (loadFactor 9 10) MAX_LOAD_FACTOR = true /\
  float32_gt (loadFactor 7 10) MAX_LOAD_FACTOR = false.
Proof.
  split.
  - apply (loadFactor_test 9 10); unfold is_uint32, uint32_max; lia.
  - apply (loadFactor_test 7 10); unfold is_uint32, uint32_max; lia.
Defined.

(** ** Progress of the kernels

    A thread of the probing loops returns after a bounded number of its own
    steps, whatever the other threads do: a launch is over as soon as every
    thread has been scheduled that often. *)

Section Fair.
Context {M L : Type}.
Variable thread : nat -> L -> M -> M * L.
Variable returned : L -> bool.
Variable Inv : M * list L -> Prop.
Variable left : nat -> L -> nat.
Hypothesis Inv_step : forall st idx, Inv st -> Inv (step thread st idx).
Hypothesis left_returned : forall idx l, returned l = false -> left idx l <> 0%nat.
Hypothesis left_decreases : forall m pool idx l,
  Inv (m, pool) -> pool !! idx = Some l -> returned l = false ->
  (left idx (thread idx l m).2 < left idx l)%nat.
Hypothesis returned_stays : forall idx l m,
  returned l = true -> returned (thread idx l m).2 = true.

Lemma run_fair sched : forall st,
  Inv st ->
  (forall idx l, st.2 !! idx = Some l -> returned l = false ->
     (left idx l <= count_occ Nat.eq_dec sched idx)%nat) ->
  exists m, synchronize returned (run thread sched st) = Some m.
Proof.
  induction sched as [|i sched IH]; intros st HI Hfair.
  - exists st.1. apply synchronize_some. split; [reflexivity|].
    intros idx l Hl. destruct (returned l) eqn:Hr; [reflexivity|].
    pose proof (Hfair idx l Hl Hr) as Hle. pose proof (left_returned idx l Hr). cbn in Hle. lia.
  - rewrite run_cons. apply IH; [apply Inv_step, HI|].
    destruct st as [m pool]. intros idx l' Hl' Hr'.
    destruct (pool !! i) as [l|] eqn:Hi.
    + rewrite (step_some thread m pool i l Hi) in Hl'. cbn [snd] in Hl'.
      destruct (decide (idx = i)) as [->|Hne].
      * rewrite list_lookup_insert_eq in Hl' by (eapply lookup_lt_Some, Hi).
        injection Hl' as <-.
        destruct (returned l) eqn:Hr.
        { rewrite (returned_stays i l m Hr) in Hr'. discriminate. }
        pose proof (left_decreases m pool i l HI Hi Hr) as Hd.
        pose proof (Hfair i l Hi Hr) as Hle. cbn [count_occ] in Hle.
        destruct (Nat.eq_dec i i) as [_|Hc]; [lia|contradiction].
      * rewrite list_lookup_insert_ne in Hl' by auto.
        pose proof (Hfair idx l' Hl' Hr') as Hle. cbn [count_occ] in Hle.
        destruct (Nat.eq_dec i idx) as [Hc|_]; [congruence|exact Hle].
    + rewrite (step_none thread m pool i Hi) in Hl'. cbn [snd] in Hl'.
      pose proof (Hfair idx l' Hl' Hr') as Hle. cbn [count_occ] in Hle.
      destruct (Nat.eq_dec i idx) as [Hc|_]; [congruence|exact Hle].
Qed.
End Fair.

Lemma steps_left_bound capacity keyof idx l :
  0 < capacity -> (steps_left capacity keyof idx l <= Z.to_nat capacity + 2)%nat.
Proof.
  intros Hc. destruct l as [h|h|h|]; cbn [steps_left]; try lia.
  pose proof (offset_range capacity (keyof idx) Hc h). lia.
Qed.

Lemma claim_fair update capacity keyof valof sched st :
  0 < capacity < uint32_max ->
  claim_bounds capacity st ->
  (forall idx, (idx < length st.2)%nat ->
     (Z.to_nat capacity + 2 <= count_occ Nat.eq_dec sched idx)%nat) ->
  exists m, synchronize insert_returned
              (run (claim_thread update capacity keyof valof) sched st) = Some m.
Proof.
  intros Hcap Hb Hfair.
  apply (run_fair (claim_thread update capacity keyof valof) insert_returned
           (claim_bounds capacity) (steps_left capacity keyof)).
  - intros st0 idx. apply claim_bounds_step. exact Hcap.
  - intros idx l Hr. destruct l; cbn [steps_left]; try lia. discriminate.
  - intros m pool idx l. apply claim_steps_left. exact Hcap.
  - intros idx l m Hr. destruct l; try discriminate. reflexivity.
  - exact Hb.
  - intros idx l Hl _. pose proof (steps_left_bound capacity keyof idx l ltac:(lia)).
    pose proof (Hfair idx (lookup_lt_Some _ _ _ Hl)). lia.
Qed.

(** [kernelInsert] is over as soon as every thread of the grid has been
    scheduled [capacity + 2] times, whatever the table (of [capacity] slots)
    holds and in whatever order the threads run: a worker visits each slot
    at most once, then counts and stores or gives up. *)
Lemma kernelInsert_fair sched nBlocks nThreads t capacity device_keys device_values
    numKeys :
  0 < capacity < uint32_max -> Z.of_nat (length t) = capacity ->
  fair (Z.to_nat capacity + 2) (nBlocks * nThreads) sched ->
  exists r,
    kernelInsert sched nBlocks nThreads t capacity device_keys device_values numKeys 0
    = Some r.
Proof.
  intros Hcap Hlen Hfair. rewrite kernelInsert_claim.
  apply claim_fair; [exact Hcap|apply claim_bounds_init; [lia|exact Hlen]|].
  cbn [snd]. intros idx Hidx. rewrite claim_pool_length in Hidx. apply Hfair. lia.
Qed.

(** [kernelReshape] is over as soon as every thread of the grid has been
    scheduled [capacity + 2] times ([capacity] being that of the new table),
    also when the new table is too small for the entries. *)
Lemma kernelReshape_fair sched nBlocks nThreads old_table old_capacity capacity :
  0 < capacity < uint32_max ->
  fair (Z.to_nat capacity + 2) (nBlocks * nThreads) sched ->
  exists r,
    kernelReshape sched nBlocks nThreads old_table old_capacity
      (cudaMemset_table KEY_INVALID capacity) capacity = Some r.
Proof.
  intros Hcap Hfair.
  destruct (claim_fair false capacity (reshape_keyof old_table) (reshape_valof old_table) sched
              ((cudaMemset_table KEY_INVALID capacity, 0),
               map (claim_entry capacity (reshape_keyof old_table)
                      (reshape_active old_table old_capacity)) (grid nBlocks nThreads)) Hcap)
    as [m Hs].
  - apply claim_bounds_init; [lia|apply memset_length; lia].
  - cbn [snd]. intros idx Hidx. rewrite claim_pool_length in Hidx. apply Hfair. lia.
  - exists m.1. apply kernelReshape_claim. rewrite Hs. f_equal.
    apply synchronize_some in Hs as [-> _].
    assert (map (claim_entry capacity (reshape_keyof old_table)
                   (reshape_active old_table old_capacity)) (grid nBlocks nThreads)
            = reshape_pc_view <$>
                map (kernelReshape_entry old_table old_capacity capacity)
                  (grid nBlocks nThreads)) as ->.
    { change (map ?f ?l) with (f <$> l). rewrite <- list_fmap_compose.
      apply list_fmap_ext. intros i x _. cbn. symmetry. apply kernelReshape_entry_claim. }
    rewrite kernelReshape_run_claim. reflexivity.
Qed.

(** [kernelGet] on keys that are all in the table is over as soon as every
    thread of the grid has been scheduled [capacity] times: a look-up visits
    each slot at most once. *)
Lemma kernelGet_fair sched nBlocks nThreads t capacity device_keys device_values
    numKeys :
  0 < capacity < uint32_max -> Z.of_nat (length t) = capacity ->
  numKeys <= Z.of_nat (length device_values) ->
  (forall i, Z.of_nat i < numKeys -> exists j, keys_of t !! j = Some (device_keys !!! i)) ->
  fair (Z.to_nat capacity) (nBlocks * nThreads) sched ->
  exists r,
    kernelGet sched nBlocks nThreads t capacity device_keys device_values numKeys = Some r.
Proof.
  intros Hcap Hlen Hdv Hpresent Hfair. unfold kernelGet.
  apply (run_fair (kernelGet_thread capacity device_keys) get_returned
           (get_inv capacity device_keys numKeys t (length device_values))
           (get_steps_left capacity (fun i => slot_of t (device_keys !!! i)))).
  - intros. apply get_inv_step; assumption.
  - intros idx l Hr. destruct l; [cbn; lia|discriminate].
  - intros [t1 dv] pool idx l [Ht _ Hact Hprobe _] Hl Hr. cbn [fst snd] in *. subst t1.
    destruct l as [h|]; [|discriminate].
    pose proof (Hprobe idx h Hl) as Hh.
    assert (Hidx : Z.of_nat idx < numKeys) by (eapply Hact; [exact Hl|discriminate]).
    destruct (slot_of_spec t _ (Hpresent idx Hidx)) as (Hs & e0 & He0 & Hk0).
    cbn [kernelGet_thread fst snd].
    destruct (t !! Z.to_nat h) as [e|] eqn:He.
    2:{ apply lookup_ge_None in He. lia. }
    destruct (device_keys !!! idx =? key e) eqn:Ek; cbn [snd get_steps_left]; [lia|].
    apply Z.eqb_neq in Ek.
    rewrite wrap32_small by (unfold uint32_max in *; lia).
    rewrite get_next_distance; try lia.
    + pose proof (Z.mod_pos_bound (slot_of t (device_keys !!! idx) - h) capacity ltac:(lia)).
      assert ((slot_of t (device_keys !!! idx) - h) mod capacity <> 0); [|lia].
      intros Hz. mod_cases_of (slot_of t (device_keys !!! idx) - h) capacity.
      assert (h = slot_of t (device_keys !!! idx)) as -> by lia. congruence.
    + intros ->. congruence.
  - intros idx l m Hr. destruct l; [discriminate|reflexivity].
  - apply get_inv_init; auto.
  - cbn [snd]. intros idx l Hl Hr.
    assert (Hidx : (idx < Z.to_nat (nBlocks * nThreads))%nat).
    { apply lookup_lt_Some in Hl. unfold grid in Hl.
      rewrite length_map, length_seq in Hl. exact Hl. }
    pose proof (Hfair idx ltac:(lia)) as Hc.
    destruct l as [h|]; [|discriminate]. cbn [get_steps_left].
    pose proof (Z.mod_pos_bound (slot_of t (device_keys !!! idx) - h) capacity ltac:(lia)).
    lia.
Qed.

(** ** A table without a free slot *)

Lemma kernelInsert_full_result sched nBlocks nThreads t capacity device_keys device_values
    numKeys r :
  (forall j e, t !! j = Some e -> key e <> KEY_INVALID) ->
  (forall j e i, t !! j = Some e -> Z.of_nat i < numKeys -> device_keys !!! i <> key e) ->
  kernelInsert sched nBlocks nThreads t capacity device_keys device_values numKeys 0
  = Some r ->
  r = (t, 0).
Proof.
  intros Hfull Hnew Hr. unfold kernelInsert in Hr.
  apply synchronize_some in Hr as [-> _].
  assert (Hinv : (fun st : (list TableEntry * Z) * list insert_pc =>
                    st.1 = (t, 0) /\
                    forall i l, st.2 !! i = Some l ->
                      l = IReturn \/ exists h, l = IProbe h /\ Z.of_nat i < numKeys)
                   (run (kernelInsert_thread capacity device_keys device_values) sched
                      ((t, 0),
                       map (kernelInsert_entry capacity device_keys numKeys)
                         (grid nBlocks nThreads)))).
  { apply run_invariant.
    - intros [m pool] idx [Hm Hpool]. cbn [fst snd] in Hm, Hpool. subst m.
      destruct (pool !! idx) as [l|] eqn:Hl.
      2:{ rewrite step_none by exact Hl. split; [reflexivity|exact Hpool]. }
      rewrite (step_some _ _ _ _ _ Hl).
      assert (Hstep : (kernelInsert_thread capacity device_keys device_values idx l (t, 0)).1
                      = (t, 0) /\
                      ((kernelInsert_thread capacity device_keys device_values idx l (t, 0)).2
                       = IReturn \/
                       exists h, (kernelInsert_thread capacity device_keys device_values
                                    idx l (t, 0)).2 = IProbe h /\ Z.of_nat idx < numKeys)).
      { destruct (Hpool idx l Hl) as [->|(h & -> & Hidx)]; [split; [reflexivity|left; reflexivity]|].
        cbn [kernelInsert_thread fst snd]. unfold atomicCAS_key.
        destruct (t !! Z.to_nat h) as [e|] eqn:He; [|split; [reflexivity|right; eauto]].
        pose proof (Hfull _ _ He) as Hk1. pose proof (Hnew _ _ idx He Hidx) as Hk2.
        apply Z.eqb_neq in Hk1. rewrite Hk1.
        assert ((key e =? device_keys !!! idx) = false) as -> by (apply Z.eqb_neq; congruence).
        cbn [orb fst snd]. split; [reflexivity|].
        destruct (wrap32 (h + 1) mod capacity =? hashFunc (device_keys !!! idx) mod capacity);
          [left; reflexivity|right; eauto]. }
      destruct Hstep as [Hm Hl']. cbn [fst snd]. split; [exact Hm|].
      intros i l0 Hi. destruct (decide (i = idx)) as [->|Hne].
      + rewrite list_lookup_insert_eq in Hi by (eapply lookup_lt_Some, Hl).
        injection Hi as <-. exact Hl'.
      + rewrite list_lookup_insert_ne in Hi by auto. apply (Hpool i l0 Hi).
    - split; [reflexivity|]. cbn [snd]. intros i l Hi.
      rewrite list_lookup_fmap in Hi.
      destruct (grid nBlocks nThreads !! i) as [idx|] eqn:Hg; [|discriminate].
      apply grid_lookup in Hg as <-. injection Hi as <-.
      unfold kernelInsert_entry. destruct (Z.leb_spec numKeys (Z.of_nat i)); [left; reflexivity|].
      right. eauto. }
  destruct Hinv as [Hm _]. exact Hm.
Qed.

(** X10 (insertion into a full table).
    The guard of [kernelInsert] ("the hash table is full"): on a table
    without an empty slot and without any key of the batch, every worker
    makes a full turn and gives up.  The launch ends (as soon as every
    thread has been scheduled [capacity + 2] times) with the table and the
    counter of updates as they were, and nothing tells the caller. *)
Theorem kernelInsert_full nBlocks nThreads t capacity device_keys device_values numKeys :
  0 < capacity < uint32_max -> Z.of_nat (length t) = capacity ->
  (forall j e, t !! j = Some e -> key e <> KEY_INVALID) ->
  (forall j e i, t !! j = Some e -> Z.of_nat i < numKeys -> device_keys !!! i <> key e) ->
  forall sched,
    (kernelInsert sched nBlocks nThreads t capacity device_keys device_values numKeys 0
     = Some (t, 0) \/
     kernelInsert sched nBlocks nThreads t capacity device_keys device_values numKeys 0
     = None) /\
    (fair (Z.to_nat capacity + 2) (nBlocks * nThreads) sched ->
     kernelInsert sched nBlocks nThreads t capacity device_keys device_values numKeys 0
     = Some (t, 0)).
Proof.
  intros Hcap Hlen Hfull Hnew sched.
  assert (Hres : forall r,
            kernelInsert sched nBlocks nThreads t capacity device_keys device_values numKeys 0
            = Some r -> r = (t, 0)).
  { intros r Hr. eapply kernelInsert_full_result; eassumption. }
  split.
  - destruct (kernelInsert _ _ _ _ _ _ _ _ _) as [r|]; [left|right; reflexivity].
    rewrite (Hres r eq_refl). reflexivity.
  - intros Hfair.
    destruct (kernelInsert_fair sched nBlocks nThreads t capacity device_keys device_values
                numKeys Hcap Hlen Hfair) as [r Hr].
    rewrite Hr. rewrite (Hres r Hr). reflexivity.
Qed.

Lemma kernelInsert_full_witness :
  kernelInsert (concat (replicate 4 (seq 0 4))) 1 4
    [{| key := 7; value := 70 |}; {| key := 5; value := 50 |}] 2 [9] [90] 1 0
  = Some ([{| key := 7; value := 70 |}; {| key := 5; value := 50 |}], 0).
Proof.
  apply (kernelInsert_full 1 4 [{| key := 7; value := 70 |}; {| key := 5; value := 50 |}]
           2 [9] [90] 1).
  - unfold uint32_max. lia.
  - reflexivity.
  - intros [|[|j]] e He; vm_compute in He; try discriminate; injection He as <-; discriminate.
  - intros [|[|j]] e [|i] He Hi; vm_compute in He; try discriminate; try lia;
      injection He as <-; discriminate.
  - intros [|[|[|[|idx]]]] Hidx; vm_compute; lia.
Defined.

(** ** The capacity never shrinks *)

(** X11 (the capacity never shrinks).
    [insertBatch] never makes the table smaller: either [capacity] is as it
    was, or the table was resized, and then the new capacity is more than
    one and a half times the old one and above the projected number of
    keys.  (Nothing in the class ever resizes downwards on its own:
    [MIN_LOAD_FACTOR] only sets the size chosen by a resize.) *)
Theorem insertBatch_never_shrinks maxThreadsPerBlock scheds this keys values numKeys s' b :
  0 <= numKeys -> 0 <= used_buckets this ->
  used_buckets this + numKeys <= 1000000000 ->
  0 < capacity this < uint32_max ->
  insertBatch maxThreadsPerBlock scheds this keys values numKeys = Some (s', b) ->
  capacity s' = capacity this \/
  (3 * capacity this < 2 * capacity s' /\ used_buckets this + numKeys < capacity s').
Proof.
  intros Hn Hused Hbound Hcap Hr.
  destruct (Z.eq_dec numKeys 0) as [->|Hn0].
  { rewrite insertBatch_zero in Hr. injection Hr as <- _. left. reflexivity. }
  pose proof (insertBatch_capacity _ _ _ _ _ _ _ _ Hn0 Hr) as Hc.
  rewrite (wrap32_small (used_buckets this + numKeys)) in Hc by (unfold uint32_max; lia).
  set (a := used_buckets this + numKeys) in *.
  destruct Hc as [[Hgt Hc]|[_ Hc]]; [right|left; exact Hc].
  destruct (new_capacity_spec a ltac:(lia)) as (c & Hc' & Hrange & H1 & H2 & _).
  assert (capacity s' = c) as -> by congruence.
  split; [|lia].
  destruct (Z.eq_dec (capacity this) 0) as [->|Hne]; [lia|].
  destruct (Z_ge_lt_dec (4194304 * (4 * capacity this - 5 * a)) (5 * capacity this))
    as [Hlow|Hhigh].
  - rewrite loadFactor_le_max in Hgt by lia. discriminate.
  - lia.
Qed.

Lemma insertBatch_never_shrinks_witness :
  exists s',
    insertBatch 4 ([0%nat; 0%nat], [0%nat; 0%nat])
      {| table := [{| key := 1; value := 10 |}; {| key := KEY_INVALID; value := KEY_INVALID |}];
         used_buckets := 1; capacity := 2 |} [2] [20] 1 = Some (s', true) /\
    (capacity s' = 2 \/ (3 * 2 < 2 * capacity s' /\ 1 + 1 < capacity s')).
Proof.
  eexists. split; [vm_compute; reflexivity|].
  eapply (insertBatch_never_shrinks 4 ([0%nat; 0%nat], [0%nat; 0%nat])
           {| table := [{| key := 1; value := 10 |};
                        {| key := KEY_INVALID; value := KEY_INVALID |}];
              used_buckets := 1; capacity := 2 |} [2] [20] 1 _ true).
  - lia.
  - cbn. lia.
  - cbn. lia.
  - cbn. unfold uint32_max. lia.
  - vm_compute. reflexivity.
Defined.

(** ** Progress of the methods *)

Lemma fair_mono B B' T T' sched :
  fair B T sched -> (B' <= B)%nat -> T' <= T -> fair B' T' sched.
Proof. intros H HB HT idx Hidx. specialize (H idx ltac:(lia)). lia. Qed.

Lemma grid_below maxThreadsPerBlock nItems :
  0 < maxThreadsPerBlock -> 0 <= nItems ->
  (estimateBlockSize maxThreadsPerBlock nItems).1 * (estimateBlockSize maxThreadsPerBlock nItems).2
  <= nItems + maxThreadsPerBlock.
Proof.
  intros Ht Hn. unfold estimateBlockSize. cbn [fst snd].
  pose proof (Z.div_mod nItems maxThreadsPerBlock ltac:(lia)) as Hdm.
  pose proof (Z.mod_pos_bound nItems maxThreadsPerBlock Ht) as Hm.
  destruct (Z.eqb_spec (nItems mod maxThreadsPerBlock) 0) as [E|E]; nia.
Qed.

(** [getBatch] under a fair schedule. *)
Lemma getBatch_fair_returns maxThreadsPerBlock sched (this : GpuHashTable) keys numKeys :
  0 < maxThreadsPerBlock ->
  0 < capacity this < uint32_max ->
  Z.of_nat (length (table this)) = capacity this ->
  0 < numKeys ->
  (forall i, Z.of_nat i < numKeys ->
     exists j, keys_of (table this) !! j = Some (keys !!! i)) ->
  fair (Z.to_nat (capacity this)) (numKeys + maxThreadsPerBlock) sched ->
  exists r, getBatch maxThreadsPerBlock sched this keys numKeys = Some r.
Proof.
  intros Hthreads Hcap Hlen Hn Hpresent Hfair.
  unfold getBatch. destruct (numKeys =? 0) eqn:E; [apply Z.eqb_eq in E; lia|].
  pose proof (grid_below maxThreadsPerBlock numKeys Hthreads ltac:(lia)) as Hg.
  destruct (estimateBlockSize maxThreadsPerBlock numKeys) as [nB nT]. cbn [fst snd] in Hg.
  destruct (kernelGet_fair sched nB nT (table this) (capacity this)
              (take (Z.to_nat numKeys) keys) (replicate (Z.to_nat numKeys) 0) numKeys
              Hcap Hlen) as [[t' out] Hk].
  - rewrite length_replicate. lia.
  - intros i Hi. rewrite take_lookup_total by lia. apply Hpresent, Hi.
  - eapply fair_mono; [exact Hfair|lia|exact Hg].
  - rewrite Hk. eauto.
Qed.

(** X12 (progress of getBatch).
    [getBatch] of keys that are all in the table returns under every
    schedule that lets each thread take [capacity] steps, and returns for
    each key the value of a slot that holds it. *)
Theorem getBatch_progress maxThreadsPerBlock sched (this : GpuHashTable) keys numKeys :
  0 < maxThreadsPerBlock ->
  0 < capacity this < uint32_max ->
  Z.of_nat (length (table this)) = capacity this ->
  0 < numKeys ->
  (forall i, Z.of_nat i < numKeys ->
     exists j, keys_of (table this) !! j = Some (keys !!! i)) ->
  fair (Z.to_nat (capacity this)) (numKeys + maxThreadsPerBlock) sched ->
  exists out,
    getBatch maxThreadsPerBlock sched this keys numKeys = Some (this, Some out) /\
    Z.of_nat (length out) = numKeys /\
    forall i, Z.of_nat i < numKeys ->
      exists v, out !! i = Some v /\ stored (table this) (keys !!! i) v.
Proof.
  intros Hthreads Hcap Hlen Hn Hpresent Hfair.
  destruct (getBatch_fair_returns maxThreadsPerBlock sched this keys numKeys
              Hthreads Hcap Hlen Hn Hpresent Hfair) as [[s' r] Hr].
  destruct (getBatch_spec maxThreadsPerBlock Hthreads _ _ _ _ _ _ Hcap Hlen Hn Hr)
    as (-> & out & -> & Hlo & Hout).
  exists out. auto.
Qed.

Lemma getBatch_progress_witness :
  exists out,
    getBatch 4 (concat (replicate 2 (seq 0 6)))
      {| table := [{| key := 7; value := 70 |}; {| key := 5; value := 50 |}];
         used_buckets := 2; capacity := 2 |} [5; 7] 2
    = Some ({| table := [{| key := 7; value := 70 |}; {| key := 5; value := 50 |}];
               used_buckets := 2; capacity := 2 |}, Some out).
Proof.
  destruct (getBatch_progress 4 (concat (replicate 2 (seq 0 6)))
              {| table := [{| key := 7; value := 70 |}; {| key := 5; value := 50 |}];
                 used_buckets := 2; capacity := 2 |} [5; 7] 2) as (out & Hg & _).
  - lia.
  - cbn. unfold uint32_max. lia.
  - reflexivity.
  - lia.
  - intros [|[|i]] Hi; [exists 1%nat; reflexivity|exists 0%nat; reflexivity|lia].
  - intros [|[|[|[|[|[|idx]]]]]] Hidx; vm_compute; lia.
  - exists out. exact Hg.
Defined.

(** [reshape] under a fair schedule. *)
Lemma reshape_fair_returns maxThreadsPerBlock sched (this : GpuHashTable) c :
  0 < maxThreadsPerBlock -> 0 < capacity this -> 0 < c < 2147483648 ->
  fair (Z.to_nat c + 2) (capacity this + maxThreadsPerBlock) sched ->
  exists s', reshape maxThreadsPerBlock sched this c = Some s'.
Proof.
  intros Hthreads Hcap Hc Hfair.
  unfold reshape. destruct (c <? 0) eqn:Ec; [apply Z.ltb_lt in Ec; lia|].
  pose proof (grid_below maxThreadsPerBlock (capacity this) Hthreads ltac:(lia)) as Hg.
  destruct (estimateBlockSize maxThreadsPerBlock (capacity this)) as [nB nT].
  cbn [fst snd] in Hg.
  destruct (kernelReshape_fair sched nB nT (table this) (capacity this) c) as [r Hr].
  - unfold uint32_max. lia.
  - eapply fair_mono; [exact Hfair|lia|exact Hg].
  - rewrite Hr. eauto.
Qed.

(** X13 (progress of reshape).
    [reshape] to a positive capacity returns under every schedule that lets
    each thread take [numBucketsReshape + 2] steps. *)
Theorem reshape_progress maxThreadsPerBlock sched (this : GpuHashTable) c :
  0 < maxThreadsPerBlock -> 0 < capacity this -> 0 < c < 2147483648 ->
  fair (Z.to_nat c + 2) (capacity this + maxThreadsPerBlock) sched ->
  exists s',
    reshape maxThreadsPerBlock sched this c = Some s' /\
    capacity s' = c /\ used_buckets s' = used_buckets this.
Proof.
  intros Hthreads Hcap Hc Hfair.
  destruct (reshape_fair_returns maxThreadsPerBlock sched this c Hthreads Hcap Hc Hfair)
    as [s' Hr].
  exists s'. split; [exact Hr|].
  destruct (reshape_fields _ _ _ _ _ Hr) as (Hc' & Hu & _). auto.
Qed.

Lemma reshape_progress_witness :
  exists s',
    reshape 4 (concat (replicate 5 (seq 0 6)))
      {| table := [{| key := 7; value := 70 |}; {| key := 5; value := 50 |}];
         used_buckets := 2; capacity := 2 |} 3 = Some s' /\
    capacity s' = 3 /\ used_buckets s' = 2.
Proof.
  apply (reshape_progress 4 (concat (replicate 5 (seq 0 6)))
           {| table := [{| key := 7; value := 70 |}; {| key := 5; value := 50 |}];
              used_buckets := 2; capacity := 2 |} 3); [lia|cbn; lia|lia|].
  intros [|[|[|[|[|[|idx]]]]]] Hidx; cbn [capacity] in Hidx; vm_compute; lia.
Defined.

(** X14 (progress of insertBatch).
    [insertBatch] of [numKeys > 0] keys returns [true] under every pair of
    schedules that lets each thread take [bound] steps, for a bound above
    the old capacity and above three times the projected number of keys
    (which is above the capacity after a resize). *)
Theorem insertBatch_progress maxThreadsPerBlock scheds (this : GpuHashTable) keys values
    numKeys bound :
  0 < maxThreadsPerBlock ->
  Z.of_nat (length (table this)) = capacity this -> 0 < capacity this < uint32_max ->
  0 <= used_buckets this -> 0 < numKeys ->
  used_buckets this + numKeys <= 1000000000 ->
  capacity this + 2 <= Z.of_nat bound ->
  3 * (used_buckets this + numKeys) + 2 <= Z.of_nat bound ->
  fair bound (capacity this + maxThreadsPerBlock) scheds.1 ->
  fair bound (numKeys + maxThreadsPerBlock) scheds.2 ->
  exists s', insertBatch maxThreadsPerBlock scheds this keys values numKeys = Some (s', true).
Proof.
  intros Hthreads Hlen Hcap Hused Hn Hbound HB1 HB2 Hf1 Hf2. unfold insertBatch.
  destruct (numKeys =? 0) eqn:E; [apply Z.eqb_eq in E; lia|].
  rewrite (wrap32_small (used_buckets this + numKeys)) by (unfold uint32_max; lia).
  pose proof (grid_below maxThreadsPerBlock numKeys Hthreads ltac:(lia)) as Hg.
  destruct (estimateBlockSize maxThreadsPerBlock numKeys) as [nB nT]. cbn [fst snd] in Hg.
  destruct (float32_gt _ MAX_LOAD_FACTOR) eqn:Egt.
  - destruct (new_capacity_spec (used_buckets this + numKeys) ltac:(lia))
      as (c & Hc & Hrange & Hc1 & _).
    rewrite Hc.
    destruct (reshape_fair_returns maxThreadsPerBlock scheds.1 this c Hthreads ltac:(lia)
                ltac:(lia)) as (s1 & Hre).
    { eapply fair_mono; [exact Hf1|lia|lia]. }
    destruct (reshape_fields _ _ _ _ _ Hre) as (Hcap1 & _).
    assert (Hcr : 0 < c < uint32_max) by (unfold uint32_max; lia).
    pose proof (reshape_length _ _ _ _ _ Hcr Hre) as Hlen1.
    destruct (kernelInsert_fair scheds.2 nB nT (table s1) (capacity s1)
                (take (Z.to_nat numKeys) keys) (take (Z.to_nat numKeys) values) numKeys)
      as ([t' cnt'] & Hk); [lia|lia| |].
    { eapply fair_mono; [exact Hf2|lia|exact Hg]. }
    rewrite Hre, Hk. eauto.
  - destruct (kernelInsert_fair scheds.2 nB nT (table this) (capacity this)
                (take (Z.to_nat numKeys) keys) (take (Z.to_nat numKeys) values) numKeys)
      as ([t' cnt'] & Hk); [lia|lia| |].
    { eapply fair_mono; [exact Hf2|lia|exact Hg]. }
    rewrite Hk. eauto.
Qed.

Lemma insertBatch_progress_witness :
  exists s',
    insertBatch 4 (concat (replicate 8 (seq 0 6)), concat (replicate 8 (seq 0 5)))
      {| table := [{| key := 1; value := 10 |}; {| key := KEY_INVALID; value := KEY_INVALID |}];
         used_buckets := 1; capacity := 2 |} [2] [20] 1 = Some (s', true).
Proof.
  apply (insertBatch_progress 4
           (concat (replicate 8 (seq 0 6)), concat (replicate 8 (seq 0 5)))
           {| table := [{| key := 1; value := 10 |};
                        {| key := KEY_INVALID; value := KEY_INVALID |}];
              used_buckets := 1; capacity := 2 |} [2] [20] 1 8%nat).
  - lia.
  - reflexivity.
  - cbn. unfold uint32_max. lia.
  - cbn. lia.
  - lia.
  - cbn. lia.
  - cbn. lia.
  - cbn. lia.
  - intros [|[|[|[|[|[|idx]]]]]] Hidx; cbn [capacity] in Hidx; vm_compute; lia.
  - intros [|[|[|[|[|idx]]]]] Hidx; vm_compute; lia.
Defined.


(** * The object as a finite map *)

Lemma refines_live this m : refines this m -> live (table this) = Z.of_nat (size m).
Proof.
  intros [[_ Htab _] Hcont Hval]. unfold live. f_equal.
  rewrite <- length_map_to_list, <- (length_fmap fst (map_to_list m)).
  apply Permutation_length, NoDup_Permutation.
  - eapply table_ok_NoDup, Htab.
  - apply NoDup_fst_map_to_list.
  - intros k. rewrite list_elem_of_fmap. split.
    + intros Hk. apply live_stored in Hk as [Hk [v Hv]].
      exists (k, v). split; [reflexivity|]. apply elem_of_map_to_list, Hcont; assumption.
    + intros ([k' v] & -> & Hkv). apply elem_of_map_to_list in Hkv. cbn.
      assert (Hk : k' <> KEY_INVALID) by (intros ->; congruence).
      eapply stored_live; [exact Hk|]. apply Hcont; eassumption.
Qed.

Lemma refines_used this m : refines this m -> used_buckets this = Z.of_nat (size m).
Proof. intros H. rewrite <- (refines_live this m H). apply (wf_used _ (rf_wf _ _ H)). Qed.

Lemma refines_new size : 0 < size < 2147483648 -> refines (GpuHashTable_new size) ∅.
Proof.
  intros Hs. split; [apply wf_new, Hs| |apply lookup_empty].
  intros k v Hk. rewrite lookup_empty. split; [|discriminate].
  intros [h Hh]. apply memset_lookup in Hh. congruence.
Qed.

Lemma zip_lookup_pair (keys values : list Z) k v :
  (k, v) ∈ zip keys values <-> exists i, keys !! i = Some k /\ values !! i = Some v.
Proof.
  rewrite elem_of_lookup_zip_with. split.
  - intros (i & x & y & [= -> ->] & Hx & Hy). eauto.
  - intros (i & Hx & Hy). exists i, k, v. auto.
Qed.

Lemma refines_insert maxThreadsPerBlock scheds this m keys values s' b :
  0 < maxThreadsPerBlock -> refines this m ->
  call_ok m (CallInsert scheds keys values) ->
  insertBatch maxThreadsPerBlock scheds this keys values (Z.of_nat (length keys))
  = Some (s', b) ->
  refines s' (map_call m (CallInsert scheds keys values)).
Proof.
  intros Hthreads Href (Hne & Hnd & Hvalid & Hlen & Hbound) Hr.
  pose proof (refines_used _ _ Href) as Hused.
  destruct Href as [Hwf Hcont Hval].
  assert (Hb : used_buckets this + Z.of_nat (length keys) <= 1000000000) by lia.
  destruct (content_facts maxThreadsPerBlock Hthreads scheds this keys values s' b
              Hwf Hnd Hvalid Hne Hlen Hb Hr) as (Hwf' & Hins & Hframe & Hlive).
  pose proof (wf_table _ Hwf') as Htab'.
  assert (Hfst : (zip keys values).*1 = keys) by (apply fst_zip; lia).
  cbn [map_call]. split; [exact Hwf'| |].
  - intros k v Hk. rewrite lookup_union_Some_raw.
    destruct (decide (k ∈ keys)) as [Hin|Hnot].
    + apply list_elem_of_lookup_1 in Hin as [i Hi].
      pose proof (lookup_lt_Some _ _ _ Hi) as Hlt.
      assert (Hvi : values !! i = Some (values !!! i))
        by (apply list_lookup_lookup_total_lt; lia).
      assert (HM : (list_to_map (zip keys values) : gmap Z Z) !! k = Some (values !!! i)).
      { apply elem_of_list_to_map_1; [rewrite Hfst; exact Hnd|].
        apply zip_lookup_pair. eauto. }
      rewrite HM. split.
      * intros Hst. left. f_equal.
        symmetry. apply (stored_unique _ _ _ _ _ Htab' Hk Hst (Hins i k Hi)).
      * intros [[= <-]|[[=] _]]. apply Hins, Hi.
    + assert (HM : (list_to_map (zip keys values) : gmap Z Z) !! k = None).
      { apply not_elem_of_list_to_map. rewrite Hfst. exact Hnot. }
      rewrite HM, <- (Hcont k v Hk). split.
      * intros Hst. right. split; [reflexivity|].
        destruct (Hlive k (stored_live _ _ _ Hk Hst)) as [Hold|Hin]; [|contradiction].
        apply live_stored in Hold as [_ [v0 Hv0]].
        rewrite (stored_unique _ _ _ _ _ Htab' Hk Hst (Hframe k v0 Hk Hv0 Hnot)). exact Hv0.
      * intros [[=]|[_ Hst]]. apply Hframe; assumption.
  - apply lookup_union_None. split; [|exact Hval].
    apply not_elem_of_list_to_map. rewrite Hfst. intros Hin.
    rewrite list.Forall_forall in Hvalid. exact (Hvalid _ Hin eq_refl).
Qed.

Lemma refines_reshape maxThreadsPerBlock sched this m c s' :
  0 < maxThreadsPerBlock -> refines this m ->
  call_ok m (CallReshape sched c) ->
  reshape maxThreadsPerBlock sched this c = Some s' ->
  refines s' m.
Proof.
  intros Hthreads Href [Hroom Hc] Hr.
  pose proof (refines_live _ _ Href) as Hlive.
  destruct Href as [[Hcap Htab Hused] Hcont Hval].
  assert (Hle : live (table this) <= c) by lia.
  assert (Hcr : 0 < c < uint32_max) by (unfold uint32_max; lia).
  destruct (reshape_spec maxThreadsPerBlock Hthreads _ _ _ _ (ok_length _ _ Htab)
              (table_ok_NoDup _ _ Htab) (ok_distinct _ _ Htab) Hle Hcr Hr)
    as (Hc' & Hu & Htab' & Hl & Hkeep & Hsub).
  split; [|intros k v Hk; rewrite <- (Hcont k v Hk)|exact Hval].
  - split; [lia|rewrite Hc'; exact Htab'|lia].
  - split; [|apply Hkeep, Hk].
    intros Hst. pose proof (Hsub k (stored_live _ _ _ Hk Hst)) as Hold.
    apply live_stored in Hold as [_ [v0 Hv0]].
    rewrite (stored_unique _ _ _ _ _ Htab' Hk Hst (Hkeep k v0 Hk Hv0)). exact Hv0.
Qed.

(** X15 (the table is a map).
    Whatever the schedules, a sequence of calls of [insertBatch] and
    [reshape] on a new table leaves an object that holds exactly the map
    that the calls build one after the other, with [used_buckets] the
    number of its keys: the parallel table behaves as a sequential map. *)
Theorem table_refines_map maxThreadsPerBlock size (cs : list call) s :
  0 < maxThreadsPerBlock -> 0 < size < 2147483648 ->
  calls_ok ∅ cs ->
  do_calls maxThreadsPerBlock cs (GpuHashTable_new size) = Some s ->
  refines s (map_calls cs ∅) /\
  used_buckets s = Z.of_nat (base.size (map_calls cs ∅)).
Proof.
  intros Hthreads Hsize Hok Hrun.
  assert (Hgen : forall cs this m s,
            refines this m -> calls_ok m cs ->
            do_calls maxThreadsPerBlock cs this = Some s -> refines s (map_calls cs m)).
  { clear Hok Hrun. clear cs s.
    intros cs. induction cs as [|c cs IH]; intros this m s Href Hok Hrun.
    - injection Hrun as <-. exact Href.
    - destruct Hok as [Hc Hok]. cbn [do_calls] in Hrun.
      destruct (do_call maxThreadsPerBlock this c) as [s1|] eqn:Hs1; [|discriminate].
      apply (IH s1 (map_call m c) s); [|exact Hok|exact Hrun].
      destruct c as [scheds keys values|sched c]; cbn [do_call] in Hs1.
      + destruct (insertBatch _ _ _ _ _ _) as [[s2 b]|] eqn:Hi; [|discriminate].
        injection Hs1 as <-. eapply refines_insert; eauto.
      + cbn [map_call]. eapply refines_reshape; eauto. }
  pose proof (Hgen cs _ ∅ s (refines_new size Hsize) Hok Hrun) as Href.
  split; [exact Href|apply refines_used, Href].
Qed.

Lemma table_refines_map_witness :
  exists s,
    do_calls 4
      [CallInsert ([], concat (replicate 8 (seq 0 4))) [1; 2; 3] [10; 20; 30];
       CallReshape (concat (replicate 20 (seq 0 8))) 16;
       CallInsert ([], concat (replicate 20 (seq 0 4))) [2] [25]]
      (GpuHashTable_new 8) = Some s /\
    used_buckets s = 3.
Proof.
  eexists. split; [vm_compute; reflexivity|].
  match goal with |- used_buckets ?s = _ => set (s0 := s) end.
  destruct (table_refines_map 4 8
              [CallInsert ([], concat (replicate 8 (seq 0 4))) [1; 2; 3] [10; 20; 30];
               CallReshape (concat (replicate 20 (seq 0 8))) 16;
               CallInsert ([], concat (replicate 20 (seq 0 4))) [2] [25]]
              s0 ltac:(lia) ltac:(lia)) as [_ Hu].
  - cbn [calls_ok call_ok map_call]. split; [|split; [|split]]; [| | |exact I].
    + split; [discriminate|]. split; [apply (bool_decide_unpack (NoDup [1; 2; 3])); exact I|].
      split; [repeat constructor; discriminate|]. split; [reflexivity|].
      vm_compute. discriminate.
    + split; [vm_compute; discriminate|lia].
    + split; [discriminate|]. split; [apply (bool_decide_unpack (NoDup [2])); exact I|].
      split; [repeat constructor; discriminate|]. split; [reflexivity|].
      vm_compute. discriminate.
  - vm_compute. reflexivity.
  - rewrite Hu. vm_compute. reflexivity.
Defined.

(** X16 (getBatch reads the map).
    On an object that holds the map [m], [getBatch] of keys of [m] returns
    the values that [m] gives them, in order: whenever it returns, and it
    does return under every schedule that lets each thread take [capacity]
    steps. *)
Theorem getBatch_reads_map maxThreadsPerBlock (this : GpuHashTable) (m : gmap Z Z) keys :
  0 < maxThreadsPerBlock -> refines this m -> keys <> [] ->
  Forall (fun k => is_Some (m !! k)) keys ->
  (forall sched s' r,
     getBatch maxThreadsPerBlock sched this keys (Z.of_nat (length keys)) = Some (s', r) ->
     s' = this /\ r = Some ((fun k => default 0 (m !! k)) <$> keys)) /\
  (forall sched,
     fair (Z.to_nat (capacity this)) (Z.of_nat (length keys) + maxThreadsPerBlock) sched ->
     getBatch maxThreadsPerBlock sched this keys (Z.of_nat (length keys))
     = Some (this, Some ((fun k => default 0 (m !! k)) <$> keys))).
Proof.
  intros Hthreads [[Hcap Htab _] Hcont Hval] Hne Hin.
  assert (Hn : 0 < Z.of_nat (length keys)) by (destruct keys; [contradiction|cbn; lia]).
  assert (Hcr : 0 < capacity this < uint32_max) by (unfold uint32_max; lia).
  assert (Hres : forall sched s' r,
            getBatch maxThreadsPerBlock sched this keys (Z.of_nat (length keys))
            = Some (s', r) ->
            s' = this /\ r = Some ((fun k => default 0 (m !! k)) <$> keys)).
  { intros sched s' r Hg.
    destruct (getBatch_spec maxThreadsPerBlock Hthreads _ _ _ _ _ _ Hcr (ok_length _ _ Htab)
                Hn Hg) as (-> & out & -> & Hlo & Hout).
    split; [reflexivity|]. f_equal. apply list_eq. intros i.
    rewrite list_lookup_fmap.
    destruct (keys !! i) as [k|] eqn:Hk; cbn.
    - pose proof (lookup_lt_Some _ _ _ Hk) as Hi.
      destruct (Hout i ltac:(lia)) as (v & Hv & Hst).
      rewrite (list_lookup_total_correct _ _ _ Hk) in Hst. rewrite Hv.
      rewrite list.Forall_forall in Hin.
      destruct (Hin k (list_elem_of_lookup_2 _ _ _ Hk)) as [v0 Hv0].
      assert (Hkv : k <> KEY_INVALID) by (intros ->; congruence).
      apply (Hcont k v Hkv) in Hst. rewrite Hst. reflexivity.
    - apply lookup_ge_None in Hk. apply lookup_ge_None_2. lia. }
  split; [exact Hres|].
  intros sched Hfair.
  destruct (getBatch_fair_returns maxThreadsPerBlock sched this keys (Z.of_nat (length keys))
              Hthreads Hcr (ok_length _ _ Htab) Hn) as ([s' r] & Hg).
  - intros i Hi. rewrite list.Forall_forall in Hin.
    destruct (Hin (keys !!! i)) as [v Hv]; [apply list_elem_of_lookup_total_2; lia|].
    assert (Hkv : keys !!! i <> KEY_INVALID) by (intros E; rewrite E in Hv; congruence).
    eapply stored_keys_of, Hcont; eassumption.
  - exact Hfair.
  - rewrite Hg. destruct (Hres sched _ _ Hg) as [-> ->]. reflexivity.
Qed.

Lemma getBatch_reads_map_witness :
  exists s,
    insertBatch 4 ([], concat (replicate 8 (seq 0 4))) (GpuHashTable_new 8)
      [1; 2; 3] [10; 20; 30] 3 = Some (s, true) /\
    getBatch 4 (concat (replicate 8 (seq 0 6))) s [3; 1] 2 = Some (s, Some [30; 10]).
Proof.
  eexists. split; [vm_compute; reflexivity|].
  match goal with |- getBatch _ _ ?s _ _ = _ => set (s0 := s) end.
  assert (Href : refines s0
                   (map_call ∅ (CallInsert ([], concat (replicate 8 (seq 0 4)))
                                  [1; 2; 3] [10; 20; 30]))).
  { apply (refines_insert 4 ([], concat (replicate 8 (seq 0 4))) (GpuHashTable_new 8) ∅
             [1; 2; 3] [10; 20; 30] s0 true);
      [lia|apply refines_new; lia| |vm_compute; reflexivity].
    split; [discriminate|]. split; [apply (bool_decide_unpack (NoDup [1; 2; 3])); exact I|].
    split; [repeat constructor; discriminate|]. split; [reflexivity|].
    vm_compute. discriminate. }
  destruct (getBatch_reads_map 4 s0 _ [3; 1] ltac:(lia) Href ltac:(discriminate)) as [_ Hg].
  - repeat constructor; vm_compute; eauto.
  - refine (eq_trans (Hg (concat (replicate 8 (seq 0 6))) _) _); [|vm_compute; reflexivity].
    intros [|[|[|[|[|[|idx]]]]]] Hidx; vm_compute; cbn [length] in Hidx; lia.
Defined.
